(** * pr-scheduler: the scheduled-merge workflow of [main.go]

    A shallow embedding of the Bubble Tea model of [main.go] (its data
    types, messages, commands with their bodies, the [Update] function with
    its three key handlers, and [View]), followed by the properties of the
    scheduled-merge workflow.

    Conventions of the embedding.
    - Go [int] values that are only compared or printed (PR numbers) are [Z];
      the one place where the program does arithmetic on an [int]
      ([m.height-5]) writes the 64-bit wrap-around out.
    - A [time.Time] is its wall-clock instant, in nanoseconds since Go's
      zero time (January 1, year 1, 00:00 UTC), together with its monotonic
      clock reading when it carries one ([time.Now()] and the time of a
      tick do, a parsed time and [time.Time{}] do not); a [time.Duration]
      is a number of nanoseconds.  The location and the limits of the
      representable range are not modelled.
    - An [error] is [option string]: [None] is [nil], [Some e] an error
      whose [Error()] text is [e].
    - A [tea.Cmd] is the list of commands it stands for ([nil] is the empty
      list, [tea.Batch] is concatenation).  Every command is paired with the
      index in [m.scheduled] of the entry whose handling issued it; that
      index is ghost data, [cmdsOf] forgets it.
    - [Update] returns [None] where the Go code panics (the one nil
      dereference of [m.schedFor] in [updateTimePickerKey]).
    - What the program takes from the Go standard library and from the
      [bubbles] widgets is the interface [Host]. *)

From Stdlib Require Import ZArith Bool Lia.
From stdpp Require Import base list strings pretty.

Local Open Scope Z_scope.

(** ** Package [time] *)

Module time.
Definition Duration := Z.

(** [wall]: the wall-clock instant; [mono]: the monotonic clock reading,
    if the value carries one. *)
Record Time := {
  wall : Z;
  mono : option Z
}.

Definition Nanosecond : Duration := 1.
Definition Second : Duration := 1000000000 * Nanosecond.
Definition Minute : Duration := 60 * Second.
Definition Hour : Duration := 60 * Minute.

(** [time.Time{}] *)
Definition zero : Time := {| wall := 0; mono := None |}.

(** [t.IsZero()]: the wall-clock instant is January 1, year 1, 00:00 UTC. *)
Definition IsZero (t : Time) : bool := wall t =? 0.

(** [t.After(u)]: on the monotonic clock readings when both values carry
    one, on the wall-clock instants otherwise. *)
Definition After (t u : Time) : bool :=
  match mono t, mono u with
  | Some a, Some b => b <? a
  | _, _ => wall u <? wall t
  end.

(** [t.Add(d)] moves the wall-clock instant and the monotonic clock
    reading alike. *)
Definition Add (t : Time) (d : Duration) : Time :=
  {| wall := wall t + d; mono := (λ x, x + d) <$> mono t |}.

Definition RFC3339 : string := "2006-01-02T15:04:05Z07:00".
End time.

Abbreviation Time := time.Time.

(** ** Data types *)

Definition error := option string.

Record pr := {
  Number : Z;
  Title : string;
  Author : string;
  State : string;
  MergeState : string;
  URL : string
}.

Record timePreset := {
  Label : string;
  Description : string;
  IsCustom : bool;
  Duration : time.Duration
}.

(** The two implementations of [list.Item]. *)
Inductive Item :=
| prItem (p : pr)
| timePresetItem (preset : timePreset).

Record scheduledMerge := {
  PR : pr;
  When : Time;
  PreMergeCommentPosted : bool;
  MergeTriggered : bool;
  CheckScheduled : bool;
  CheckAt : Time;
  FailureHandled : bool;
  Done : bool;
  LastMessage : string
}.

(** ** Messages *)

Inductive KeyType := KeyEnter | KeyEsc | KeyOther.

(** A [tea.KeyMsg], through the two observations the program makes of it:
    [msg.Type] and [msg.String()]. *)
Record Key := {
  keyType : KeyType;
  keyString : string
}.

(** [errMsg] always wraps a non-nil error (every producer builds it with
    [fmt.Errorf]); [otherMsg] is any message the [switch] of [Update] does
    not name. *)
Inductive Msg :=
| WindowSizeMsg (Width Height : Z)
| meMsg (login : string)
| prListMsg (l : list pr)
| errMsg (err : string)
| tickMsg (t : Time)
| mergeResultMsg (prNumber : Z) (err : error)
| checkMergedMsg (prNumber : Z) (merged : bool) (err : error)
| commentResultMsg (prNumber : Z) (isPreMerge : bool) (err : error)
| disableAutoMergeResultMsg (prNumber : Z) (err : error)
| commitSHAMsg (prNumber : Z) (sha : string) (err : error)
| KeyMsg (k : Key)
| otherMsg (payload : string).

(** ** Commands (side effects) *)

(** [notifySend] is the [notify-send] process that the [commitSHAMsg]
    handler runs synchronously; [widgetCmd] is a command returned by one of
    the [bubbles] widgets. *)
Inductive Cmd :=
| fetchMeCmd
| fetchPRsCmd
| tickCmd
| mergePRCmd (prNumber : Z)
| commentPRCmd (prNumber : Z) (body : string) (isPreMerge : bool)
| disableAutoMergeCmd (prNumber : Z)
| getCommitSHACmd (prNumber : Z)
| checkMergedCmd (prNumber : Z)
| Quit
| notifySend (title body : string)
| widgetCmd (payload : string).

(** A command with the index of the entry it was issued for. *)
Definition issued : Type := option nat * Cmd.

Definition cmdsOf (l : list issued) : list Cmd := snd <$> l.
Definition untied (l : list Cmd) : list issued := pair None <$> l.
Definition tied (i : nat) (l : list Cmd) : list issued := pair (Some i) <$> l.

(** ** The host: Go's [time] and [strings] packages and the widgets *)

Class Host := {
  (** [t.Format(layout)]; Go's reads the wall clock of [t] only *)
  Format : Time → string → string;
  (** [time.ParseInLocation(layout, value, time.Local)]; [None] is a
      non-nil error; Go's result carries no monotonic clock reading *)
  ParseInLocation : string → string → option Time;
  TrimSpace : string → string;
  ToLower : string → string;
  (** [bubbles/list] *)
  listModel : Type;
  list_New : list Item → listModel;
  list_SetTitle : listModel → string → listModel;
  list_SetShowHelp : listModel → bool → listModel;
  list_SetFilteringEnabled : listModel → bool → listModel;
  list_SetSize : listModel → Z → Z → listModel;
  list_SetItems : listModel → list Item → listModel;
  list_SelectedItem : listModel → option Item;
  list_Update : listModel → Msg → listModel * list string;
  (** [bubbles/textinput] *)
  inputModel : Type;
  textinput_New : string → Z → string → inputModel;
  input_Value : inputModel → string;
  input_SetValue : inputModel → string → inputModel;
  input_CursorEnd : inputModel → inputModel;
  input_Focus : inputModel → inputModel;
  input_Blur : inputModel → inputModel;
  input_Update : inputModel → Msg → inputModel * list string
}.

(** [strconv.Itoa] and the [%d] verb. *)
Definition Itoa (n : Z) : string := pretty n.

(** The [%v] verb on a [bool]. *)
Definition fmtBool (b : bool) : string := if b then "true" else "false".

(** Go's [int] arithmetic, 64 bits wide. *)
Definition wrap64 (z : Z) : Z := (z + 2 ^ 63) mod 2 ^ 64 - 2 ^ 63.

Definition layout : string := "2006-01-02 15:04".

(** ** Model *)

Inductive mode := modeListing | modeTimePicker | modeScheduling.

Section Scheduler.
Context {host : Host}.

Record model := {
  width : Z;
  height : Z;
  list_ : listModel;
  timePicker : listModel;
  prs : list pr;
  onlyMine : bool;
  me : string;
  status : string;
  lastErr : error;
  mode_ : mode;
  input : inputModel;
  schedFor : option pr;
  scheduled : list scheduledMerge;
  now : Time;
  quitWarned : bool
}.

(** Field updates of [scheduledMerge]. *)

Definition set_PreMergeCommentPosted (b : bool) (s : scheduledMerge) : scheduledMerge :=
  {| PR := PR s; When := When s; PreMergeCommentPosted := b;
     MergeTriggered := MergeTriggered s; CheckScheduled := CheckScheduled s;
     CheckAt := CheckAt s; FailureHandled := FailureHandled s; Done := Done s;
     LastMessage := LastMessage s |}.

Definition set_MergeTriggered (b : bool) (s : scheduledMerge) : scheduledMerge :=
  {| PR := PR s; When := When s; PreMergeCommentPosted := PreMergeCommentPosted s;
     MergeTriggered := b; CheckScheduled := CheckScheduled s;
     CheckAt := CheckAt s; FailureHandled := FailureHandled s; Done := Done s;
     LastMessage := LastMessage s |}.

Definition set_CheckScheduled (b : bool) (s : scheduledMerge) : scheduledMerge :=
  {| PR := PR s; When := When s; PreMergeCommentPosted := PreMergeCommentPosted s;
     MergeTriggered := MergeTriggered s; CheckScheduled := b;
     CheckAt := CheckAt s; FailureHandled := FailureHandled s; Done := Done s;
     LastMessage := LastMessage s |}.

Definition set_CheckAt (t : Time) (s : scheduledMerge) : scheduledMerge :=
  {| PR := PR s; When := When s; PreMergeCommentPosted := PreMergeCommentPosted s;
     MergeTriggered := MergeTriggered s; CheckScheduled := CheckScheduled s;
     CheckAt := t; FailureHandled := FailureHandled s; Done := Done s;
     LastMessage := LastMessage s |}.

Definition set_FailureHandled (b : bool) (s : scheduledMerge) : scheduledMerge :=
  {| PR := PR s; When := When s; PreMergeCommentPosted := PreMergeCommentPosted s;
     MergeTriggered := MergeTriggered s; CheckScheduled := CheckScheduled s;
     CheckAt := CheckAt s; FailureHandled := b; Done := Done s;
     LastMessage := LastMessage s |}.

Definition set_Done (b : bool) (s : scheduledMerge) : scheduledMerge :=
  {| PR := PR s; When := When s; PreMergeCommentPosted := PreMergeCommentPosted s;
     MergeTriggered := MergeTriggered s; CheckScheduled := CheckScheduled s;
     CheckAt := CheckAt s; FailureHandled := FailureHandled s; Done := b;
     LastMessage := LastMessage s |}.

Definition set_LastMessage (x : string) (s : scheduledMerge) : scheduledMerge :=
  {| PR := PR s; When := When s; PreMergeCommentPosted := PreMergeCommentPosted s;
     MergeTriggered := MergeTriggered s; CheckScheduled := CheckScheduled s;
     CheckAt := CheckAt s; FailureHandled := FailureHandled s; Done := Done s;
     LastMessage := x |}.

(** Field updates of [model]. *)

Definition set_size (w h : Z) (m : model) : model :=
  {| width := w; height := h; list_ := list_ m; timePicker := timePicker m;
     prs := prs m; onlyMine := onlyMine m; me := me m; status := status m;
     lastErr := lastErr m; mode_ := mode_ m; input := input m;
     schedFor := schedFor m; scheduled := scheduled m; now := now m;
     quitWarned := quitWarned m |}.

Definition set_list (x : listModel) (m : model) : model :=
  {| width := width m; height := height m; list_ := x; timePicker := timePicker m;
     prs := prs m; onlyMine := onlyMine m; me := me m; status := status m;
     lastErr := lastErr m; mode_ := mode_ m; input := input m;
     schedFor := schedFor m; scheduled := scheduled m; now := now m;
     quitWarned := quitWarned m |}.

Definition set_timePicker (x : listModel) (m : model) : model :=
  {| width := width m; height := height m; list_ := list_ m; timePicker := x;
     prs := prs m; onlyMine := onlyMine m; me := me m; status := status m;
     lastErr := lastErr m; mode_ := mode_ m; input := input m;
     schedFor := schedFor m; scheduled := scheduled m; now := now m;
     quitWarned := quitWarned m |}.

Definition set_prs (x : list pr) (m : model) : model :=
  {| width := width m; height := height m; list_ := list_ m; timePicker := timePicker m;
     prs := x; onlyMine := onlyMine m; me := me m; status := status m;
     lastErr := lastErr m; mode_ := mode_ m; input := input m;
     schedFor := schedFor m; scheduled := scheduled m; now := now m;
     quitWarned := quitWarned m |}.

Definition set_onlyMine (x : bool) (m : model) : model :=
  {| width := width m; height := height m; list_ := list_ m; timePicker := timePicker m;
     prs := prs m; onlyMine := x; me := me m; status := status m;
     lastErr := lastErr m; mode_ := mode_ m; input := input m;
     schedFor := schedFor m; scheduled := scheduled m; now := now m;
     quitWarned := quitWarned m |}.

Definition set_me (x : string) (m : model) : model :=
  {| width := width m; height := height m; list_ := list_ m; timePicker := timePicker m;
     prs := prs m; onlyMine := onlyMine m; me := x; status := status m;
     lastErr := lastErr m; mode_ := mode_ m; input := input m;
     schedFor := schedFor m; scheduled := scheduled m; now := now m;
     quitWarned := quitWarned m |}.

Definition set_status (x : string) (m : model) : model :=
  {| width := width m; height := height m; list_ := list_ m; timePicker := timePicker m;
     prs := prs m; onlyMine := onlyMine m; me := me m; status := x;
     lastErr := lastErr m; mode_ := mode_ m; input := input m;
     schedFor := schedFor m; scheduled := scheduled m; now := now m;
     quitWarned := quitWarned m |}.

Definition set_lastErr (x : error) (m : model) : model :=
  {| width := width m; height := height m; list_ := list_ m; timePicker := timePicker m;
     prs := prs m; onlyMine := onlyMine m; me := me m; status := status m;
     lastErr := x; mode_ := mode_ m; input := input m;
     schedFor := schedFor m; scheduled := scheduled m; now := now m;
     quitWarned := quitWarned m |}.

Definition set_mode (x : mode) (m : model) : model :=
  {| width := width m; height := height m; list_ := list_ m; timePicker := timePicker m;
     prs := prs m; onlyMine := onlyMine m; me := me m; status := status m;
     lastErr := lastErr m; mode_ := x; input := input m;
     schedFor := schedFor m; scheduled := scheduled m; now := now m;
     quitWarned := quitWarned m |}.

Definition set_input (x : inputModel) (m : model) : model :=
  {| width := width m; height := height m; list_ := list_ m; timePicker := timePicker m;
     prs := prs m; onlyMine := onlyMine m; me := me m; status := status m;
     lastErr := lastErr m; mode_ := mode_ m; input := x;
     schedFor := schedFor m; scheduled := scheduled m; now := now m;
     quitWarned := quitWarned m |}.

Definition set_schedFor (x : option pr) (m : model) : model :=
  {| width := width m; height := height m; list_ := list_ m; timePicker := timePicker m;
     prs := prs m; onlyMine := onlyMine m; me := me m; status := status m;
     lastErr := lastErr m; mode_ := mode_ m; input := input m;
     schedFor := x; scheduled := scheduled m; now := now m;
     quitWarned := quitWarned m |}.

Definition set_scheduled (x : list scheduledMerge) (m : model) : model :=
  {| width := width m; height := height m; list_ := list_ m; timePicker := timePicker m;
     prs := prs m; onlyMine := onlyMine m; me := me m; status := status m;
     lastErr := lastErr m; mode_ := mode_ m; input := input m;
     schedFor := schedFor m; scheduled := x; now := now m;
     quitWarned := quitWarned m |}.

Definition set_now (x : Time) (m : model) : model :=
  {| width := width m; height := height m; list_ := list_ m; timePicker := timePicker m;
     prs := prs m; onlyMine := onlyMine m; me := me m; status := status m;
     lastErr := lastErr m; mode_ := mode_ m; input := input m;
     schedFor := schedFor m; scheduled := scheduled m; now := x;
     quitWarned := quitWarned m |}.

Definition set_quitWarned (x : bool) (m : model) : model :=
  {| width := width m; height := height m; list_ := list_ m; timePicker := timePicker m;
     prs := prs m; onlyMine := onlyMine m; me := me m; status := status m;
     lastErr := lastErr m; mode_ := mode_ m; input := input m;
     schedFor := schedFor m; scheduled := scheduled m; now := now m;
     quitWarned := x |}.

(** ** Init *)

Definition getTimePresets : list Item :=
  timePresetItem <$>
  [ {| Label := "Now"; Description := "Merge immediately"; IsCustom := false; Duration := 0 |};
    {| Label := "In 1 minute"; Description := "Merge in 1 minute"; IsCustom := false; Duration := 1 * time.Minute |};
    {| Label := "In 2 minutes"; Description := "Merge in 2 minutes"; IsCustom := false; Duration := 2 * time.Minute |};
    {| Label := "In 5 minutes"; Description := "Merge in 5 minutes"; IsCustom := false; Duration := 5 * time.Minute |};
    {| Label := "In 15 minutes"; Description := "Merge in 15 minutes"; IsCustom := false; Duration := 15 * time.Minute |};
    {| Label := "In 30 minutes"; Description := "Merge in 30 minutes"; IsCustom := false; Duration := 30 * time.Minute |};
    {| Label := "In 1 hour"; Description := "Merge in 1 hour"; IsCustom := false; Duration := 1 * time.Hour |};
    {| Label := "In 2 hours"; Description := "Merge in 2 hours"; IsCustom := false; Duration := 2 * time.Hour |};
    {| Label := "In 4 hours"; Description := "Merge in 4 hours"; IsCustom := false; Duration := 4 * time.Hour |};
    {| Label := "In 8 hours"; Description := "Merge in 8 hours"; IsCustom := false; Duration := 8 * time.Hour |};
    {| Label := "In 12 hours"; Description := "Merge in 12 hours"; IsCustom := false; Duration := 12 * time.Hour |};
    {| Label := "In 24 hours"; Description := "Merge tomorrow at this time"; IsCustom := false; Duration := 24 * time.Hour |};
    {| Label := "Custom time..."; Description := "Enter a custom date/time"; IsCustom := true; Duration := 0 |} ].

(** [initialModel()]; [t0] is what [time.Now()] returns. *)
Definition initialModel (t0 : Time) : model :=
  let ti := textinput_New "YYYY-MM-DD HH:MM or 'now'" 32 "Schedule at> " in
  let l := list_SetShowHelp (list_SetTitle (list_New []) "Open pull requests") true in
  let tp :=
    list_SetFilteringEnabled
      (list_SetShowHelp (list_SetTitle (list_New getTimePresets) "When to merge?") false)
      false in
  {| width := 0; height := 0; list_ := l; timePicker := tp; prs := [];
     onlyMine := false; me := ""; status := "Loading..."; lastErr := None;
     mode_ := modeListing; input := ti; schedFor := None; scheduled := [];
     now := t0; quitWarned := false |}.

Definition Init (m : model) : list Cmd := [fetchMeCmd; fetchPRsCmd; tickCmd].

(** ** Helpers *)

Definition applyFilter (m : model) : model :=
  let filtered :=
    if onlyMine m && negb (String.eqb (me m) "")
    then filter (λ p, Author p = me m) (prs m)
    else prs m in
  let m := set_list (list_SetItems (list_ m) (prItem <$> filtered)) m in
  set_status (Itoa (Z.of_nat (length filtered)) +:+ " PRs (onlyMine="
              +:+ fmtBool (onlyMine m) +:+ ")") m.

(** The loop of [findScheduledIndex] over a slice; [None] is the [-1] of
    the Go function. *)
Fixpoint findActive (prNumber : Z) (l : list scheduledMerge) : option nat :=
  match l with
  | [] => None
  | s :: l' =>
      if (Number (PR s) =? prNumber) && negb (Done s) then Some 0%nat
      else S <$> findActive prNumber l'
  end.

Definition findScheduledIndex (m : model) (prNumber : Z) : option nat :=
  findActive prNumber (scheduled m).

Definition hasActiveSchedules (m : model) : bool :=
  existsb (λ s, negb (Done s)) (scheduled m).

(** ** Update *)

(** The body of the [tickMsg] loop for one entry [s := &m.scheduled[i]]. *)
Definition tickEntry (now : Time) (s : scheduledMerge) : scheduledMerge * list Cmd :=
  if Done s then (s, [])
  else
    let '(s, c1) :=
      if negb (PreMergeCommentPosted s) && negb (time.IsZero (When s))
         && time.After now (When s)
      then
        (set_LastMessage ("Posting pre-merge comment for PR #" +:+ Itoa (Number (PR s)))
           (set_PreMergeCommentPosted true s),
         [commentPRCmd (Number (PR s))
            ("Setting PR to auto-merge. Scheduled merge time: " +:+ Format (When s) layout)
            true])
      else (s, []) in
    let '(s, c2) :=
      if MergeTriggered s && negb (CheckScheduled s) && negb (time.IsZero (CheckAt s))
         && time.After now (CheckAt s)
      then
        (set_LastMessage ("Checking merge status for PR #" +:+ Itoa (Number (PR s)))
           (set_CheckScheduled true s),
         [checkMergedCmd (Number (PR s))])
      else (s, []) in
    (s, c1 ++ c2).

(** [for i := range m.scheduled], started at index [i]. *)
Fixpoint tickLoop (now : Time) (i : nat) (l : list scheduledMerge)
  : list scheduledMerge * list issued :=
  match l with
  | [] => ([], [])
  | s :: l' =>
      let '(s', c) := tickEntry now s in
      let '(l'', cs) := tickLoop now (S i) l' in
      (s' :: l'', tied i c ++ cs)
  end.

(** [m.scheduled[idx] = f(m.scheduled[idx])] *)
Definition updEntry (idx : nat) (f : scheduledMerge → scheduledMerge) (m : model) : model :=
  set_scheduled (alter f idx (scheduled m)) m.

Definition prStatus (prNumber : Z) (x : string) : string :=
  "PR #" +:+ Itoa prNumber +:+ ": " +:+ x.

Definition newline : string := String (Ascii.ascii_of_nat 10) EmptyString.

Definition failureComment (sha : string) : string :=
  "Auto-merge did not complete successfully. Disabling auto-merge." +:+ newline +:+ newline
  +:+ "Current commit: " +:+ sha.

(** The entry's last message once the failure comment has been answered. *)
Definition failureCommentOutcome (err : error) : string :=
  match err with
  | Some e => "PR not merged (failure comment failed: " +:+ e +:+ ")"
  | None => "PR not merged (auto-merge disabled, notification sent)"
  end.

(** [mentions x y]: the text [x] occurs in [y]. *)
Fixpoint mentions (x y : string) : bool :=
  String.prefix x y
  || match y with
     | String _ y' => mentions x y'
     | EmptyString => false
     end.

Definition newEntry (p : pr) (when : Time) : scheduledMerge :=
  {| PR := p; When := when; PreMergeCommentPosted := false; MergeTriggered := false;
     CheckScheduled := false; CheckAt := time.zero; FailureHandled := false;
     Done := false; LastMessage := "" |}.

Definition scheduledStatus (s : scheduledMerge) (when : Time) : string :=
  "Scheduled auto-merge for PR #" +:+ Itoa (Number (PR s)) +:+ " at " +:+ Format when layout.

Definition updateListingKey (m : model) (msg : Key) : option (model * list issued) :=
  let k := keyString msg in
  if String.eqb k "q" || String.eqb k "ctrl+c" then
    if hasActiveSchedules m && negb (quitWarned m) then
      let m := set_quitWarned true m in
      Some (set_status "Warning: Active scheduled merges! Press 'q' again to force quit." m, [])
    else Some (m, untied [Quit])
  else if String.eqb k "m" then
    let m := set_quitWarned false m in
    let m := set_onlyMine (negb (onlyMine m)) m in
    Some (applyFilter m, [])
  else if String.eqb k "r" then
    let m := set_quitWarned false m in
    Some (set_status "Refreshing PR list..." m, untied [fetchPRsCmd])
  else if String.eqb k "enter" then
    let m := set_quitWarned false m in
    match list_SelectedItem (list_ m) with
    | Some (prItem p) =>
        match findScheduledIndex m (Number p) with
        | Some _ =>
            Some (set_status ("PR #" +:+ Itoa (Number p) +:+ " already has a scheduled merge") m,
                  [])
        | None =>
            let m := set_schedFor (Some p) m in
            let m := set_mode modeTimePicker m in
            Some (set_status ("Select merge time for PR #" +:+ Itoa (Number p)) m, [])
        end
    | _ => Some (m, [])
    end
  else
    let m := set_quitWarned false m in
    let '(l, c) := list_Update (list_ m) (KeyMsg msg) in
    Some (set_list l m, untied (widgetCmd <$> c)).

Definition updateTimePickerKey (m : model) (msg : Key) : option (model * list issued) :=
  let k := keyString msg in
  if String.eqb k "enter" then
    match list_SelectedItem (timePicker m) with
    | Some (timePresetItem preset) =>
        if IsCustom preset then
          let m := set_input (input_Focus (input_CursorEnd (input_SetValue (input m) ""))) m in
          let m := set_mode modeScheduling m in
          match schedFor m with
          | None => None
          | Some p => Some (set_status ("Enter custom time for PR #" +:+ Itoa (Number p)) m, [])
          end
        else
          let when := time.Add (now m) (Duration preset) in
          match schedFor m with
          | None =>
              let m := set_status "No PR selected to schedule." m in
              Some (set_mode modeListing m, [])
          | Some p =>
              let s := newEntry p when in
              let m := set_scheduled (scheduled m ++ [s]) m in
              let m := set_status (scheduledStatus s when) m in
              let m := set_mode modeListing m in
              Some (set_schedFor None m, [])
          end
    | _ => Some (m, [])
    end
  else if String.eqb k "esc" || String.eqb k "q" then
    let m := set_mode modeListing m in
    let m := set_status "Scheduling cancelled" m in
    Some (set_schedFor None m, [])
  else
    let '(l, c) := list_Update (timePicker m) (KeyMsg msg) in
    Some (set_timePicker l m, untied (widgetCmd <$> c)).

Definition updateSchedulingKey (m : model) (msg : Key) : option (model * list issued) :=
  match keyType msg with
  | KeyEnter =>
      let raw := TrimSpace (input_Value (input m)) in
      let parsed : option Time :=
        if String.eqb raw "" || String.eqb (ToLower raw) "now" then Some (now m)
        else ParseInLocation layout raw in
      match parsed with
      | None =>
          Some (set_status "Invalid time format. Use YYYY-MM-DD HH:MM or 'now'." m, [])
      | Some when =>
          match schedFor m with
          | None =>
              let m := set_status "No PR selected to schedule." m in
              let m := set_mode modeListing m in
              Some (set_input (input_Blur (input m)) m, [])
          | Some p =>
              let s := newEntry p when in
              let m := set_scheduled (scheduled m ++ [s]) m in
              let m := set_status (scheduledStatus s when) m in
              let m := set_mode modeListing m in
              let m := set_input (input_Blur (input m)) m in
              Some (set_schedFor None m, [])
          end
      end
  | KeyEsc =>
      let m := set_mode modeTimePicker m in
      let m := set_input (input_Blur (input m)) m in
      Some (set_status "Back to time selection" m, [])
  | KeyOther =>
      let '(i, c) := input_Update (input m) (KeyMsg msg) in
      Some (set_input i m, untied (widgetCmd <$> c))
  end.

(** [m.scheduled[idx].PR.Title] *)
Definition titleAt (m : model) (idx : nat) : string :=
  from_option (λ s, Title (PR s)) "" (scheduled m !! idx).

Definition Update (m : model) (msg : Msg) : option (model * list issued) :=
  match msg with
  | WindowSizeMsg w h =>
      let m := set_size w h m in
      let m := set_list (list_SetSize (list_ m) (width m) (wrap64 (height m - 5))) m in
      let m := set_timePicker (list_SetSize (timePicker m) (width m) (wrap64 (height m - 5))) m in
      Some (m, [])

  | meMsg login =>
      let m := set_me login m in
      let m := set_status ("Loaded GitHub user: " +:+ me m) m in
      Some (applyFilter m, [])

  | prListMsg l =>
      let m := set_prs l m in
      Some (applyFilter m, [])

  | errMsg e =>
      let m := set_lastErr (Some e) m in
      Some (set_status ("Error: " +:+ e) m, [])

  | tickMsg t =>
      let m := set_now t m in
      let '(l, cmds) := tickLoop (now m) 0 (scheduled m) in
      Some (set_scheduled l m, cmds ++ untied [tickCmd])

  | mergeResultMsg prNumber err =>
      match findScheduledIndex m prNumber with
      | Some idx =>
          match err with
          | Some e =>
              let x := "Auto-merge failed: " +:+ e in
              let m := updEntry idx (λ s, set_LastMessage x (set_Done true s)) m in
              Some (set_status x m, [])
          | None =>
              let checkAt := time.Add (now m) (1 * time.Minute) in
              let m :=
                updEntry idx
                  (λ s, set_LastMessage "Auto-merge set, will check in 1 minute"
                          (set_CheckAt checkAt s)) m in
              Some (set_status ("PR #" +:+ Itoa prNumber +:+ ": auto-merge set; check at "
                                +:+ Format checkAt time.RFC3339) m, [])
          end
      | None => Some (m, [])
      end

  | checkMergedMsg prNumber merged err =>
      match findScheduledIndex m prNumber with
      | Some idx =>
          match err with
          | Some e =>
              let x := "Check failed: " +:+ e in
              let m := updEntry idx (λ s, set_LastMessage x (set_Done true s)) m in
              Some (set_status (prStatus prNumber x) m, [])
          | None =>
              if merged then
                let x := "PR is merged" in
                let m := updEntry idx (λ s, set_LastMessage x (set_Done true s)) m in
                Some (set_status (prStatus prNumber x) m, [])
              else
                let x := "PR not merged, fetching commit SHA..." in
                let m := updEntry idx (set_LastMessage x) m in
                Some (set_status (prStatus prNumber x) m, tied idx [getCommitSHACmd prNumber])
          end
      | None => Some (m, [])
      end

  | commitSHAMsg prNumber sha err =>
      match findScheduledIndex m prNumber with
      | Some idx =>
          let sha := match err with Some _ => "unknown" | None => sha end in
          let x := "Disabling auto-merge and posting failure comment..." in
          let m := updEntry idx (λ s, set_LastMessage x (set_FailureHandled true s)) m in
          let m := set_status (prStatus prNumber x) m in
          let notifyTitle := "PR not merged" in
          let notifyBody :=
            "PR #" +:+ Itoa prNumber +:+ " (" +:+ titleAt m idx
            +:+ ") is still not merged after auto-merge." in
          Some (m, tied idx [notifySend notifyTitle notifyBody;
                             disableAutoMergeCmd prNumber;
                             commentPRCmd prNumber (failureComment sha) false])
      | None => Some (m, [])
      end

  | commentResultMsg prNumber isPreMerge err =>
      match findScheduledIndex m prNumber with
      | Some idx =>
          if isPreMerge then
            let x :=
              match err with
              | Some e => "Comment failed: " +:+ e +:+ " (continuing with merge)"
              | None => "Pre-merge comment posted, triggering auto-merge..."
              end in
            let m := updEntry idx (λ s, set_MergeTriggered true (set_LastMessage x s)) m in
            Some (set_status (prStatus prNumber x) m, tied idx [mergePRCmd prNumber])
          else
            let x :=
              match err with
              | Some e => "PR not merged (failure comment failed: " +:+ e +:+ ")"
              | None => "PR not merged (auto-merge disabled, notification sent)"
              end in
            let m := updEntry idx (λ s, set_LastMessage x (set_Done true s)) m in
            Some (set_status (prStatus prNumber x) m, [])
      | None => Some (m, [])
      end

  | disableAutoMergeResultMsg prNumber err =>
      match findScheduledIndex m prNumber with
      | Some idx =>
          match err with
          | Some e =>
              Some (updEntry idx (set_LastMessage ("Failed to disable auto-merge: " +:+ e)) m, [])
          | None => Some (m, [])
          end
      | None => Some (m, [])
      end

  | KeyMsg k =>
      match mode_ m with
      | modeScheduling => updateSchedulingKey m k
      | modeTimePicker => updateTimePickerKey m k
      | modeListing => updateListingKey m k
      end

  | otherMsg _ =>
      match mode_ m with
      | modeScheduling =>
          let '(i, c) := input_Update (input m) msg in
          Some (set_input i m, untied (widgetCmd <$> c))
      | modeTimePicker =>
          let '(l, c) := list_Update (timePicker m) msg in
          Some (set_timePicker l m, untied (widgetCmd <$> c))
      | modeListing =>
          let '(l, c) := list_Update (list_ m) msg in
          Some (set_list l m, untied (widgetCmd <$> c))
      end
  end.

(** Handling a sequence of messages, one after the other; the commands of
    all the steps are collected in order. *)
Fixpoint run (m : model) (msgs : list Msg) : option (model * list issued) :=
  match msgs with
  | [] => Some (m, [])
  | msg :: msgs' =>
      match Update m msg with
      | None => None
      | Some (m', c) =>
          match run m' msgs' with
          | None => None
          | Some (m'', cs) => Some (m'', c ++ cs)
          end
      end
  end.

(** The states the program can be in: [initialModel()] and whatever
    [Update] makes of a reachable state. *)
Inductive reachable : model → Prop :=
| reachable_init (t0 : Time) : reachable (initialModel t0)
| reachable_step (m : model) (msg : Msg) (m' : model) (c : list issued) :
    reachable m → Update m msg = Some (m', c) → reachable m'.

(** ** How an entry may change *)

(** [evolves s s']: [s'] is a later state of the entry [s].  Its PR and its
    scheduled time are those of [s], no flag has been cleared, and a [Done]
    entry has not changed at all. *)
Record evolves (s s' : scheduledMerge) : Prop := {
  ev_PR : PR s' = PR s;
  ev_When : When s' = When s;
  ev_PreMergeCommentPosted : PreMergeCommentPosted s = true → PreMergeCommentPosted s' = true;
  ev_MergeTriggered : MergeTriggered s = true → MergeTriggered s' = true;
  ev_CheckScheduled : CheckScheduled s = true → CheckScheduled s' = true;
  ev_FailureHandled : FailureHandled s = true → FailureHandled s' = true;
  ev_Done : Done s = true → Done s' = true;
  ev_final : Done s = true → s' = s
}.

(** The stage of an entry as its five flags encode it, from 0 (scheduled,
    nothing issued yet) to 5 (done). *)
Definition stageRank (s : scheduledMerge) : nat :=
  if Done s then 5
  else if FailureHandled s then 4
  else if CheckScheduled s then 3
  else if MergeTriggered s then 2
  else if PreMergeCommentPosted s then 1
  else 0.

(** At most one entry per PR number is not [Done]. *)
Definition uniqueActive (l : list scheduledMerge) : Prop :=
  ∀ i j si sj,
    l !! i = Some si → l !! j = Some sj →
    Done si = false → Done sj = false →
    Number (PR si) = Number (PR sj) → i = j.

(** While a time is being chosen, the PR it is chosen for is recorded and
    has no active entry. *)
Definition pendingFree (m : model) : Prop :=
  mode_ m ≠ modeListing →
  ∃ p, schedFor m = Some p ∧ findScheduledIndex m (Number p) = None.

Definition Inv (m : model) : Prop := uniqueActive (scheduled m) ∧ pendingFree m.

(** The PR number a collaborator result is routed by. *)
Definition prNumberOf (msg : Msg) : option Z :=
  match msg with
  | mergeResultMsg k _ | checkMergedMsg k _ _ | commentResultMsg k _ _
  | disableAutoMergeResultMsg k _ | commitSHAMsg k _ _ => Some k
  | _ => None
  end.

(** A message that is not a collaborator result for PR [n]. *)
Definition bystander (n : Z) (msg : Msg) : Prop := prNumberOf msg ≠ Some n.

(** A bystander that, if it is a tick, is a tick whose time is not after
    [T] (the test [t.After(T)] of the tick loop fails). *)
Definition notAfter (T : Time) (n : Z) (msg : Msg) : Prop :=
  match msg with
  | tickMsg t => time.After t T = false
  | _ => bystander n msg
  end.

(** ** The shape of a step *)

(** The commands that act on a PR. *)
Definition prCmd (x : Cmd) : Prop :=
  match x with
  | mergePRCmd _ | commentPRCmd _ _ _ | disableAutoMergeCmd _
  | getCommitSHACmd _ | checkMergedCmd _ | notifySend _ _ => True
  | _ => False
  end.

(** The commands whose result moves the entry of PR [n] to its next
    stage (a disable result moves nothing). *)
Definition drives (n : Z) (x : Cmd) : bool :=
  match x with
  | mergePRCmd k | commentPRCmd k _ _ | getCommitSHACmd k | checkMergedCmd k => k =? n
  | _ => false
  end.

(** The two commands that only the tick loop issues. *)
Definition tickOnly (x : Cmd) : Prop :=
  match x with
  | commentPRCmd _ _ true | checkMergedCmd _ => True
  | _ => False
  end.

(** What [Update] can do to [m.scheduled]: run the tick loop over it,
    rewrite the active entry of the PR a result is routed to, leave it
    alone, or append a fresh entry for the pending PR. *)
Inductive step_shape (m : model) (msg : Msg) (m' : model) (c : list issued) : Prop :=
| shape_tick t :
    msg = tickMsg t →
    scheduled m' = (λ s, (tickEntry t s).1) <$> scheduled m →
    c = (tickLoop t 0 (scheduled m)).2 ++ untied [tickCmd] →
    mode_ m' = mode_ m → schedFor m' = schedFor m →
    step_shape m msg m' c
| shape_result n idx f cs :
    prNumberOf msg = Some n →
    findScheduledIndex m n = Some idx →
    scheduled m' = alter f idx (scheduled m) →
    (∀ s, Done s = false → evolves s (f s)) →
    c = tied idx cs →
    (∀ x, x ∈ cs → ¬ tickOnly x) →
    (∀ x k, x ∈ cs → drives k x = true → k = n) →
    mode_ m' = mode_ m → schedFor m' = schedFor m →
    step_shape m msg m' c
| shape_same :
    (∀ t, msg ≠ tickMsg t) →
    scheduled m' = scheduled m →
    (pendingFree m → pendingFree m') →
    (∀ o x, (o, x) ∈ c → o = None ∧ ¬ prCmd x) →
    step_shape m msg m' c
| shape_append p when :
    prNumberOf msg = None →
    (∀ t, msg ≠ tickMsg t) →
    mode_ m ≠ modeListing →
    schedFor m = Some p →
    scheduled m' = scheduled m ++ [newEntry p when] →
    mode_ m' = modeListing →
    c = [] →
    step_shape m msg m' c.

(** [later l l']: [l'] holds later states of the entries of [l], at the
    same indices, possibly followed by new entries. *)
Definition later (l l' : list scheduledMerge) : Prop :=
  ∃ l1 l2, l' = l1 ++ l2 ∧ Forall2 evolves l l1.


(** ** The program with its commands in flight

    The Bubble Tea runtime runs every command that [Init] and [Update]
    return, concurrently, and feeds the message each one comes back with
    to [Update], one message at a time; keys, window sizes and the widgets'
    own messages arrive from outside. *)

(** The messages a command can come back with (the bodies of the
    [...Cmd] functions). *)
Inductive produces : Cmd → Msg → Prop :=
| produces_me login : produces fetchMeCmd (meMsg login)
| produces_me_err e : produces fetchMeCmd (errMsg e)
| produces_prs l : produces fetchPRsCmd (prListMsg l)
| produces_prs_err e : produces fetchPRsCmd (errMsg e)
| produces_tick t : produces tickCmd (tickMsg t)
| produces_merge n err : produces (mergePRCmd n) (mergeResultMsg n err)
| produces_comment n body isPreMerge err :
    produces (commentPRCmd n body isPreMerge) (commentResultMsg n isPreMerge err)
| produces_disable n err :
    produces (disableAutoMergeCmd n) (disableAutoMergeResultMsg n err)
| produces_sha n sha : produces (getCommitSHACmd n) (commitSHAMsg n sha None)
| produces_sha_err n e : produces (getCommitSHACmd n) (commitSHAMsg n "" (Some e))
| produces_check n merged : produces (checkMergedCmd n) (checkMergedMsg n merged None)
| produces_check_err n e : produces (checkMergedCmd n) (checkMergedMsg n false (Some e))
| produces_widget x y : produces (widgetCmd x) (otherMsg y).

(** The messages that come from outside. *)
Definition external (msg : Msg) : Prop :=
  match msg with
  | KeyMsg _ | WindowSizeMsg _ _ | otherMsg _ => True
  | _ => False
  end.

(** A state of the running program: the model and the commands in flight. *)
Definition sys : Type := model * list Cmd.

Inductive sys_step : sys → sys → Prop :=
| sys_deliver m l1 cmd l2 msg m' c :
    produces cmd msg → Update m msg = Some (m', c) →
    sys_step (m, l1 ++ cmd :: l2) (m', l1 ++ l2 ++ cmdsOf c)
| sys_external m l msg m' c :
    external msg → Update m msg = Some (m', c) →
    sys_step (m, l) (m', l ++ cmdsOf c).

Inductive sys_reachable : sys → Prop :=
| sys_reachable_init t0 : sys_reachable (initialModel t0, Init (initialModel t0))
| sys_reachable_step σ σ' : sys_reachable σ → sys_step σ σ' → sys_reachable σ'.

Definition pending (n : Z) (l : list Cmd) : list Cmd := List.filter (drives n) l.

(** The stage of an entry as its flags encode it.  [MergeIssuing] covers
    the merge in flight and the wait for [CheckAt]; [CheckIssuing] covers
    the check and the commit fetch in flight. *)
Inductive stage :=
| Scheduled | CommentIssuing | MergeIssuing | CheckIssuing | RemediationIssuing | Terminal.

Definition stageOf (s : scheduledMerge) : stage :=
  if Done s then Terminal
  else if FailureHandled s then RemediationIssuing
  else if CheckScheduled s then CheckIssuing
  else if MergeTriggered s then MergeIssuing
  else if PreMergeCommentPosted s then CommentIssuing
  else Scheduled.

(** The transition graph. *)
Inductive edge : stage → stage → Prop :=
| edge_comment : edge Scheduled CommentIssuing
| edge_merge : edge CommentIssuing MergeIssuing
| edge_merge_failed : edge MergeIssuing Terminal
| edge_check : edge MergeIssuing CheckIssuing
| edge_checked : edge CheckIssuing Terminal
| edge_remediate : edge CheckIssuing RemediationIssuing
| edge_done : edge RemediationIssuing Terminal.

(** What is in flight for an active entry, stage by stage. *)
Definition inStep (s : scheduledMerge) (p : list Cmd) : Prop :=
  let n := Number (PR s) in
  match PreMergeCommentPosted s, MergeTriggered s, CheckScheduled s, FailureHandled s with
  | false, false, false, false => p = [] ∧ CheckAt s = time.zero
  | true, false, false, false =>
      (∃ body, p = [commentPRCmd n body true]) ∧ CheckAt s = time.zero
  | true, true, false, false => (p = [mergePRCmd n] ∧ CheckAt s = time.zero) ∨ p = []
  | true, true, true, false => p = [checkMergedCmd n] ∨ p = [getCommitSHACmd n]
  | true, true, true, true => ∃ body, p = [commentPRCmd n body false]
  | _, _, _, _ => False
  end.

(** The invariant of the running program. *)
Definition inStepAll (σ : sys) : Prop :=
  Inv σ.1 ∧
  ∀ n,
    match findScheduledIndex σ.1 n with
    | Some i => ∃ s, scheduled σ.1 !! i = Some s ∧ inStep s (pending n σ.2)
    | None => pending n σ.2 = []
    end.

End Scheduler.

(** ** The command bodies

    Every [...Cmd] function of [main.go] returns a closure that starts one
    process, waits for it and turns its combined output [out] and its error
    [err] into one message.  [argv] is the process started; the functions
    of module [body] are what the closures make of [out] and [err]. *)

(** The rows that [fetchPRsCmd] decodes the output of [gh pr list] into. *)
Module raw.
Record author := { Login : string }.
Record t := {
  Number : Z;
  Title : string;
  State : string;
  URL : string;
  Author : author;
  MergeStateStatus : string
}.
End raw.

(** [fmt.Errorf("<what>: %w (%s)", err, string(out))], as its text. *)
Definition Errorf (what e out : string) : string :=
  what +:+ ": " +:+ e +:+ " (" +:+ out +:+ ")".

Definition argv (x : Cmd) : option (list string) :=
  match x with
  | fetchMeCmd => Some ["gh"; "api"; "user"; "--jq"; ".login"]
  | fetchPRsCmd =>
      Some ["gh"; "pr"; "list"; "--state"; "open";
            "--json"; "number,title,author,state,mergeStateStatus,url"]
  | mergePRCmd prNumber => Some ["gh"; "pr"; "merge"; "--auto"; "--merge"; Itoa prNumber]
  | commentPRCmd prNumber body _ =>
      Some ["gh"; "pr"; "comment"; Itoa prNumber; "--body"; body]
  | disableAutoMergeCmd prNumber =>
      Some ["gh"; "pr"; "merge"; "--disable-auto"; Itoa prNumber]
  | getCommitSHACmd prNumber =>
      Some ["gh"; "pr"; "view"; Itoa prNumber; "--json"; "headRefOid"; "--jq"; ".headRefOid"]
  | checkMergedCmd prNumber =>
      Some ["gh"; "pr"; "view"; Itoa prNumber; "--json"; "state"; "--jq"; ".state"]
  | notifySend title body => Some ["notify-send"; title; body; "-u"; "critical"]
  | tickCmd | Quit | widgetCmd _ => None
  end.

Module body.
Section Bodies.
Context {host : Host}.
(** [json.Unmarshal(out, &raw)]: the rows, or the text of the error. *)
Context (Unmarshal : string → list raw.t + string).

Definition fetchMeCmd (out : string) (err : error) : Msg :=
  match err with
  | Some e => errMsg (Errorf "failed to get current GitHub user" e out)
  | None => meMsg (TrimSpace out)
  end.

(** The body of the loop [for _, r := range raw]. *)
Definition row (r : raw.t) : pr :=
  let ms := raw.MergeStateStatus r in
  let ms := if String.eqb ms "" then "unknown" else ms in
  {| Number := raw.Number r; Title := raw.Title r; Author := raw.Login (raw.Author r);
     State := raw.State r; MergeState := ms; URL := raw.URL r |}.

Definition fetchPRsCmd (out : string) (err : error) : Msg :=
  match err with
  | Some e => errMsg (Errorf "gh pr list failed" e out)
  | None =>
      match Unmarshal out with
      | inr e => errMsg ("failed to parse gh pr list output: " +:+ e)
      | inl rows => prListMsg (row <$> rows)
      end
  end.

Definition tickCmd (t : Time) : Msg := tickMsg t.

Definition mergePRCmd (prNumber : Z) (out : string) (err : error) : Msg :=
  match err with
  | Some e => mergeResultMsg prNumber (Some (Errorf "gh pr merge failed" e out))
  | None => mergeResultMsg prNumber None
  end.

Definition commentPRCmd (prNumber : Z) (body : string) (isPreMerge : bool)
    (out : string) (err : error) : Msg :=
  match err with
  | Some e => commentResultMsg prNumber isPreMerge (Some (Errorf "gh pr comment failed" e out))
  | None => commentResultMsg prNumber isPreMerge None
  end.

Definition disableAutoMergeCmd (prNumber : Z) (out : string) (err : error) : Msg :=
  match err with
  | Some e =>
      disableAutoMergeResultMsg prNumber (Some (Errorf "gh pr merge --disable-auto failed" e out))
  | None => disableAutoMergeResultMsg prNumber None
  end.

Definition getCommitSHACmd (prNumber : Z) (out : string) (err : error) : Msg :=
  match err with
  | Some e => commitSHAMsg prNumber "" (Some (Errorf "gh pr view failed" e out))
  | None => commitSHAMsg prNumber (TrimSpace out) None
  end.

Definition checkMergedCmd (prNumber : Z) (out : string) (err : error) : Msg :=
  match err with
  | Some e => checkMergedMsg prNumber false (Some (Errorf "gh pr view failed" e out))
  | None =>
      let mergedStr := TrimSpace out in
      let merged := String.eqb mergedStr "MERGED" in
      checkMergedMsg prNumber merged None
  end.

End Bodies.
End body.

(** What a command comes back with: a process that has exited, or the
    timer of [tea.Tick] that has fired. *)
Inductive outcome :=
| exited (out : string) (err : error)
| fired (t : Time).

Section Collaborators.
Context {host : Host}.
Context (Unmarshal : string → list raw.t + string).

(** The message a command sends to [Update].  [tea.Quit], the
    [notify-send] process (run inside [Update], its result dropped) and
    the widgets' commands have no body in [main.go]. *)
Definition exec (x : Cmd) (o : outcome) : option Msg :=
  match x, o with
  | fetchMeCmd, exited out err => Some (body.fetchMeCmd out err)
  | fetchPRsCmd, exited out err => Some (body.fetchPRsCmd Unmarshal out err)
  | tickCmd, fired t => Some (body.tickCmd t)
  | mergePRCmd n, exited out err => Some (body.mergePRCmd n out err)
  | commentPRCmd n b isPreMerge, exited out err =>
      Some (body.commentPRCmd n b isPreMerge out err)
  | disableAutoMergeCmd n, exited out err => Some (body.disableAutoMergeCmd n out err)
  | getCommitSHACmd n, exited out err => Some (body.getCommitSHACmd n out err)
  | checkMergedCmd n, exited out err => Some (body.checkMergedCmd n out err)
  | _, _ => None
  end.

End Collaborators.

(** ** View *)

(** The three [lipgloss] styles of [View] and the widgets' own views. *)
Class Styles {host : Host} := {
  headerStyle_Render : string → string;
  statusStyle_Render : string → string;
  errStyle_Render : string → string;
  list_View : listModel → string;
  input_View : inputModel → string
}.

Section Rendering.
Context {host : Host} {styles : Styles}.

(** The [state] of an entry in the summary. *)
Definition state (s : scheduledMerge) : string :=
  if Done s then "done"
  else if MergeTriggered s && negb (CheckScheduled s) then "auto-merge set, waiting to check"
  else if CheckScheduled s && negb (Done s) then "checking..."
  else "pending".

(** The body of the loop [for _, s := range m.scheduled]. *)
Definition summaryLine (s : scheduledMerge) : string :=
  "  #" +:+ Itoa (Number (PR s)) +:+ " at " +:+ Format (When s) layout
  +:+ " [" +:+ state s +:+ "]"
  +:+ (if String.eqb (LastMessage s) "" then "" else " - " +:+ LastMessage s)
  +:+ newline.

Definition View (m : model) : string :=
  let header := headerStyle_Render "GitHub PR Auto-Merge Scheduler" +:+ newline in
  let filterInfo := "onlyMine=" +:+ fmtBool (onlyMine m) in
  let filterInfo :=
    if negb (String.eqb (me m) "") then filterInfo +:+ " | me=@" +:+ me m else filterInfo in
  let main :=
    match mode_ m with
    | modeScheduling =>
        "Enter schedule time (local):" +:+ newline +:+ input_View (input m)
        +:+ newline +:+ newline
    | modeTimePicker => list_View (timePicker m) +:+ newline
    | modeListing => list_View (list_ m) +:+ newline
    end in
  let summary :=
    if (0 <? length (scheduled m))%nat
    then "Scheduled merges:" +:+ newline
         +:+ String.concat "" (summaryLine <$> scheduled m) +:+ newline
    else "" in
  let err :=
    match lastErr m with
    | Some e => errStyle_Render ("Error: " +:+ e) +:+ newline
    | None => ""
    end in
  header +:+ filterInfo +:+ newline +:+ newline +:+ main +:+ summary +:+ err
  +:+ statusStyle_Render (status m) +:+ newline.

End Rendering.

(** ** What the model remembers of the messages *)

(** The payload of the last message of [msgs] that [pick] selects, [d]
    when it selects none. *)
Definition latest {A} (pick : Msg → option A) (d : A) (msgs : list Msg) : A :=
  foldl (λ acc msg, default acc (pick msg)) d msgs.

Definition tickOf (msg : Msg) : option Time :=
  match msg with tickMsg t => Some t | _ => None end.

Definition errOf (msg : Msg) : option error :=
  match msg with errMsg e => Some (Some e) | _ => None end.

Definition loginOf (msg : Msg) : option string :=
  match msg with meMsg login => Some login | _ => None end.

Definition prsOf (msg : Msg) : option (list pr) :=
  match msg with prListMsg l => Some l | _ => None end.

Definition sizeOf (msg : Msg) : option (Z * Z) :=
  match msg with WindowSizeMsg w h => Some (w, h) | _ => None end.

(** The tick timers among the commands in flight. *)
Definition ticks (l : list Cmd) : list Cmd :=
  List.filter (λ x, match x with tickCmd => true | _ => false end) l.

(** The commands of [c] issued for the entry at index [i], in order. *)
Definition issuedFor (i : nat) (c : list issued) : list Cmd :=
  snd <$> List.filter (λ x, bool_decide (x.1 = Some i)) c.

(** ** A sample host

    A host on which the model can be run: times are read in UTC, strings
    are ASCII, the list widget has a cursor that the keys "down"/"j" and
    "up"/"k" move, and the text input appends what is typed. *)

Module sample.

Definition isSpace (a : Ascii.ascii) : bool :=
  let n := Ascii.nat_of_ascii a in
  bool_decide (n = 32 ∨ 9 ≤ n ≤ 13)%nat.

Fixpoint trimLeft (s : string) : string :=
  match s with
  | String a s' => if isSpace a then trimLeft s' else s
  | EmptyString => EmptyString
  end.

Definition trimSpace (s : string) : string :=
  String.rev (trimLeft (String.rev (trimLeft s))).

Definition lower (a : Ascii.ascii) : Ascii.ascii :=
  let n := Ascii.nat_of_ascii a in
  if bool_decide (65 ≤ n ≤ 90)%nat then Ascii.ascii_of_nat (n + 32) else a.

Fixpoint toLower (s : string) : string :=
  match s with
  | String a s' => String (lower a) (toLower s')
  | EmptyString => EmptyString
  end.

Definition digit (a : Ascii.ascii) : option Z :=
  let n := Z.of_nat (Ascii.nat_of_ascii a) in
  if (48 <=? n) && (n <=? 57) then Some (n - 48) else None.

Definition number (l : list Ascii.ascii) : option Z :=
  foldl (λ acc a, n ← acc; d ← digit a; Some (10 * n + d)) (Some 0) l.

Definition isLeap (y : Z) : bool :=
  (y mod 4 =? 0) && (negb (y mod 100 =? 0) || (y mod 400 =? 0)).

Definition daysIn (y mo : Z) : Z :=
  if mo =? 2 then (if isLeap y then 29 else 28)
  else if (mo =? 4) || (mo =? 6) || (mo =? 9) || (mo =? 11) then 30
  else 31.

Fixpoint daysBeforeMonth (y : Z) (mo : nat) : Z :=
  match mo with
  | O => 0
  | S k => daysBeforeMonth y k + daysIn y (Z.of_nat (S k))
  end.

(** Days from January 1 of year 1 to the given date. *)
Definition daysSinceZero (y mo d : Z) : Z :=
  365 * (y - 1) + (y - 1) / 4 - (y - 1) / 100 + (y - 1) / 400
  + daysBeforeMonth y (Z.to_nat (mo - 1)) + (d - 1).

(** A value in the layout "2006-01-02 15:04", read in UTC. *)
Definition parseUTC (layout value : string) : option Time :=
  match String.list_ascii_of_string value with
  | [y1; y2; y3; y4; s1; m1; m2; s2; d1; d2; s3; h1; h2; s4; n1; n2] =>
      y ← number [y1; y2; y3; y4];
      mo ← number [m1; m2];
      d ← number [d1; d2];
      h ← number [h1; h2];
      mi ← number [n1; n2];
      if bool_decide (String.string_of_list_ascii [s1; s2; s3; s4] = "-- :")
         && (1 <=? mo) && (mo <=? 12) && (1 <=? d) && (d <=? daysIn y mo)
         && (h <? 24) && (mi <? 60)
      then Some {| time.wall := ((daysSinceZero y mo d * 24 + h) * 60 + mi) * time.Minute;
                   time.mono := None |}
      else None
  | _ => None
  end.

Definition formatTime (t : Time) (layout : string) : string := "@" +:+ Itoa (time.wall t).

Definition cursorList : Type := list Item * nat.

Definition listUpdate (l : cursorList) (msg : Msg) : cursorList * list string :=
  match msg with
  | KeyMsg k =>
      if String.eqb (keyString k) "down" || String.eqb (keyString k) "j"
      then ((l.1, Nat.min (S l.2) (Nat.pred (length l.1))), [])
      else if String.eqb (keyString k) "up" || String.eqb (keyString k) "k"
      then ((l.1, Nat.pred l.2), [])
      else (l, [])
  | _ => (l, [])
  end.

Definition inputUpdate (v : string) (msg : Msg) : string * list string :=
  match msg with
  | KeyMsg k => (v +:+ keyString k, [])
  | _ => (v, [])
  end.

Definition host : Host := {|
  Format := formatTime;
  ParseInLocation := parseUTC;
  TrimSpace := trimSpace;
  ToLower := toLower;
  listModel := cursorList;
  list_New items := (items, 0%nat);
  list_SetTitle l _ := l;
  list_SetShowHelp l _ := l;
  list_SetFilteringEnabled l _ := l;
  list_SetSize l _ _ := l;
  list_SetItems l items := (items, Nat.min l.2 (Nat.pred (length items)));
  list_SelectedItem l := l.1 !! l.2;
  list_Update := listUpdate;
  inputModel := string;
  textinput_New _ _ _ := "";
  input_Value v := v;
  input_SetValue _ v := v;
  input_CursorEnd v := v;
  input_Focus v := v;
  input_Blur v := v;
  input_Update := inputUpdate
|}.

(** A key that is neither Enter nor Esc, and the Enter key. *)
Definition typed (x : string) : Msg := KeyMsg {| keyType := KeyOther; keyString := x |}.
Definition enter : Msg := KeyMsg {| keyType := KeyEnter; keyString := "enter" |}.

Definition pr7 : pr :=
  {| Number := 7; Title := "Fix the parser"; Author := "octocat"; State := "OPEN";
     MergeState := "CLEAN"; URL := "https://github.com/o/r/pull/7" |}.

(** The clock at start-up: noon, June 1, 2025, UTC, five seconds on the
    monotonic clock. *)
Definition t0 : Time :=
  {| time.wall := 63884376000 * time.Second; time.mono := Some (5 * time.Second) |}.

(** The model, and the commands issued, after the program has started at
    [t0] and handled [msgs]. *)
Definition after (msgs : list Msg) : @model host :=
  match run (initialModel t0) msgs with
  | Some (m, _) => m
  | None => initialModel t0
  end.

Definition issuedBy (msgs : list Msg) : list issued :=
  match run (@initialModel host t0) msgs with
  | Some (_, c) => c
  | None => []
  end.

(** The commands issued while [more] is handled after [msgs]. *)
Definition issuedAfter (msgs more : list Msg) : list issued :=
  drop (length (issuedBy msgs)) (issuedBy (msgs ++ more)).

(** The state of the entry at index 0 after [msgs]. *)
Definition entry (msgs : list Msg) : scheduledMerge :=
  default (newEntry pr7 t0) (scheduled (after msgs) !! 0%nat).

(** PR 7 is listed and picked, and "Now" is chosen in the time picker. *)
Definition scheduleNow : list Msg := [prListMsg [pr7]; enter; enter].

(** PR 7 is listed and picked, and "Custom time..." is chosen. *)
Definition chooseCustom : list Msg :=
  [prListMsg [pr7]; enter] ++ replicate 12 (typed "down") ++ [enter].

(** The entry of PR 7 after its pre-merge comment has been answered. *)
Definition mergeIssued : list Msg :=
  scheduleNow ++ [tickMsg (time.Add t0 time.Second); commentResultMsg 7 true None].

(** The entry of PR 7 after its state check has been issued. *)
Definition checkIssued : list Msg :=
  mergeIssued ++ [mergeResultMsg 7 None; tickMsg (time.Add t0 (62 * time.Second))].

(** A rendering that marks what each style wraps. *)
Definition styles : @Styles host := {|
  headerStyle_Render x := "*" +:+ x +:+ "*";
  statusStyle_Render x := "(" +:+ x +:+ ")";
  errStyle_Render x := "!" +:+ x +:+ "!";
  list_View := λ _ : @listModel host, "<list>";
  input_View := λ v : @inputModel host, "> " +:+ (v : string)
|}.

End sample.

(** ** Properties *)

Section Properties.
Context {host : Host}.

(** ** Basic facts *)

(** No time is after itself. *)
Lemma After_irrefl t : time.After t t = false.
Proof. unfold time.After. destruct (time.mono t); apply Z.ltb_irrefl. Qed.

Lemma evolves_refl s : evolves s s.
Proof. by constructor. Qed.

Lemma evolves_trans s1 s2 s3 : evolves s1 s2 → evolves s2 s3 → evolves s1 s3.
Proof.
  intros [] []. constructor; try congruence; auto.
  intros Hd. assert (s2 = s1) by auto. subst. auto.
Qed.

Lemma evolves_active s s' :
  Done s = false → PR s' = PR s → When s' = When s →
  (PreMergeCommentPosted s = true → PreMergeCommentPosted s' = true) →
  (MergeTriggered s = true → MergeTriggered s' = true) →
  (CheckScheduled s = true → CheckScheduled s' = true) →
  (FailureHandled s = true → FailureHandled s' = true) →
  evolves s s'.
Proof. intros Hd. constructor; auto; congruence. Qed.

Lemma evolves_rank s s' : evolves s s' → (stageRank s ≤ stageRank s')%nat.
Proof.
  intros [_ _ H1 H2 H3 H4 H5 _]. unfold stageRank.
  destruct (Done s), (FailureHandled s), (CheckScheduled s), (MergeTriggered s),
    (PreMergeCommentPosted s);
    repeat match goal with H : true = true → _ |- _ => rewrite (H eq_refl) end;
    repeat case_match; lia.
Qed.

Lemma tickEntry_evolves t s : evolves s (tickEntry t s).1.
Proof.
  unfold tickEntry. destruct (Done s) eqn:Hd; [apply evolves_refl|].
  repeat case_match; simplify_eq; simpl; apply evolves_active; simpl; auto.
Qed.

Lemma tickEntry_Done t s : Done (tickEntry t s).1 = Done s.
Proof. unfold tickEntry. repeat case_match; simplify_eq; by simpl. Qed.

Lemma tickEntry_final t s : Done s = true → tickEntry t s = (s, []).
Proof. intros Hd. unfold tickEntry. by rewrite Hd. Qed.

Lemma tickLoop_fst t i l : (tickLoop t i l).1 = (λ s, (tickEntry t s).1) <$> l.
Proof.
  revert i. induction l as [|s l IH]; intros i; simpl; [done|].
  destruct (tickEntry t s) as [s' c] eqn:Hs.
  specialize (IH (S i)). destruct (tickLoop t (S i) l) as [l'' cs]. simpl in *.
  by rewrite IH.
Qed.

Lemma tickLoop_snd t i l o c :
  (o, c) ∈ (tickLoop t i l).2 ↔
  ∃ j s, o = Some (i + j)%nat ∧ l !! j = Some s ∧ c ∈ (tickEntry t s).2.
Proof.
  revert i. induction l as [|s l IH]; intros i; simpl.
  - split; [by intros ?%elem_of_nil|]. by intros (j & s & _ & ? & _).
  - destruct (tickEntry t s) as [s' cs'] eqn:Hs.
    specialize (IH (S i)). destruct (tickLoop t (S i) l) as [l'' cs]. simpl in *.
    rewrite elem_of_app, IH. unfold tied. rewrite list_elem_of_fmap. split.
    + intros [(c' & Heq & Hin)|(j & s0 & -> & Hl & Hin)].
      * simplify_eq. exists 0%nat, s. rewrite Hs. split_and!; [f_equal; lia|done..].
      * exists (S j), s0. split_and!; [f_equal; lia|done..].
    + intros ([|j] & s0 & -> & Hl & Hin); simpl in Hl.
      * simplify_eq. rewrite Hs in Hin. left. exists c. split; [f_equal; f_equal; lia|done].
      * right. exists j, s0. split_and!; [f_equal; lia|done..].
Qed.

Lemma findActive_Some n l i :
  findActive n l = Some i →
  ∃ s, l !! i = Some s ∧ Number (PR s) = n ∧ Done s = false.
Proof.
  revert i. induction l as [|s l IH]; intros i; simpl; [done|].
  destruct ((Number (PR s) =? n) && negb (Done s)) eqn:Hc.
  - intros [= <-]. apply andb_true_iff in Hc as [?%Z.eqb_eq ?%negb_true_iff]. eauto.
  - destruct (findActive n l) as [j|]; simpl; [|done].
    intros [= <-]. simpl. eauto.
Qed.

Lemma findActive_first n l i j s :
  findActive n l = Some i → l !! j = Some s →
  Number (PR s) = n → Done s = false → (i ≤ j)%nat.
Proof.
  revert i j. induction l as [|s0 l IH]; intros i j; simpl; [done|].
  destruct ((Number (PR s0) =? n) && negb (Done s0)) eqn:Hc.
  - intros [= <-]. lia.
  - destruct (findActive n l) as [k|] eqn:Hk; simpl; [|done].
    intros [= <-]. destruct j as [|j]; simpl.
    + intros [= ->] Hn Hd. rewrite Hd, <- Hn, Z.eqb_refl in Hc. done.
    + intros Hl Hn Hd. specialize (IH k j eq_refl Hl Hn Hd). lia.
Qed.

Lemma findActive_None n l :
  findActive n l = None ↔ ∀ i s, l !! i = Some s → Number (PR s) = n → Done s = true.
Proof.
  induction l as [|s0 l IH]; simpl; [done|].
  destruct ((Number (PR s0) =? n) && negb (Done s0)) eqn:Hc.
  - split; [done|]. intros H.
    apply andb_true_iff in Hc as [Hn%Z.eqb_eq Hd%negb_true_iff].
    specialize (H 0%nat s0 eq_refl Hn). congruence.
  - rewrite fmap_None, IH. split.
    + intros H [|i] s; simpl; [|by eauto].
      intros [= ->] Hn. rewrite <- Hn, Z.eqb_refl in Hc. simpl in Hc.
      by destruct (Done s).
    + intros H i s. apply (H (S i) s).
Qed.

Lemma findActive_unique n l i s :
  uniqueActive l → l !! i = Some s → Number (PR s) = n → Done s = false →
  findActive n l = Some i.
Proof.
  intros Hu Hl Hn Hd. destruct (findActive n l) as [j|] eqn:Hj.
  - apply findActive_Some in Hj as (s' & Hl' & Hn' & Hd').
    f_equal. eapply Hu; eauto. congruence.
  - rewrite findActive_None in Hj. specialize (Hj i s Hl Hn). congruence.
Qed.

(** ** The shape of a step: facts *)

Lemma untied_None l o x : (o, x) ∈ untied l → o = None.
Proof. unfold untied. rewrite list_elem_of_fmap. by intros (? & [= -> _] & _). Qed.

Lemma untied_inv l o x : (o, x) ∈ untied l → o = None ∧ x ∈ l.
Proof. unfold untied. rewrite list_elem_of_fmap. by intros (? & [= -> ->] & ?). Qed.

Lemma widgetCmd_not_prCmd (l : list string) x : x ∈ widgetCmd <$> l → ¬ prCmd x.
Proof. rewrite list_elem_of_fmap. intros (? & -> & _). simpl. tauto. Qed.

Lemma tied_Some i l o x : (o, x) ∈ tied i l ↔ o = Some i ∧ x ∈ l.
Proof.
  unfold tied. rewrite list_elem_of_fmap. split.
  - by intros (? & [= -> ->] & ?).
  - intros [-> ?]. eauto.
Qed.

Local Ltac same_shape :=
  apply shape_same;
  [ done
  | done
  | try done; unfold pendingFree; simpl; try done
  | let Hin := fresh "Hin" in
    intros ? ? Hin;
    first [ by apply elem_of_nil in Hin
          | apply untied_inv in Hin as [-> Hin]; split; [done|];
            first [ by eapply widgetCmd_not_prCmd
                  | apply list_elem_of_singleton in Hin as ->; simpl; tauto ] ] ].

Lemma updateListingKey_shape m k m' c :
  mode_ m = modeListing →
  updateListingKey m k = Some (m', c) → step_shape m (KeyMsg k) m' c.
Proof.
  intros Hm. unfold updateListingKey, applyFilter.
  repeat case_match; intros; simplify_eq; same_shape.
  intros _ _. by exists p.
Qed.

Lemma updateTimePickerKey_shape m k m' c :
  mode_ m = modeTimePicker →
  updateTimePickerKey m k = Some (m', c) → step_shape m (KeyMsg k) m' c.
Proof.
  intros Hm. unfold updateTimePickerKey.
  repeat case_match; intros; simplify_eq; simpl in *;
    try (eapply shape_append; simpl; [done|done|by rewrite Hm|done..]);
    same_shape.
  all: intros Hp _; apply Hp; by rewrite Hm.
Qed.

Lemma updateSchedulingKey_shape m k m' c :
  mode_ m = modeScheduling →
  updateSchedulingKey m k = Some (m', c) → step_shape m (KeyMsg k) m' c.
Proof.
  intros Hm. unfold updateSchedulingKey.
  repeat case_match; intros; simplify_eq; simpl in *;
    try (eapply shape_append; simpl; [done|done|by rewrite Hm|done..]);
    same_shape.
  all: intros Hp _; apply Hp; by rewrite Hm.
Qed.

Local Ltac result_shape n idx :=
  eapply (shape_result _ _ _ _ n idx);
  [ done | done | done
  | intros ? Hd; apply evolves_active; simpl; auto
  | first [ by instantiate (1 := []) | by instantiate (1 := [_])
          | by instantiate (1 := [_; _; _]) ]
  | intros ? Hin; repeat (apply elem_of_cons in Hin as [->|Hin]; [simpl; tauto|]);
    by apply elem_of_nil in Hin
  | intros ? ? Hin;
    repeat (apply elem_of_cons in Hin as [->|Hin];
            [simpl; first [done | by intros ?%Z.eqb_eq]|]);
    by apply elem_of_nil in Hin
  | done | done ].

Lemma Update_shape m msg m' c :
  Update m msg = Some (m', c) → step_shape m msg m' c.
Proof.
  destruct msg; simpl.
  1-4: by (unfold applyFilter; intros; simplify_eq; same_shape).
  - destruct (tickLoop t 0 (scheduled m)) as [l cs] eqn:Hl. intros; simplify_eq.
    eapply shape_tick; simpl; [done| |by rewrite Hl|done..].
    by rewrite <- (tickLoop_fst _ 0%nat), Hl.
  - destruct (findScheduledIndex m prNumber) as [idx|] eqn:Hi;
      [|by intros; simplify_eq; same_shape].
    destruct err; intros; simplify_eq; result_shape prNumber idx.
  - destruct (findScheduledIndex m prNumber) as [idx|] eqn:Hi;
      [|by intros; simplify_eq; same_shape].
    destruct err; [|destruct merged]; intros; simplify_eq; result_shape prNumber idx.
  - destruct (findScheduledIndex m prNumber) as [idx|] eqn:Hi;
      [|by intros; simplify_eq; same_shape].
    destruct isPreMerge; intros; simplify_eq; result_shape prNumber idx.
  - destruct (findScheduledIndex m prNumber) as [idx|] eqn:Hi;
      [|by intros; simplify_eq; same_shape].
    destruct err; intros; simplify_eq; [|by same_shape].
    result_shape prNumber idx.
  - destruct (findScheduledIndex m prNumber) as [idx|] eqn:Hi;
      [|by intros; simplify_eq; same_shape].
    intros; simplify_eq. result_shape prNumber idx.
  - destruct (mode_ m) eqn:Hm;
      eauto using updateListingKey_shape, updateTimePickerKey_shape, updateSchedulingKey_shape.
  - repeat case_match; intros; simplify_eq; same_shape.
Qed.

(** ** Consequences of the shape of a step *)

Lemma later_refl l : later l l.
Proof.
  exists l, []. split; [by rewrite app_nil_r|].
  apply Forall_Forall2_diag, Forall_forall. intros. apply evolves_refl.
Qed.

Lemma later_trans l1 l2 l3 : later l1 l2 → later l2 l3 → later l1 l3.
Proof.
  intros (a & b & -> & Hab) (c & d & -> & Hcd).
  apply Forall2_app_inv_l in Hcd as (c1 & c2 & Hc1 & Hc2 & ->).
  exists c1, (c2 ++ d). split; [by rewrite app_assoc|].
  revert Hc1. revert c1. induction Hab; intros c1 Hc1; inversion Hc1; subst;
    constructor; eauto using evolves_trans.
Qed.

Lemma later_lookup l l' i s :
  later l l' → l !! i = Some s → ∃ s', l' !! i = Some s' ∧ evolves s s'.
Proof.
  intros (l1 & l2 & -> & HF) Hl.
  destruct (Forall2_lookup_l _ _ _ _ _ HF Hl) as (s' & Hl' & He).
  exists s'. split; [|done]. by apply lookup_app_l_Some.
Qed.

Lemma Forall2_evolves_alter l idx f :
  (∀ s, l !! idx = Some s → evolves s (f s)) → Forall2 evolves l (alter f idx l).
Proof.
  revert idx. induction l as [|s l IH]; intros idx H; [constructor|].
  destruct idx as [|idx]; simpl; constructor.
  - by apply H.
  - apply Forall_Forall2_diag, Forall_forall. intros. apply evolves_refl.
  - apply evolves_refl.
  - apply IH. intros s' Hs'. by apply H.
Qed.

Lemma step_later m msg m' c :
  step_shape m msg m' c → later (scheduled m) (scheduled m').
Proof.
  intros [t -> Hs _ _ _|n idx f cs _ Hi Hs Hf _ _ _ _ _|_ Hs _ _|p when _ _ _ _ Hs _ _];
    rewrite Hs.
  - exists ((λ s, (tickEntry t s).1) <$> scheduled m), []. split; [by rewrite app_nil_r|].
    apply Forall2_fmap_r, Forall_Forall2_diag, Forall_forall.
    intros. apply tickEntry_evolves.
  - exists (alter f idx (scheduled m)), []. split; [by rewrite app_nil_r|].
    apply Forall2_evolves_alter. intros s Hl. apply Hf.
    apply findActive_Some in Hi as (s' & Hl' & _ & Hd). congruence.
  - apply later_refl.
  - exists (scheduled m), [newEntry p when]. split; [done|].
    apply Forall_Forall2_diag, Forall_forall. intros. apply evolves_refl.
Qed.

Lemma run_later m msgs m' c :
  run m msgs = Some (m', c) → later (scheduled m) (scheduled m').
Proof.
  revert m c. induction msgs as [|msg msgs IH]; intros m c; simpl.
  - intros [= <- _]. apply later_refl.
  - destruct (Update m msg) as [[m1 c1]|] eqn:H1; [|done].
    destruct (run m1 msgs) as [[m2 c2]|] eqn:H2; [|done].
    intros [= <- _]. eapply later_trans; [|by eapply IH].
    by eapply step_later, Update_shape.
Qed.

Lemma Forall2_evolves_unique l l' :
  Forall2 evolves l l' → uniqueActive l → uniqueActive l'.
Proof.
  intros HF Hu i j si sj Hi Hj Hdi Hdj Hn.
  destruct (Forall2_lookup_r _ _ _ _ _ HF Hi) as (ti & Hti & [Ei _ _ _ _ _ Di _]).
  destruct (Forall2_lookup_r _ _ _ _ _ HF Hj) as (tj & Htj & [Ej _ _ _ _ _ Dj _]).
  apply (Hu i j ti tj); try done.
  - destruct (Done ti); [|done]. rewrite Di in Hdi; done.
  - destruct (Done tj); [|done]. rewrite Dj in Hdj; done.
  - congruence.
Qed.

Lemma Forall2_evolves_findNone l l' n :
  Forall2 evolves l l' → findActive n l = None → findActive n l' = None.
Proof.
  rewrite !findActive_None. intros HF H i s' Hi Hn.
  destruct (Forall2_lookup_r _ _ _ _ _ HF Hi) as (s & Hs & [E _ _ _ _ _ D _]).
  apply D, (H i s Hs). congruence.
Qed.

Lemma uniqueActive_snoc l s :
  uniqueActive l → findActive (Number (PR s)) l = None → uniqueActive (l ++ [s]).
Proof.
  rewrite findActive_None. intros Hu Hf i j si sj Hi Hj Hdi Hdj Hn.
  apply lookup_app_Some in Hi as [Hi|[Hi Hi']];
    apply lookup_app_Some in Hj as [Hj|[Hj Hj']].
  - eauto.
  - apply list_lookup_singleton_Some in Hj' as [_ <-].
    specialize (Hf i si Hi Hn). congruence.
  - apply list_lookup_singleton_Some in Hi' as [_ <-].
    specialize (Hf j sj Hj (eq_sym Hn)). congruence.
  - apply list_lookup_singleton_Some in Hi' as [? _].
    apply list_lookup_singleton_Some in Hj' as [? _]. lia.
Qed.

Lemma step_Inv m msg m' c : step_shape m msg m' c → Inv m → Inv m'.
Proof.
  intros Hs [Hu Hp].
  assert (∀ l', Forall2 evolves (scheduled m) l' → scheduled m' = l' →
                mode_ m' = mode_ m → schedFor m' = schedFor m → Inv m') as Hsame.
  { intros l' HF Hl Hm Hf. split.
    - rewrite Hl. by eapply Forall2_evolves_unique.
    - unfold pendingFree, findScheduledIndex. rewrite Hm, Hf, Hl. intros Hne.
      destruct (Hp Hne) as (p & ? & ?). exists p. split; [done|].
      by eapply Forall2_evolves_findNone. }
  destruct Hs as [t -> Hs _ Hm Hf|n idx f cs _ Hi Hs Hev _ _ _ Hm Hf|_ Hs Hpf _
                  |p when _ _ Hm Hf Hs Hm' _].
  - eapply Hsame; [|done..].
    apply Forall2_fmap_r, Forall_Forall2_diag, Forall_forall.
    intros. apply tickEntry_evolves.
  - eapply Hsame; [|done..].
    apply Forall2_evolves_alter. intros s Hl. apply Hev.
    apply findActive_Some in Hi as (s' & Hl' & _ & Hd). congruence.
  - split; [by rewrite Hs|auto].
  - destruct (Hp Hm) as (p' & Hp' & Hnone). simplify_eq. split.
    + rewrite Hs. by apply uniqueActive_snoc.
    + intros Hne. by rewrite Hm' in Hne.
Qed.

Lemma Update_Inv m msg m' c : Update m msg = Some (m', c) → Inv m → Inv m'.
Proof. intros H. by eapply step_Inv, Update_shape. Qed.

Lemma initialModel_Inv t0 : Inv (initialModel t0).
Proof. split; [by intros i j si sj ?|by intros ?]. Qed.

Lemma reachable_Inv m : reachable m → Inv m.
Proof. induction 1; eauto using initialModel_Inv, Update_Inv. Qed.

(** [Update] does not panic in a state that satisfies the invariant. *)
Lemma Update_total m msg : Inv m → is_Some (Update m msg).
Proof.
  intros [_ Hp]. destruct msg; simpl; try (repeat case_match; by eauto).
  destruct (mode_ m) eqn:Hm.
  - unfold updateListingKey. repeat case_match; by eauto.
  - destruct Hp as (p & Hs & _); [by rewrite Hm|].
    unfold updateTimePickerKey. simpl. rewrite Hs. repeat case_match; by eauto.
  - unfold updateSchedulingKey. repeat case_match; by eauto.
Qed.

Lemma run_total m msgs : Inv m → is_Some (run m msgs).
Proof.
  revert m. induction msgs as [|msg msgs IH]; intros m HI; simpl; [by eauto|].
  destruct (Update_total m msg HI) as [[m1 c1] H1]. rewrite H1.
  destruct (IH m1) as [[m2 c2] H2]; [by eapply Update_Inv|].
  rewrite H2. by eauto.
Qed.

Lemma run_Inv m msgs m' c : run m msgs = Some (m', c) → Inv m → Inv m'.
Proof.
  revert m c. induction msgs as [|msg msgs IH]; intros m c; simpl.
  - by intros [= <- _].
  - destruct (Update m msg) as [[m1 c1]|] eqn:H1; [|done].
    destruct (run m1 msgs) as [[m2 c2]|] eqn:H2; [|done].
    intros [= <- _] HI. eapply IH; [done|]. by eapply Update_Inv.
Qed.

Lemma run_reachable m msgs m' c : run m msgs = Some (m', c) → reachable m → reachable m'.
Proof.
  revert m c. induction msgs as [|msg msgs IH]; intros m c; simpl.
  - by intros [= <- _].
  - destruct (Update m msg) as [[m1 c1]|] eqn:H1; [|done].
    destruct (run m1 msgs) as [[m2 c2]|] eqn:H2; [|done].
    intros [= <- _] HI. eapply IH; [done|]. by eapply reachable_step.
Qed.

Lemma run_app m msgs1 msgs2 :
  run m (msgs1 ++ msgs2) =
  match run m msgs1 with
  | None => None
  | Some (m1, c1) =>
      match run m1 msgs2 with
      | None => None
      | Some (m2, c2) => Some (m2, c1 ++ c2)
      end
  end.
Proof.
  revert m. induction msgs1 as [|msg msgs1 IH]; intros m; simpl.
  - by destruct (run m msgs2) as [[??]|].
  - destruct (Update m msg) as [[m1 c1]|]; [|done]. rewrite IH.
    destruct (run m1 msgs1) as [[m2 c2]|]; [|done].
    destruct (run m2 msgs2) as [[m3 c3]|]; [|done].
    by rewrite app_assoc.
Qed.

(** ** Entries that a step leaves alone *)

Lemma findActive_fmap n f l :
  (∀ s, Done (f s) = Done s ∧ PR (f s) = PR s) →
  findActive n (f <$> l) = findActive n l.
Proof.
  intros Hf. induction l as [|s l IH]; csimpl; [done|].
  destruct (Hf s) as [-> ->]. by rewrite IH.
Qed.

Lemma findActive_alter_other n f idx l s :
  l !! idx = Some s → Number (PR s) ≠ n → PR (f s) = PR s →
  findActive n (alter f idx l) = findActive n l.
Proof.
  revert idx. induction l as [|s0 l IH]; intros idx Hl Hn Hf; [done|].
  destruct idx as [|idx]; simpl in *.
  - simplify_eq. rewrite Hf.
    by destruct (Z.eqb_spec (Number (PR s)) n).
  - change (list_alter f idx l) with (alter f idx l). by rewrite (IH idx).
Qed.

Lemma findActive_app n l l' i :
  findActive n l = Some i → findActive n (l ++ l') = Some i.
Proof.
  revert i. induction l as [|s l IH]; intros i; simpl; [done|].
  case_match; [done|].
  destruct (findActive n l) as [j|]; simpl; [|done].
  intros [= <-]. by rewrite (IH j).
Qed.

Lemma tickEntry_PR t s : PR (tickEntry t s).1 = PR s.
Proof. apply tickEntry_evolves. Qed.

Lemma step_done_silent m msg m' c i s :
  Update m msg = Some (m', c) → scheduled m !! i = Some s → Done s = true →
  scheduled m' !! i = Some s ∧ ∀ x, (Some i, x) ∉ c.
Proof.
  intros HU Hl Hd. split.
  - apply Update_shape, step_later in HU.
    destruct (later_lookup _ _ _ _ HU Hl) as (s' & Hl' & He).
    by rewrite Hl', (ev_final _ _ He Hd).
  - intros x Hx. apply Update_shape in HU.
    destruct HU as [t -> _ Hc _ _|n idx f cs _ Hi _ _ Hc _ _ _ _|_ _ _ Hc|p when _ _ _ _ _ _ Hc].
    + rewrite Hc, elem_of_app in Hx. destruct Hx as [Hx|Hx%untied_None]; [|done].
      apply tickLoop_snd in Hx as (j & s0 & [= ->] & Hl0 & Hin).
      simpl in Hl0. simplify_eq. rewrite tickEntry_final in Hin by done.
      by apply elem_of_nil in Hin.
    + rewrite Hc in Hx. apply tied_Some in Hx as [[= ->] _].
      apply findActive_Some in Hi as (s' & Hl' & _ & Hd'). congruence.
    + by apply Hc in Hx as [? _].
    + rewrite Hc in Hx. by apply elem_of_nil in Hx.
Qed.

Lemma run_done_silent m msgs m' c i s :
  run m msgs = Some (m', c) → scheduled m !! i = Some s → Done s = true →
  scheduled m' !! i = Some s ∧ ∀ x, (Some i, x) ∉ c.
Proof.
  revert m c. induction msgs as [|msg msgs IH]; intros m c; simpl.
  - intros [= <- <-] Hl _. split; [done|]. intros x. apply not_elem_of_nil.
  - destruct (Update m msg) as [[m1 c1]|] eqn:H1; [|done].
    destruct (run m1 msgs) as [[m2 c2]|] eqn:H2; [|done].
    intros [= <- <-] Hl Hd.
    destruct (step_done_silent _ _ _ _ _ _ H1 Hl Hd) as [Hl1 Hc1].
    destruct (IH _ _ H2 Hl1 Hd) as [Hl2 Hc2].
    split; [done|]. intros x [?|?]%elem_of_app; [by eapply Hc1|by eapply Hc2].
Qed.

(** What a bystander does to the active entry of PR [n]: a tick runs the
    loop body on it, any other message leaves it as it is. *)
Lemma bystander_step m msg m' c n i s :
  Update m msg = Some (m', c) →
  findScheduledIndex m n = Some i → scheduled m !! i = Some s →
  bystander n msg →
  findScheduledIndex m' n = Some i ∧
  scheduled m' !! i = Some (match msg with tickMsg t => (tickEntry t s).1 | _ => s end) ∧
  ∀ x, (Some i, x) ∈ c → ∃ t, msg = tickMsg t ∧ x ∈ (tickEntry t s).2.
Proof.
  intros HU Hi Hl Hb. apply Update_shape in HU.
  destruct HU as [t -> Hs Hc _ _|n' idx f cs Hn' Hidx Hs Hev Hc _ _ _ _|Ht Hs _ Hc
                  |p when _ Ht _ _ Hs _ Hc].
  - split_and!.
    + unfold findScheduledIndex. rewrite Hs, findActive_fmap; [done|].
      intros s0. by rewrite tickEntry_Done, tickEntry_PR.
    + by rewrite Hs, list_lookup_fmap, Hl.
    + intros x Hx. rewrite Hc, elem_of_app in Hx.
      destruct Hx as [Hx|Hx%untied_None]; [|done].
      apply tickLoop_snd in Hx as (j & s0 & [= ->] & Hl0 & Hin).
      simpl in Hl0. simplify_eq. eauto.
  - assert (n' ≠ n) as Hne by (intros ->; by apply Hb).
    pose proof Hidx as Hidx'.
    apply findActive_Some in Hidx' as (s' & Hl' & Hn & Hd').
    assert (idx ≠ i) as Hii.
    { intros ->. apply findActive_Some in Hi as (s0 & Hl0 & Hn0 & _). congruence. }
    split_and!.
    + unfold findScheduledIndex. rewrite Hs.
      erewrite findActive_alter_other; [done..|congruence|]. by apply Hev.
    + rewrite Hs, list_lookup_alter_ne by done. rewrite Hl.
      by destruct msg; simplify_eq.
    + intros x Hx. rewrite Hc in Hx. apply tied_Some in Hx as [[= ->] _]. done.
  - split_and!.
    + unfold findScheduledIndex. by rewrite Hs.
    + rewrite Hs, Hl. destruct msg; try done. by destruct (Ht t).
    + intros x Hx. by apply Hc in Hx as [? _].
  - split_and!.
    + unfold findScheduledIndex. rewrite Hs. by apply findActive_app.
    + rewrite Hs, lookup_app_l by (by eapply lookup_lt_Some).
      rewrite Hl. destruct msg; try done. by destruct (Ht t).
    + intros x Hx. rewrite Hc in Hx. by apply elem_of_nil in Hx.
Qed.

(** A run of bystanders keeps the active entry of PR [n] where it is.
    Whatever property [P] of the entry and [G] of the commands issued for
    it the loop body maintains at the ticks of the run, the run maintains. *)
Lemma run_bystanders (P : scheduledMerge → Prop) (G : Cmd → Prop) (tickOK : Time → Prop)
    m msgs n i s :
  (∀ s t, P s → Done s = false → tickOK t →
          P (tickEntry t s).1 ∧ ∀ x, x ∈ (tickEntry t s).2 → G x) →
  (∀ msg, msg ∈ msgs → bystander n msg ∧ ∀ t, msg = tickMsg t → tickOK t) →
  Inv m → findScheduledIndex m n = Some i → scheduled m !! i = Some s → P s →
  ∃ m' c s',
    run m msgs = Some (m', c) ∧ Inv m' ∧
    findScheduledIndex m' n = Some i ∧ scheduled m' !! i = Some s' ∧
    P s' ∧ evolves s s' ∧ ∀ x, (Some i, x) ∈ c → G x.
Proof.
  intros Htick. revert m s. induction msgs as [|msg msgs IH]; intros m s Hall HI Hi Hl HP.
  - exists m, [], s. simpl.
    split_and!; [done..|apply evolves_refl|by intros x ?%elem_of_nil].
  - destruct (Update_total m msg HI) as [[m1 c1] H1].
    destruct (Hall msg) as [Hb Ht]; [by left|].
    destruct (bystander_step _ _ _ _ _ _ _ H1 Hi Hl Hb) as (Hi1 & Hl1 & Hc1).
    assert (Done s = false) as Hd.
    { apply findActive_Some in Hi as (s0 & ? & _ & ?). congruence. }
    set (s1 := match msg with tickMsg t => (tickEntry t s).1 | _ => s end) in *.
    assert (P s1 ∧ evolves s s1) as [HP1 He1].
    { subst s1. destruct msg; try (split; [done|apply evolves_refl]).
      split; [|apply tickEntry_evolves].
      by destruct (Htick s t HP Hd (Ht t eq_refl)). }
    destruct (IH m1 s1) as (m2 & c2 & s2 & H2 & HI2 & Hi2 & Hl2 & HP2 & He2 & Hc2);
      try done.
    { intros msg' Hin. apply Hall. by right. }
    { by eapply Update_Inv. }
    exists m2, (c1 ++ c2), s2. simpl. rewrite H1, H2.
    split_and!; [done..|by eapply evolves_trans|].
    intros x [Hx|Hx]%elem_of_app; [|by auto].
    destruct (Hc1 x Hx) as (t & -> & Hin).
    destruct (Htick s t HP Hd (Ht t eq_refl)) as [_ HG]. by apply HG.
Qed.

Lemma findActive_alter_keep n f idx l s :
  findActive n l = Some idx → l !! idx = Some s →
  PR (f s) = PR s → Done (f s) = false →
  findActive n (alter f idx l) = Some idx.
Proof.
  revert idx. induction l as [|s0 l IH]; intros idx; simpl; [done|].
  destruct ((Number (PR s0) =? n) && negb (Done s0)) eqn:Hc.
  - intros [= <-] [= ->] HP HD. simpl. rewrite HP, HD.
    apply andb_true_iff in Hc as [-> _]. done.
  - destruct (findActive n l) as [j|] eqn:Hj; simpl; [|done].
    intros [= <-] Hl HP HD. simpl. rewrite Hc.
    change (list_alter f j l) with (alter f j l). by rewrite (IH j).
Qed.

(** ** The result handlers on an active entry *)

Lemma run_cons m msg msgs m1 c1 :
  Update m msg = Some (m1, c1) →
  run m (msg :: msgs) =
  match run m1 msgs with
  | None => None
  | Some (m2, c2) => Some (m2, c1 ++ c2)
  end.
Proof. intros H. simpl. by rewrite H. Qed.

Lemma active_entry m n idx :
  findScheduledIndex m n = Some idx →
  ∃ s, scheduled m !! idx = Some s ∧ Number (PR s) = n ∧ Done s = false.
Proof. apply findActive_Some. Qed.

Lemma check_not_merged_step m n idx s :
  findScheduledIndex m n = Some idx → scheduled m !! idx = Some s →
  ∃ m1,
    Update m (checkMergedMsg n false None) = Some (m1, [(Some idx, getCommitSHACmd n)]) ∧
    findScheduledIndex m1 n = Some idx ∧
    scheduled m1 !! idx = Some (set_LastMessage "PR not merged, fetching commit SHA..." s).
Proof.
  intros Hi Hl. destruct (active_entry _ _ _ Hi) as (s0 & ? & _ & Hd). simplify_eq.
  eexists. simpl. rewrite Hi. split; [done|]. split.
  - unfold findScheduledIndex; simpl. by eapply findActive_alter_keep.
  - simpl. by rewrite list_lookup_alter_eq, Hl.
Qed.

Lemma commitSHA_step m n idx s sha err :
  findScheduledIndex m n = Some idx → scheduled m !! idx = Some s →
  ∃ m1,
    Update m (commitSHAMsg n sha err) =
      Some (m1,
            [(Some idx,
              notifySend "PR not merged"
                ("PR #" +:+ Itoa n +:+ " (" +:+ Title (PR s)
                 +:+ ") is still not merged after auto-merge."));
             (Some idx, disableAutoMergeCmd n);
             (Some idx,
              commentPRCmd n
                (failureComment match err with Some _ => "unknown" | None => sha end)
                false)]) ∧
    findScheduledIndex m1 n = Some idx ∧
    scheduled m1 !! idx =
      Some (set_LastMessage "Disabling auto-merge and posting failure comment..."
              (set_FailureHandled true s)).
Proof.
  intros Hi Hl. destruct (active_entry _ _ _ Hi) as (s0 & ? & _ & Hd). simplify_eq.
  eexists. simpl. rewrite Hi. split; [|split].
  - unfold titleAt. simpl. by rewrite list_lookup_alter_eq, Hl.
  - unfold findScheduledIndex; simpl. by eapply findActive_alter_keep.
  - simpl. by rewrite list_lookup_alter_eq, Hl.
Qed.

Lemma disable_step m n idx s err :
  findScheduledIndex m n = Some idx → scheduled m !! idx = Some s →
  ∃ m1,
    Update m (disableAutoMergeResultMsg n err) = Some (m1, []) ∧
    findScheduledIndex m1 n = Some idx ∧
    scheduled m1 !! idx =
      Some match err with
           | Some e => set_LastMessage ("Failed to disable auto-merge: " +:+ e) s
           | None => s
           end.
Proof.
  intros Hi Hl. destruct (active_entry _ _ _ Hi) as (s0 & ? & _ & Hd). simplify_eq.
  simpl. rewrite Hi. destruct err as [e|]; eexists; (split; [done|]); [|done].
  split.
  - unfold findScheduledIndex; simpl. by eapply findActive_alter_keep.
  - simpl. by rewrite list_lookup_alter_eq, Hl.
Qed.

Lemma failure_comment_step m n idx s err :
  findScheduledIndex m n = Some idx → scheduled m !! idx = Some s →
  ∃ m1,
    Update m (commentResultMsg n false err) = Some (m1, []) ∧
    scheduled m1 !! idx = Some (set_LastMessage (failureCommentOutcome err) (set_Done true s)).
Proof.
  intros Hi Hl. eexists. simpl. rewrite Hi. split; [done|].
  destruct err; simpl; by rewrite list_lookup_alter_eq, Hl.
Qed.

Lemma terminal_step m n idx s msg x :
  msg = mergeResultMsg n (Some x) ∨
  (∃ merged, msg = checkMergedMsg n merged (Some x)) ∨
  msg = checkMergedMsg n true None →
  findScheduledIndex m n = Some idx → scheduled m !! idx = Some s →
  ∃ m1 y,
    Update m msg = Some (m1, []) ∧
    scheduled m1 !! idx = Some (set_LastMessage y (set_Done true s)) ∧
    y = match msg with
        | mergeResultMsg _ _ => "Auto-merge failed: " +:+ x
        | checkMergedMsg _ _ (Some _) => "Check failed: " +:+ x
        | _ => "PR is merged"
        end.
Proof.
  intros Hmsg Hi Hl.
  destruct Hmsg as [->|[[merged ->]| ->]]; simpl; rewrite Hi;
    eexists _, _; (split; [done|]); (split; [|done]); simpl;
    by rewrite list_lookup_alter_eq, Hl.
Qed.

Lemma merge_set_step m n idx s :
  findScheduledIndex m n = Some idx → scheduled m !! idx = Some s →
  ∃ m1,
    Update m (mergeResultMsg n None) = Some (m1, []) ∧
    findScheduledIndex m1 n = Some idx ∧
    now m1 = now m ∧
    scheduled m1 !! idx =
      Some (set_LastMessage "Auto-merge set, will check in 1 minute"
              (set_CheckAt (time.Add (now m) (60 * time.Second)) s)).
Proof.
  intros Hi Hl. destruct (active_entry _ _ _ Hi) as (s0 & ? & _ & Hd). simplify_eq.
  eexists. simpl. rewrite Hi. split; [done|]. split; [|split; [done|]].
  - unfold findScheduledIndex; simpl. by eapply findActive_alter_keep.
  - simpl. by rewrite list_lookup_alter_eq, Hl.
Qed.

(** ** Ticks *)

Lemma tick_step m t i s :
  scheduled m !! i = Some s →
  ∃ m' c,
    Update m (tickMsg t) = Some (m', c) ∧
    scheduled m' !! i = Some (tickEntry t s).1 ∧
    ∀ x, (Some i, x) ∈ c ↔ x ∈ (tickEntry t s).2.
Proof.
  intros Hl. simpl.
  pose proof (tickLoop_fst t 0 (scheduled m)) as Hf.
  pose proof (tickLoop_snd t 0 (scheduled m) (Some i)) as Hs.
  destruct (tickLoop t 0 (scheduled m)) as [l cs]. simpl in *.
  eexists _, _. split; [done|]. simpl. split.
  - by rewrite Hf, list_lookup_fmap, Hl.
  - intros x. rewrite elem_of_app, Hs. split.
    + intros [(j & s0 & [= ->] & Hl0 & Hin)|Hx%list_elem_of_singleton]; [|done].
      by simplify_eq.
    + intros Hin. left. eauto.
Qed.

Local Ltac each_member :=
  let x := fresh "x" in
  let Hx := fresh "Hx" in
  intros x Hx;
  repeat (apply elem_of_cons in Hx as [->|Hx]; [try done|]);
  try by apply elem_of_nil in Hx.

(** The loop body at a tick that is not after [When s]: no pre-merge
    comment. *)
Lemma tickEntry_early t s :
  Done s = false → PreMergeCommentPosted s = false → time.After t (When s) = false →
  (Done (tickEntry t s).1 = false ∧ PreMergeCommentPosted (tickEntry t s).1 = false) ∧
  ∀ x, x ∈ (tickEntry t s).2 → ∀ k body b, x ≠ commentPRCmd k body b.
Proof.
  intros Hd Hp Ht. unfold tickEntry. rewrite Hd, Ht.
  rewrite !andb_false_r. repeat case_match; simplify_eq/=; (split; [done|]);
    each_member.
Qed.

(** The loop body at a tick after [When s]: the pre-merge comment. *)
Lemma tickEntry_due t s :
  Done s = false → PreMergeCommentPosted s = false →
  time.IsZero (When s) = false → time.After t (When s) = true →
  PreMergeCommentPosted (tickEntry t s).1 = true ∧
  commentPRCmd (Number (PR s))
    ("Setting PR to auto-merge. Scheduled merge time: " +:+ Format (When s) layout) true
  ∈ (tickEntry t s).2.
Proof.
  intros Hd Hp Hz Ht. unfold tickEntry. rewrite Hd, Hp, Hz, Ht.
  simpl. repeat case_match; simplify_eq/=; (split; [done|]); apply elem_of_cons; by left.
Qed.

(** The loop body before the check is due: no check. *)
Lemma tickEntry_waiting t s :
  Done s = false → MergeTriggered s = true → CheckScheduled s = false →
  time.After t (CheckAt s) = false →
  (Done (tickEntry t s).1 = false ∧ MergeTriggered (tickEntry t s).1 = true ∧
   CheckScheduled (tickEntry t s).1 = false ∧ CheckAt (tickEntry t s).1 = CheckAt s) ∧
  ∀ x, x ∈ (tickEntry t s).2 → ∀ k, x ≠ checkMergedCmd k.
Proof.
  intros Hd Hm Hc Hlt. unfold tickEntry. rewrite Hd.
  repeat case_match; simplify_eq/=;
    try (rewrite Hm, Hc, Hlt, !andb_false_r in *; done);
    (split; [done|]); each_member.
Qed.

(** The loop body once the check is due: the check. *)
Lemma tickEntry_check t s :
  Done s = false → MergeTriggered s = true → CheckScheduled s = false →
  time.IsZero (CheckAt s) = false → time.After t (CheckAt s) = true →
  CheckScheduled (tickEntry t s).1 = true ∧
  CheckAt (tickEntry t s).1 = CheckAt s ∧
  checkMergedCmd (Number (PR s)) ∈ (tickEntry t s).2.
Proof.
  intros Hd Hm Hc Hz Hlt. unfold tickEntry. rewrite Hd.
  repeat case_match; simplify_eq/=;
    try (rewrite Hm, Hc, Hz, Hlt in *; done);
    (split; [done|]); (split; [done|]); rewrite !elem_of_cons; auto.
Qed.

(** Once a flag of the tick loop is set, the loop's command is not issued
    for the entry again. *)
Lemma tickEntry_no_repeat t s x :
  x ∈ (tickEntry t s).2 →
  (PreMergeCommentPosted s = true → ∀ k body, x ≠ commentPRCmd k body true) ∧
  (CheckScheduled s = true → ∀ k, x ≠ checkMergedCmd k).
Proof.
  unfold tickEntry.
  destruct (PreMergeCommentPosted s) eqn:Hp, (CheckScheduled s) eqn:Hc;
    repeat case_match; simplify_eq/=;
    try (rewrite ?Hp, ?Hc, ?andb_false_r in *; simpl in *; done);
    revert x; each_member.
Qed.

Lemma step_no_repeat m msg m' c i s :
  Update m msg = Some (m', c) → scheduled m !! i = Some s →
  (PreMergeCommentPosted s = true → ∀ k body, (Some i, commentPRCmd k body true) ∉ c) ∧
  (CheckScheduled s = true → ∀ k, (Some i, checkMergedCmd k) ∉ c).
Proof.
  intros HU Hl.
  assert (∀ x, (Some i, x) ∈ c → tickOnly x → ∃ t, x ∈ (tickEntry t s).2) as Hx.
  { intros x Hin Hto. apply Update_shape in HU.
    destruct HU as [t -> _ Hc _ _|n idx f cs _ _ _ _ Hc Hcs _ _ _|_ _ _ Hc|p when _ _ _ _ _ _ Hc].
    - rewrite Hc, elem_of_app in Hin.
      destruct Hin as [Hin|Hin%untied_None]; [|done].
      apply tickLoop_snd in Hin as (j & s0 & [= ->] & Hl0 & Hin).
      simpl in Hl0. simplify_eq. eauto.
    - rewrite Hc in Hin. apply tied_Some in Hin as [_ Hin]. by destruct (Hcs x Hin).
    - by apply Hc in Hin as [? _].
    - rewrite Hc in Hin. by apply elem_of_nil in Hin. }
  split; intros Hf; intros; intros Hin;
    destruct (Hx _ Hin I) as (t & Ht);
    apply tickEntry_no_repeat in Ht as [H1 H2]; naive_solver.
Qed.

Lemma run_no_repeat m msgs m' c i s :
  run m msgs = Some (m', c) → scheduled m !! i = Some s →
  (PreMergeCommentPosted s = true → ∀ k body, (Some i, commentPRCmd k body true) ∉ c) ∧
  (CheckScheduled s = true → ∀ k, (Some i, checkMergedCmd k) ∉ c).
Proof.
  revert m c s. induction msgs as [|msg msgs IH]; intros m c s; simpl.
  - intros [= <- <-] _. split; intros; apply not_elem_of_nil.
  - destruct (Update m msg) as [[m1 c1]|] eqn:H1; [|done].
    destruct (run m1 msgs) as [[m2 c2]|] eqn:H2; [|done].
    intros [= <- <-] Hl.
    destruct (step_no_repeat _ _ _ _ _ _ H1 Hl) as [Ha Hb].
    apply Update_shape, step_later in H1.
    destruct (later_lookup _ _ _ _ H1 Hl) as (s1 & Hl1 & He).
    destruct (IH _ _ _ H2 Hl1) as [Ha' Hb'].
    split; intros Hf; intros; rewrite elem_of_app; intros [?|?].
    + by eapply Ha.
    + eapply Ha'; [|done]. by apply He.
    + by eapply Hb.
    + eapply Hb'; [|done]. by apply He.
Qed.

Lemma fmap_alter_same {B} (g : scheduledMerge → B) f idx (l : list scheduledMerge) :
  (∀ s, g (f s) = g s) → g <$> alter f idx l = g <$> l.
Proof.
  intros Hg. revert idx. induction l as [|s l IH]; intros [|idx]; csimpl; try done.
  - by rewrite Hg.
  - change (list_alter f idx l) with (alter f idx l). by rewrite IH.
Qed.

Lemma bystanders_any n o :
  Forall (bystander n) o →
  ∀ msg, msg ∈ o → bystander n msg ∧ ∀ t : Time, msg = tickMsg t → True.
Proof. rewrite Forall_forall. auto. Qed.

Local Ltac find_member :=
  repeat (rewrite elem_of_cons || rewrite elem_of_app);
  repeat first [left; reflexivity | right].

(** ** The program with its commands in flight: facts *)

Lemma pre_comment_step m n idx s err :
  findScheduledIndex m n = Some idx → scheduled m !! idx = Some s →
  ∃ m1,
    Update m (commentResultMsg n true err) = Some (m1, [(Some idx, mergePRCmd n)]) ∧
    findScheduledIndex m1 n = Some idx ∧
    scheduled m1 !! idx =
      Some (set_MergeTriggered true
              (set_LastMessage
                 match err with
                 | Some e => "Comment failed: " +:+ e +:+ " (continuing with merge)"
                 | None => "Pre-merge comment posted, triggering auto-merge..."
                 end s)).
Proof.
  intros Hi Hl. destruct (active_entry _ _ _ Hi) as (s0 & ? & _ & Hd). simplify_eq.
  eexists. simpl. rewrite Hi. split; [done|]. split.
  - unfold findScheduledIndex; simpl. by eapply findActive_alter_keep.
  - simpl. by rewrite list_lookup_alter_eq, Hl.
Qed.

Lemma findActive_alter_done n f idx l s :
  uniqueActive l → findActive n l = Some idx → l !! idx = Some s →
  PR (f s) = PR s → Done (f s) = true →
  findActive n (alter f idx l) = None.
Proof.
  intros Hu Hi Hl HP HD. apply findActive_None. intros j s' Hj Hn.
  destruct (decide (j = idx)) as [->|Hne].
  - rewrite list_lookup_alter_eq, Hl in Hj. by simplify_eq/=.
  - rewrite list_lookup_alter_ne in Hj by done.
    destruct (Done s') eqn:Hd'; [done|]. destruct Hne.
    apply findActive_Some in Hi as (s0 & Hl0 & Hn0 & Hd0). simplify_eq.
    by eapply Hu.
Qed.

Lemma findActive_snoc_None n l x :
  findActive n l = None →
  findActive n (l ++ [x]) =
    if (Number (PR x) =? n) && negb (Done x) then Some (length l) else None.
Proof.
  induction l as [|s l IH]; simpl.
  - intros _. by case_match.
  - destruct ((Number (PR s) =? n) && negb (Done s)); [done|].
    destruct (findActive n l); [done|]. intros _.
    rewrite IH by done. by case_match.
Qed.

Lemma pending_app n l1 l2 : pending n (l1 ++ l2) = pending n l1 ++ pending n l2.
Proof. apply List.filter_app. Qed.

Lemma pending_drop n l1 x l2 :
  drives n x = false → pending n (l1 ++ x :: l2) = pending n (l1 ++ l2).
Proof. intros H. rewrite !pending_app. simpl. by rewrite H. Qed.

Lemma pending_take n l1 x l2 :
  drives n x = true → pending n (l1 ++ x :: l2) = pending n l1 ++ x :: pending n l2.
Proof. intros H. rewrite !pending_app. simpl. by rewrite H. Qed.

Lemma pending_none n l : (∀ x, x ∈ l → drives n x = false) → pending n l = [].
Proof.
  induction l as [|x l IH]; intros H; simpl; [done|].
  rewrite (H x) by (by left). apply IH. intros y Hy. apply H. by right.
Qed.

Lemma cmdsOf_tied i cs : cmdsOf (tied i cs) = cs.
Proof.
  unfold cmdsOf, tied. rewrite <- list_fmap_compose.
  induction cs as [|x cs IH]; csimpl; [done|]. by rewrite IH.
Qed.

Lemma cmdsOf_app a b : cmdsOf (a ++ b) = cmdsOf a ++ cmdsOf b.
Proof. apply fmap_app. Qed.

Lemma prCmd_drives n x : drives n x = true → prCmd x.
Proof. by destruct x. Qed.

Lemma drives_inj n k x : drives n x = true → drives k x = true → k = n.
Proof. destruct x; simpl; try done; intros ?%Z.eqb_eq ?%Z.eqb_eq; congruence. Qed.

(** What the commands in flight say about the flags. *)
Lemma inStep_single s (a : list Cmd) x b :
  inStep s (a ++ x :: b) → a = [] ∧ b = [] ∧ inStep s [x].
Proof.
  assert (∀ y, a ++ x :: b = [y] → a = [] ∧ b = [] ∧ x = y) as Hone.
  { intros y. destruct a as [|? [|? ?]]; simpl; intros [= ]; by simplify_eq. }
  assert (a ++ x :: b ≠ []) as Hnil by (by destruct a).
  unfold inStep.
  destruct (PreMergeCommentPosted s), (MergeTriggered s), (CheckScheduled s),
    (FailureHandled s); try done.
  - intros [body (-> & -> & ->)%Hone]. eauto.
  - intros [(-> & -> & ->)%Hone|(-> & -> & ->)%Hone]; auto.
  - intros [[(-> & -> & ->)%Hone ?]|?]; [auto|done].
  - intros [[body (-> & -> & ->)%Hone] ?]. eauto.
  - by intros [? ?].
Qed.

Lemma inStep_flags s x :
  inStep s [x] →
  match x with
  | commentPRCmd k _ true =>
      k = Number (PR s) ∧ PreMergeCommentPosted s = true ∧ MergeTriggered s = false ∧
      CheckScheduled s = false ∧ FailureHandled s = false ∧ CheckAt s = time.zero
  | mergePRCmd k =>
      k = Number (PR s) ∧ PreMergeCommentPosted s = true ∧ MergeTriggered s = true ∧
      CheckScheduled s = false ∧ FailureHandled s = false ∧ CheckAt s = time.zero
  | checkMergedCmd k | getCommitSHACmd k =>
      k = Number (PR s) ∧ PreMergeCommentPosted s = true ∧ MergeTriggered s = true ∧
      CheckScheduled s = true ∧ FailureHandled s = false
  | commentPRCmd k _ false =>
      k = Number (PR s) ∧ PreMergeCommentPosted s = true ∧ MergeTriggered s = true ∧
      CheckScheduled s = true ∧ FailureHandled s = true
  | _ => False
  end.
Proof.
  unfold inStep.
  destruct (PreMergeCommentPosted s), (MergeTriggered s), (CheckScheduled s),
    (FailureHandled s); try done; intros H.
  - destruct H as [body [= ->]]. done.
  - destruct H as [[= ->]|[= ->]]; done.
  - destruct H as [[[= ->] ?]|[=]]. done.
  - destruct H as [[body [= ->]] ?]. done.
  - by destruct H as [[=] _].
Qed.

Lemma tickEntry_drives t s n x :
  x ∈ (tickEntry t s).2 → drives n x = (Number (PR s) =? n).
Proof.
  unfold tickEntry. repeat case_match; simplify_eq/=; revert x; each_member.
Qed.

Lemma pending_tickEntry_self t s :
  pending (Number (PR s)) (tickEntry t s).2 = (tickEntry t s).2.
Proof.
  pose proof (tickEntry_drives t s (Number (PR s))) as H. rewrite Z.eqb_refl in H.
  induction (tickEntry t s).2 as [|x l IH]; simpl; [done|].
  rewrite (H x) by (by left). f_equal. apply IH. intros y Hy. apply H. by right.
Qed.

Lemma pending_tickEntry_other t s n :
  (Number (PR s) =? n) && negb (Done s) = false → pending n (tickEntry t s).2 = [].
Proof.
  intros Hc. destruct (Done s) eqn:Hd.
  - by rewrite tickEntry_final.
  - rewrite andb_true_r in Hc. apply pending_none. intros x Hx.
    by rewrite (tickEntry_drives t s n x Hx).
Qed.

Lemma pending_tick_none t k l n :
  findActive n l = None → pending n (cmdsOf (tickLoop t k l).2) = [].
Proof.
  revert k. induction l as [|s l IH]; intros k; simpl; [done|].
  destruct ((Number (PR s) =? n) && negb (Done s)) eqn:Hc; [done|].
  destruct (findActive n l) eqn:Hf; [done|]. intros _.
  destruct (tickEntry t s) as [s' c] eqn:Hs.
  specialize (IH (S k) eq_refl). destruct (tickLoop t (S k) l) as [l'' cs]. simpl in *.
  rewrite cmdsOf_app, cmdsOf_tied, pending_app, IH, app_nil_r.
  pose proof (pending_tickEntry_other t s n Hc) as H. by rewrite Hs in H.
Qed.

Lemma uniqueActive_tail s l : uniqueActive (s :: l) → uniqueActive l.
Proof.
  intros Hu i j si sj Hi Hj Hdi Hdj Hn.
  assert (S i = S j) by (by eapply Hu). lia.
Qed.

Lemma pending_tick_some t k l n i s :
  uniqueActive l → findActive n l = Some i → l !! i = Some s →
  pending n (cmdsOf (tickLoop t k l).2) = (tickEntry t s).2.
Proof.
  revert k i. induction l as [|s0 l IH]; intros k i Hu; simpl; [done|].
  destruct ((Number (PR s0) =? n) && negb (Done s0)) eqn:Hc.
  - intros [= <-] [= ->].
    apply andb_true_iff in Hc as [Hn%Z.eqb_eq Hd%negb_true_iff].
    assert (findActive n l = None) as Hnone.
    { apply findActive_None. intros j sj Hj Hnj.
      destruct (Done sj) eqn:Hdj; [done|].
      assert (0%nat = S j) by (eapply Hu; eauto; congruence). done. }
    pose proof (pending_tick_none t (S k) l n Hnone) as Hrest.
    destruct (tickEntry t s) as [s' c] eqn:Hs.
    destruct (tickLoop t (S k) l) as [l'' cs]. simpl in *.
    rewrite cmdsOf_app, cmdsOf_tied, pending_app, Hrest, app_nil_r.
    pose proof (pending_tickEntry_self t s) as H. rewrite Hs, Hn in H. done.
  - destruct (findActive n l) as [j|] eqn:Hf; simpl; [|done].
    intros [= <-] Hl. simpl in Hl.
    specialize (IH (S k) j (uniqueActive_tail _ _ Hu) eq_refl Hl).
    destruct (tickEntry t s0) as [s' c] eqn:Hs.
    destruct (tickLoop t (S k) l) as [l'' cs]. simpl in *.
    rewrite cmdsOf_app, cmdsOf_tied, pending_app, IH.
    pose proof (pending_tickEntry_other t s0 n Hc) as H. rewrite Hs in H.
    simpl in H. by rewrite H.
Qed.

Local Ltac flags HP HM HC HF Hd :=
  repeat (progress (simpl; rewrite ?HP, ?HM, ?HC, ?HF, ?Hd)).

Lemma tickEntry_inStep t s p :
  inStep s p → Done s = false →
  inStep (tickEntry t s).1 (p ++ (tickEntry t s).2) ∧
  (stageOf (tickEntry t s).1 = stageOf s ∨ edge (stageOf s) (stageOf (tickEntry t s).1)).
Proof.
  unfold inStep, tickEntry, stageOf. intros H Hd. rewrite Hd.
  destruct (PreMergeCommentPosted s) eqn:HP, (MergeTriggered s) eqn:HM,
    (CheckScheduled s) eqn:HC, (FailureHandled s) eqn:HF; try done;
    flags HP HM HC HF Hd.
  - rewrite app_nil_r. by split; [|left].
  - rewrite app_nil_r. by split; [|left].
  - destruct H as [[-> Hz]| ->].
    + rewrite Hz. flags HP HM HC HF Hd. split; [by left|by left].
    + destruct (negb (time.IsZero (CheckAt s)) && time.After t (CheckAt s));
        flags HP HM HC HF Hd.
      * split; [by left|right; constructor].
      * split; [by right|by left].
  - rewrite app_nil_r. by split; [|left].
  - destruct H as [-> Hz].
    destruct (negb (time.IsZero (When s)) && time.After t (When s));
      flags HP HM HC HF Hd.
    + split; [eauto|right; constructor].
    + split; [done|by left].
Qed.

Lemma inStep_LastMessage x s p : inStep s p → inStep (set_LastMessage x s) p.
Proof. done. Qed.

Lemma inStep_newEntry p when : inStep (newEntry p when) [].
Proof. done. Qed.

Lemma pending_untargeted n (c : list issued) :
  (∀ o x, (o, x) ∈ c → o = None ∧ ¬ prCmd x) → pending n (cmdsOf c) = [].
Proof.
  intros H. apply pending_none. intros x Hx.
  apply list_elem_of_fmap in Hx as ([o y] & -> & Hin). simpl.
  destruct (H o y Hin) as [_ Hn]. destruct (drives n y) eqn:Hd; [|done].
  by apply prCmd_drives in Hd.
Qed.

(** A step on a message that is neither a tick nor a collaborator result. *)
Lemma quiet_step m l lb msg m' c :
  inStepAll (m, l) → (∀ n, pending n lb = pending n l) →
  prNumberOf msg = None → (∀ t, msg ≠ tickMsg t) →
  Update m msg = Some (m', c) →
  inStepAll (m', lb ++ cmdsOf c) ∧
  ∀ i s, scheduled m !! i = Some s → scheduled m' !! i = Some s.
Proof.
  intros [HI Hall] Hlb Hnone Htick HU. cbn [fst snd] in *.
  pose proof (Update_Inv _ _ _ _ HU HI) as HI'.
  apply Update_shape in HU.
  destruct HU as [t -> _ _ _ _|n idx f cs Hn _ _ _ _ _ _ _ _|_ Hs _ Hc|p when _ _ Hm Hf Hs _ Hc].
  - by destruct (Htick t).
  - congruence.
  - split; [|by intros i s; rewrite Hs]. split; [done|]. intros n. simpl.
    unfold findScheduledIndex. rewrite Hs, pending_app, Hlb, (pending_untargeted n c Hc).
    rewrite app_nil_r. apply Hall.
  - split; [|by intros i s Hl; rewrite Hs; apply lookup_app_l_Some].
    split; [done|]. intros n. simpl.
    rewrite Hc, app_nil_r, Hlb. unfold findScheduledIndex. rewrite Hs.
    specialize (Hall n). unfold findScheduledIndex in Hall.
    destruct (findActive n (scheduled m)) as [i|] eqn:Hi.
    + rewrite (findActive_app _ _ _ _ Hi).
      destruct Hall as (s & Hl & Hin). exists s. split; [|done].
      by apply lookup_app_l_Some.
    + rewrite (findActive_snoc_None _ _ _ Hi).
      destruct ((Number (PR (newEntry p when)) =? n) && negb (Done (newEntry p when)));
        [|done].
      exists (newEntry p when). rewrite Hall. split; [|done].
      by apply list_lookup_middle.
Qed.

(** A tick. *)
Lemma tick_sys_step m l lb t m' c :
  inStepAll (m, l) → (∀ n, pending n lb = pending n l) →
  Update m (tickMsg t) = Some (m', c) →
  inStepAll (m', lb ++ cmdsOf c) ∧
  ∀ i s, scheduled m !! i = Some s →
    ∃ s', scheduled m' !! i = Some s' ∧
          (stageOf s' = stageOf s ∨ edge (stageOf s) (stageOf s')).
Proof.
  intros [HI Hall] Hlb HU. cbn [fst snd] in *.
  pose proof (Update_Inv _ _ _ _ HU HI) as HI'.
  pose proof HU as Hshape. apply Update_shape in Hshape.
  destruct Hshape as [t' [= <-] Hs Hc _ _|n idx f cs [=] _ _ _ _ _ _ _ _|Ht _ _ _
                     |p when _ Ht _ _ _ _ _]; [|by destruct (Ht t)..].
  assert (∀ n, findScheduledIndex m' n = findScheduledIndex m n) as Hidx.
  { intros n. unfold findScheduledIndex. rewrite Hs. apply findActive_fmap.
    intros s. by rewrite tickEntry_Done, tickEntry_PR. }
  split; [split; [done|]|].
  - intros n. simpl. rewrite Hidx. specialize (Hall n).
    rewrite pending_app, Hlb, Hc, cmdsOf_app, pending_app.
    change (pending n (cmdsOf (untied [tickCmd]))) with (@nil Cmd). rewrite app_nil_r.
    destruct (findScheduledIndex m n) as [i|] eqn:Hi.
    + destruct Hall as (s & Hl & Hin). exists (tickEntry t s).1.
      split; [by rewrite Hs, list_lookup_fmap, Hl|].
      destruct HI as [Hu _]. rewrite (pending_tick_some t 0 _ n i s Hu Hi Hl).
      apply tickEntry_inStep; [done|].
      by apply findActive_Some in Hi as (? & ? & _ & ?); simplify_eq.
    + by rewrite (pending_tick_none t 0 _ n Hi), Hall.
  - intros i s Hl. exists (tickEntry t s).1.
    split; [by rewrite Hs, list_lookup_fmap, Hl|].
    destruct (Done s) eqn:Hd; [rewrite tickEntry_final by done; by left|].
    destruct HI as [Hu _].
    pose proof (findActive_unique _ _ _ _ Hu Hl eq_refl Hd) as Hi.
    specialize (Hall (Number (PR s))). unfold findScheduledIndex in Hall.
    rewrite Hi in Hall. destruct Hall as (s0 & Hl0 & Hin). simplify_eq.
    by eapply tickEntry_inStep.
Qed.

Lemma pending_tied_other n n0 idx cs :
  (∀ x k, x ∈ cs → drives k x = true → k = n0) → n ≠ n0 →
  pending n (cmdsOf (tied idx cs)) = [].
Proof.
  intros H Hne. rewrite cmdsOf_tied. apply pending_none. intros x Hx.
  destruct (drives n x) eqn:Hd; [|done]. by destruct Hne; eapply H.
Qed.

(** A collaborator result for PR [n0] leaves every other PR alone. *)
Lemma result_other m msg m' c n0 n :
  prNumberOf msg = Some n0 → n ≠ n0 → Update m msg = Some (m', c) →
  findScheduledIndex m' n = findScheduledIndex m n ∧
  (∀ i s, findScheduledIndex m n = Some i → scheduled m !! i = Some s →
          scheduled m' !! i = Some s) ∧
  pending n (cmdsOf c) = [].
Proof.
  intros Hn0 Hne HU. apply Update_shape in HU.
  destruct HU as [t -> _ _ _ _|n' idx f cs Hn' Hidx Hs Hev Hc _ Hcs _ _|_ Hs _ Hc
                 |p when Hnone _ _ _ _ _ _]; try discriminate; try congruence.
  - assert (n' = n0) as -> by congruence.
    destruct (active_entry _ _ _ Hidx) as (s0 & Hl0 & Hnum & Hd0).
    split_and!.
    + unfold findScheduledIndex. rewrite Hs.
      eapply findActive_alter_other; [done|congruence|]. by apply Hev.
    + intros i s Hi Hl. rewrite Hs, list_lookup_alter_ne; [done|].
      intros ->. apply active_entry in Hi as (? & ? & ? & _). congruence.
    + rewrite Hc. by eapply pending_tied_other.
  - split_and!.
    + unfold findScheduledIndex. by rewrite Hs.
    + intros i s _. by rewrite Hs.
    + by apply pending_untargeted.
Qed.

(** The command a collaborator result comes from. *)
Lemma produces_result cmd msg n0 :
  produces cmd msg → prNumberOf msg = Some n0 →
  (∀ n, n ≠ n0 → drives n cmd = false) ∧
  (cmd = disableAutoMergeCmd n0 ∨ drives n0 cmd = true).
Proof.
  intros [] [= <-]; simpl; (split; [|rewrite ?Z.eqb_refl; auto]);
    intros k Hk; try done; by apply Z.eqb_neq.
Qed.

Lemma dropped_step m msg n :
  prNumberOf msg = Some n → findScheduledIndex m n = None → Update m msg = Some (m, []).
Proof. intros Hn Hf. destruct msg; simplify_eq/=; by rewrite Hf. Qed.

Lemma result_done_index m msg m' c n i s' :
  Update m msg = Some (m', c) → prNumberOf msg = Some n →
  uniqueActive (scheduled m) → findScheduledIndex m n = Some i →
  scheduled m' !! i = Some s' → Done s' = true →
  findScheduledIndex m' n = None.
Proof.
  intros HU Hn Hu Hi Hl' Hd'. apply Update_shape in HU.
  destruct (active_entry _ _ _ Hi) as (s & Hl & Hnum & Hd).
  destruct HU as [t -> _ _ _ _|n' idx f cs Hn' Hidx Hs Hev _ _ _ _ _|_ Hs _ _
                 |p when Hnone _ _ _ _ _ _]; try discriminate; try congruence.
  assert (n' = n) as -> by congruence. assert (idx = i) as -> by congruence.
  unfold findScheduledIndex. rewrite Hs.
  rewrite Hs, list_lookup_alter_eq, Hl in Hl'. simplify_eq/=.
  eapply findActive_alter_done; eauto. by apply Hev.
Qed.

Lemma result_elsewhere m msg m' c n j :
  Update m msg = Some (m', c) → prNumberOf msg = Some n →
  findScheduledIndex m n ≠ Some j → scheduled m' !! j = scheduled m !! j.
Proof.
  intros HU Hn Hj. apply Update_shape in HU.
  destruct HU as [t -> _ _ _ _|n' idx f cs Hn' Hidx Hs Hev _ _ _ _ _|_ Hs _ _
                 |p when Hnone _ _ _ _ _ _]; try discriminate; try congruence.
  assert (n' = n) as -> by congruence.
  rewrite Hs, list_lookup_alter_ne; [done|]. congruence.
Qed.

(** A collaborator result for PR [n0], on the entry of PR [n0]. *)
Lemma result_self m l1 cmd l2 msg n0 m' c :
  inStepAll (m, l1 ++ cmd :: l2) → produces cmd msg → prNumberOf msg = Some n0 →
  Update m msg = Some (m', c) →
  match findScheduledIndex m' n0 with
  | Some i => ∃ s', scheduled m' !! i = Some s' ∧ inStep s' (pending n0 (l1 ++ l2 ++ cmdsOf c))
  | None => pending n0 (l1 ++ l2 ++ cmdsOf c) = []
  end ∧
  ∀ i s, findScheduledIndex m n0 = Some i → scheduled m !! i = Some s →
    ∃ s', scheduled m' !! i = Some s' ∧
          (stageOf s' = stageOf s ∨ edge (stageOf s) (stageOf s')).
Proof.
  intros [[Hu _] Hall] Hprod Hn0 HU. cbn [fst snd] in *.
  destruct (produces_result _ _ _ Hprod Hn0) as [_ Hwhich].
  specialize (Hall n0).
  destruct (findScheduledIndex m n0) as [i|] eqn:Hi.
  2:{ (* no active entry: the result is dropped *)
    rewrite (dropped_step _ _ _ Hn0 Hi) in HU. simplify_eq.
    rewrite Hi. split; [|done]. rewrite app_nil_r.
    destruct Hwhich as [->|Hd].
    - by rewrite pending_drop in Hall.
    - rewrite pending_take in Hall by done. by destruct (pending n0 l1). }
  destruct Hall as (s & Hl & Hin).
  destruct (active_entry _ _ _ Hi) as (s0 & ? & Hnum & Hd). simplify_eq.
  assert (∀ s' cs,
            scheduled m' !! i = Some s' → c = tied i cs →
            pending (Number (PR s)) (l1 ++ l2) = [] →
            (if Done s' then cs = []
             else findScheduledIndex m' (Number (PR s)) = Some i ∧
                  inStep s' (pending (Number (PR s)) cs)) →
            stageOf s' = stageOf s ∨ edge (stageOf s) (stageOf s') →
            match findScheduledIndex m' (Number (PR s)) with
            | Some i =>
                ∃ s', scheduled m' !! i = Some s' ∧
                      inStep s' (pending (Number (PR s)) (l1 ++ l2 ++ cmdsOf c))
            | None => pending (Number (PR s)) (l1 ++ l2 ++ cmdsOf c) = []
            end ∧
            ∀ i0 s0, Some i = Some i0 → scheduled m !! i0 = Some s0 →
              ∃ s', scheduled m' !! i0 = Some s' ∧
                    (stageOf s' = stageOf s0 ∨ edge (stageOf s0) (stageOf s')))
    as Hfinish.
  { intros s' cs Hl' -> Hrest Hnext Hedge. split.
    - rewrite app_assoc, pending_app, Hrest, cmdsOf_tied. simpl.
      destruct (Done s') eqn:Hd'.
      + rewrite (result_done_index _ _ _ _ _ _ _ HU Hn0 Hu Hi Hl' Hd').
        by subst.
      + destruct Hnext as [-> Hin']. eauto.
    - intros i0 s1 [= <-] Hl1. simplify_eq. eauto. }
  destruct Hwhich as [->|Hdrv].
  { (* the disable action never drives the entry *)
    inversion Hprod; subst.
    destruct (disable_step _ _ _ _ err Hi Hl) as (m1 & HU1 & Hi1 & Hl1).
    rewrite HU in HU1. simplify_eq.
    rewrite pending_drop in Hin by done.
    rewrite Hi1. simpl. rewrite app_nil_r. split.
    - eexists. split; [done|]. by destruct err.
    - intros i0 s0 [= <-] ?. simplify_eq. eexists. split; [done|]. left. by destruct err. }
  rewrite pending_take in Hin by done.
  apply inStep_single in Hin as (Hp1 & Hp2 & Hin).
  apply inStep_flags in Hin.
  assert (pending (Number (PR s)) (l1 ++ l2) = []) as Hrest
    by (by rewrite pending_app, Hp1, Hp2).
  inversion Hprod; subst; simpl in Hn0, Hdrv; try discriminate.
  - (* merge result *)
    destruct Hin as (-> & HP & HM & HC & HF & HA). destruct err as [x|].
    + destruct (terminal_step m _ _ _ (mergeResultMsg (Number (PR s)) (Some x)) x
                  ltac:(auto) Hi Hl) as (m1 & y & HU1 & Hl1 & _).
      rewrite HU in HU1. simplify_eq.
      eapply (Hfinish _ []); [done..|].
      right. unfold stageOf. simpl. rewrite Hd, HP, HM, HC, HF. constructor.
    + destruct (merge_set_step _ _ _ _ Hi Hl) as (m1 & HU1 & Hi1 & _ & Hl1).
      rewrite HU in HU1. simplify_eq.
      eapply (Hfinish _ []); [done..| |].
      * simpl. rewrite Hd. split; [done|]. unfold inStep. simpl.
        rewrite HP, HM, HC, HF. by right.
      * left. unfold stageOf. simpl. by rewrite Hd.
  - (* comment result *)
    destruct isPreMerge.
    + destruct Hin as (-> & HP & HM & HC & HF & HA).
      destruct (pre_comment_step _ _ _ _ err Hi Hl) as (m1 & HU1 & Hi1 & Hl1).
      rewrite HU in HU1. simplify_eq.
      eapply (Hfinish _ [mergePRCmd _]); [done..| |].
      * simpl. rewrite Hd. split; [done|]. unfold inStep, pending. simpl.
        rewrite Z.eqb_refl, HP, HC, HF. by left.
      * right. unfold stageOf. simpl. rewrite Hd, HP, HM, HC, HF. constructor.
    + destruct Hin as (-> & HP & HM & HC & HF).
      destruct (failure_comment_step _ _ _ _ err Hi Hl) as (m1 & HU1 & Hl1).
      rewrite HU in HU1. simplify_eq.
      eapply (Hfinish _ []); [done..|].
      right. unfold stageOf. simpl. rewrite Hd, HF. constructor.
  - (* commit SHA *)
    destruct Hin as (-> & HP & HM & HC & HF).
    destruct (commitSHA_step _ _ _ _ sha None Hi Hl) as (m1 & HU1 & Hi1 & Hl1).
    rewrite HU in HU1. simplify_eq.
    eapply (Hfinish _ [_; _; _]); [done..| |].
    + simpl. rewrite Hd. split; [done|]. unfold inStep, pending. simpl.
      rewrite Z.eqb_refl, HP, HM, HC. eauto.
    + right. unfold stageOf. simpl. rewrite Hd, HC, HF. constructor.
  - destruct Hin as (-> & HP & HM & HC & HF).
    destruct (commitSHA_step _ _ _ _ "" (Some e) Hi Hl) as (m1 & HU1 & Hi1 & Hl1).
    rewrite HU in HU1. simplify_eq.
    eapply (Hfinish _ [_; _; _]); [done..| |].
    + simpl. rewrite Hd. split; [done|]. unfold inStep, pending. simpl.
      rewrite Z.eqb_refl, HP, HM, HC. eauto.
    + right. unfold stageOf. simpl. rewrite Hd, HC, HF. constructor.
  - (* check result *)
    destruct Hin as (-> & HP & HM & HC & HF). destruct merged.
    + destruct (terminal_step m _ _ _ (checkMergedMsg (Number (PR s)) true None) ""
                  ltac:(auto) Hi Hl) as (m1 & y & HU1 & Hl1 & _).
      rewrite HU in HU1. simplify_eq.
      eapply (Hfinish _ []); [done..|].
      right. unfold stageOf. simpl. rewrite Hd, HC, HF. constructor.
    + destruct (check_not_merged_step _ _ _ _ Hi Hl) as (m1 & HU1 & Hi1 & Hl1).
      rewrite HU in HU1. simplify_eq.
      eapply (Hfinish _ [_]); [done..| |].
      * simpl. rewrite Hd. split; [done|]. unfold inStep, pending. simpl.
        rewrite Z.eqb_refl, HP, HM, HC, HF. by right.
      * left. unfold stageOf. simpl. by rewrite Hd.
  - destruct Hin as (-> & HP & HM & HC & HF).
    destruct (terminal_step m _ _ _ (checkMergedMsg (Number (PR s)) false (Some e)) e
                ltac:(eauto) Hi Hl) as (m1 & y & HU1 & Hl1 & _).
    rewrite HU in HU1. simplify_eq.
    eapply (Hfinish _ []); [done..|].
    right. unfold stageOf. simpl. rewrite Hd, HC, HF. constructor.
Qed.

(** A collaborator result for PR [n0]. *)
Lemma result_sys_step m l1 cmd l2 msg n0 m' c :
  inStepAll (m, l1 ++ cmd :: l2) → produces cmd msg → prNumberOf msg = Some n0 →
  Update m msg = Some (m', c) →
  inStepAll (m', l1 ++ l2 ++ cmdsOf c) ∧
  ∀ i s, scheduled m !! i = Some s →
    ∃ s', scheduled m' !! i = Some s' ∧
          (stageOf s' = stageOf s ∨ edge (stageOf s) (stageOf s')).
Proof.
  intros Hinv Hprod Hn0 HU.
  destruct (result_self _ _ _ _ _ _ _ _ Hinv Hprod Hn0 HU) as [Hself Hedge].
  destruct (produces_result _ _ _ Hprod Hn0) as [Hother _].
  destruct Hinv as [HI Hall]. cbn [fst snd] in *.
  split; [split|]; cbn [fst snd].
  - by eapply Update_Inv.
  - intros n. destruct (decide (n = n0)) as [->|Hne]; [done|].
    destruct (result_other _ _ _ _ _ _ Hn0 Hne HU) as (-> & Hkeep & Hnil).
    specialize (Hall n). rewrite pending_drop in Hall by auto.
    rewrite app_assoc, pending_app, Hnil, app_nil_r.
    destruct (findScheduledIndex m n) as [i|] eqn:Hi; [|done].
    destruct Hall as (s & Hl & Hin). eauto.
  - intros i s Hl. destruct (decide (findScheduledIndex m n0 = Some i)) as [Hi|Hi].
    + eauto.
    + exists s. split; [|by left]. by rewrite (result_elsewhere _ _ _ _ _ _ HU Hn0 Hi).
Qed.

(** Every step of the running program keeps the invariant and moves each
    entry along an edge of the transition graph, or leaves its stage. *)
Lemma sys_step_edge σ σ' :
  inStepAll σ → sys_step σ σ' →
  inStepAll σ' ∧
  ∀ i s, scheduled σ.1 !! i = Some s →
    ∃ s', scheduled σ'.1 !! i = Some s' ∧
          (stageOf s' = stageOf s ∨ edge (stageOf s) (stageOf s')).
Proof.
  intros Hinv Hstep. revert Hinv.
  destruct Hstep as [m l1 cmd l2 msg m' c Hprod HU|m l msg m' c Hext HU];
    intros Hinv; cbn [fst snd].
  - destruct (prNumberOf msg) as [n0|] eqn:Hn0; [exact (result_sys_step _ _ _ _ _ _ _ _ Hinv Hprod Hn0 HU)|].
    rewrite app_assoc.
    assert (∀ n, pending n (l1 ++ l2) = pending n (l1 ++ cmd :: l2)) as Hlb.
    { intros n. rewrite pending_drop; [done|]. by destruct Hprod. }
    inversion Hprod; subst;
      first
        [ exact (tick_sys_step _ _ _ _ _ _ Hinv Hlb HU)
        | destruct (quiet_step _ _ _ _ _ _ Hinv Hlb Hn0 ltac:(done) HU) as [Hinv' Hkeep];
          (split; [done|]); intros i s Hl; exists s; (split; [auto|by left]) ].
  - destruct (quiet_step m l l msg m' c Hinv ltac:(done)
                ltac:(by destruct msg) ltac:(by destruct msg) HU) as [Hinv' Hkeep].
    split; [done|]. intros i s Hl. exists s. split; [auto|by left].
Qed.

Lemma sys_reachable_inStepAll σ : sys_reachable σ → inStepAll σ.
Proof.
  induction 1 as [t0|σ σ' _ IH Hstep].
  - split; [apply initialModel_Inv|]. by intros n.
  - by destruct (sys_step_edge _ _ IH Hstep).
Qed.

(** ** The claims *)

(** C9.  A collaborator result (merge, check, comment, disable or
    commit-SHA result) whose PR number has no active entry in
    [m.scheduled] is dropped: [Update] returns the model it was given and
    issues no command. *)
Theorem result_without_active_entry_is_dropped m msg n :
  prNumberOf msg = Some n →
  findScheduledIndex m n = None →
  Update m msg = Some (m, []).
Proof.
  intros Hn Hf. destruct msg; simplify_eq/=; by rewrite Hf.
Qed.

(** C7.  The result of the pre-merge comment, success or failure, makes the
    handler issue the merge command for the entry and set
    [MergeTriggered].  A failure is recorded in the entry's [LastMessage]
    (read back here, with every other field) and nowhere else: apart from
    [MergeTriggered] and [LastMessage] the entry is as it was, it is not
    [Done], and it stays the active entry of its PR. *)
Theorem pre_merge_comment_result_triggers_merge m n idx err :
  findScheduledIndex m n = Some idx →
  ∃ m' s s',
    scheduled m !! idx = Some s ∧
    Update m (commentResultMsg n true err) = Some (m', [(Some idx, mergePRCmd n)]) ∧
    scheduled m' !! idx = Some s' ∧
    s' = set_MergeTriggered true
           (set_LastMessage
              match err with
              | Some e => "Comment failed: " +:+ e +:+ " (continuing with merge)"
              | None => "Pre-merge comment posted, triggering auto-merge..."
              end s) ∧
    LastMessage s' =
      match err with
      | Some e => "Comment failed: " +:+ e +:+ " (continuing with merge)"
      | None => "Pre-merge comment posted, triggering auto-merge..."
      end ∧
    MergeTriggered s' = true ∧
    Done s' = false ∧ Done s = false ∧
    PR s' = PR s ∧ When s' = When s ∧ CheckAt s' = CheckAt s ∧
    PreMergeCommentPosted s' = PreMergeCommentPosted s ∧
    CheckScheduled s' = CheckScheduled s ∧ FailureHandled s' = FailureHandled s ∧
    findScheduledIndex m' n = Some idx.
Proof.
  intros Hi. pose proof Hi as (s & Hl & Hn & Hd)%findActive_Some.
  eexists _, s, _. split; [done|]. simpl. rewrite Hi. split; [done|]. simpl.
  split; [by rewrite list_lookup_alter_eq, Hl|].
  split_and!; try done.
  unfold findScheduledIndex. simpl.
  by eapply findActive_alter_keep.
Qed.

(** C6.  Along any sequence of messages, whatever they are, an entry
    keeps its index, its PR and its scheduled time; none of its five flags
    is ever cleared, so the stage they encode never decreases; and an entry
    that is [Done] is final: it stays exactly as it is and no command is
    issued for it.  In the running program, where a result only comes back
    from a command that [Init] or [Update] issued, every step leaves the
    stage of every entry where it is or moves it along one edge of the
    transition graph. *)
Theorem stage_monotone_and_done_final :
  (∀ m msgs m' c i s,
     run m msgs = Some (m', c) →
     scheduled m !! i = Some s →
     ∃ s',
       scheduled m' !! i = Some s' ∧
       PR s' = PR s ∧ When s' = When s ∧
       (PreMergeCommentPosted s = true → PreMergeCommentPosted s' = true) ∧
       (MergeTriggered s = true → MergeTriggered s' = true) ∧
       (CheckScheduled s = true → CheckScheduled s' = true) ∧
       (FailureHandled s = true → FailureHandled s' = true) ∧
       (Done s = true → Done s' = true) ∧
       (stageRank s ≤ stageRank s')%nat ∧
       (Done s = true → s' = s ∧ ∀ x, (Some i, x) ∉ c)) ∧
  (∀ σ σ' i s,
     sys_reachable σ → sys_step σ σ' →
     scheduled σ.1 !! i = Some s →
     ∃ s',
       scheduled σ'.1 !! i = Some s' ∧
       (stageOf s' = stageOf s ∨ edge (stageOf s) (stageOf s'))).
Proof.
  split.
  - intros m msgs m' c i s Hrun Hl.
    destruct (later_lookup _ _ _ _ (run_later _ _ _ _ Hrun) Hl) as (s' & Hl' & He).
    exists s'. pose proof (evolves_rank _ _ He) as Hr. destruct He.
    split_and!; try done.
    intros Hd. split; [auto|]. by eapply run_done_silent.
  - intros σ σ' i s Hreach Hstep.
    by apply (sys_step_edge _ _ (sys_reachable_inStepAll _ Hreach) Hstep).
Qed.



(** C8 (as amended).  A failed head-commit fetch does not stop the
    remediation: the handler substitutes "unknown" for the commit, sends
    the notification and issues both the disable command and the failure
    comment, whose body names the "unknown" commit; when that comment
    succeeds the entry is [Done] with the fixed message
    "PR not merged (auto-merge disabled, notification sent)", which does not
    mention the commit. *)
Theorem failed_commit_fetch_uses_placeholder m n idx sha e :
  findScheduledIndex m n = Some idx →
  ∃ s m2 s2,
    scheduled m !! idx = Some s ∧
    run m [commitSHAMsg n sha (Some e); commentResultMsg n false None] =
      Some (m2,
            [(Some idx,
              notifySend "PR not merged"
                ("PR #" +:+ Itoa n +:+ " (" +:+ Title (PR s)
                 +:+ ") is still not merged after auto-merge."));
             (Some idx, disableAutoMergeCmd n);
             (Some idx, commentPRCmd n (failureComment "unknown") false)]) ∧
    mentions "unknown" (failureComment "unknown") = true ∧
    scheduled m2 !! idx = Some s2 ∧
    Done s2 = true ∧ FailureHandled s2 = true ∧
    LastMessage s2 = "PR not merged (auto-merge disabled, notification sent)" ∧
    mentions "unknown" (LastMessage s2) = false.
Proof.
  intros Hi. destruct (active_entry _ _ _ Hi) as (s & Hl & _ & _).
  destruct (commitSHA_step _ _ _ _ sha (Some e) Hi Hl) as (m1 & H1 & Hi1 & Hl1).
  destruct (failure_comment_step _ _ _ _ None Hi1 Hl1) as (m2 & H2 & Hl2).
  eexists s, m2, _. split; [done|]. split.
  { rewrite (run_cons _ _ _ _ _ H1), (run_cons _ _ _ _ _ H2). done. }
  split; [done|]. split; [exact Hl2|]. done.
Qed.

(** C5.  A failed merge trigger, and likewise a failed state check, makes
    the active entry of the PR [Done] at once, with the failure as its
    [LastMessage] (read back here, with every other field: nothing else of
    the entry changes) and no command issued.  From then on, whatever
    messages follow, the entry stays exactly as it is (so its [CheckAt] is
    the one it had) and no command is ever issued for it: no check, no
    commit fetch, no disable, no failure comment. *)
Theorem failed_merge_or_check_is_terminal m n idx e msg :
  findScheduledIndex m n = Some idx →
  msg = mergeResultMsg n (Some e) ∨ (∃ merged, msg = checkMergedMsg n merged (Some e)) →
  ∃ s m1 s1,
    scheduled m !! idx = Some s ∧
    Update m msg = Some (m1, []) ∧
    s1 = set_LastMessage
           (match msg with
            | mergeResultMsg _ _ => "Auto-merge failed: "
            | _ => "Check failed: "
            end +:+ e)
           (set_Done true s) ∧
    scheduled m1 !! idx = Some s1 ∧
    Done s1 = true ∧ CheckAt s1 = CheckAt s ∧
    LastMessage s1 =
      match msg with
      | mergeResultMsg _ _ => "Auto-merge failed: "
      | _ => "Check failed: "
      end +:+ e ∧
    PR s1 = PR s ∧ When s1 = When s ∧
    PreMergeCommentPosted s1 = PreMergeCommentPosted s ∧
    MergeTriggered s1 = MergeTriggered s ∧
    CheckScheduled s1 = CheckScheduled s ∧ FailureHandled s1 = FailureHandled s ∧
    ∀ msgs m2 c,
      run m1 msgs = Some (m2, c) →
      scheduled m2 !! idx = Some s1 ∧ ∀ x, (Some idx, x) ∉ c.
Proof.
  intros Hi Hmsg. destruct (active_entry _ _ _ Hi) as (s & Hl & _ & _).
  destruct (terminal_step m n idx s msg e) as (m1 & y & H1 & Hl1 & Hy); [tauto|done..|].
  assert (y = match msg with
              | mergeResultMsg _ _ => "Auto-merge failed: "
              | _ => "Check failed: "
              end +:+ e) as ->.
  { by destruct Hmsg as [->|[merged ->]]. }
  eexists s, m1, _. split_and!; [done|done|reflexivity|done..|].
  intros msgs m2 c Hrun. by eapply run_done_silent.
Qed.

(** C3 (as amended).  "After" is the code's own test [m.now.After(s.When)]:
    strict, on the monotonic clock readings when both times carry one (a
    tick against a time chosen from a preset), on the wall-clock instants
    otherwise (a tick against a typed time).  For an entry whose scheduled
    time [When s] is not the zero time and whose pre-merge comment has not
    been issued yet: as long as no tick is after [When s] (a tick at
    exactly [When s] is not after it) no comment command is issued for the
    entry; the first tick after [When s] issues the pre-merge comment for
    it and sets [PreMergeCommentPosted]; and no later step issues it again.
    The messages in between are ticks and whatever is not a collaborator
    result for the entry's PR. *)
Theorem pre_merge_comment_on_first_tick_after m i s pre t :
  reachable m → scheduled m !! i = Some s →
  Done s = false → PreMergeCommentPosted s = false →
  time.IsZero (When s) = false →
  Forall (notAfter (When s) (Number (PR s))) pre →
  time.After t (When s) = true →
  notAfter (When s) (Number (PR s)) (tickMsg (When s)) ∧
  ∃ m1 c1 m2 c2 s2,
    run m pre = Some (m1, c1) ∧
    (∀ k body b, (Some i, commentPRCmd k body b) ∉ c1) ∧
    Update m1 (tickMsg t) = Some (m2, c2) ∧
    (Some i,
     commentPRCmd (Number (PR s))
       ("Setting PR to auto-merge. Scheduled merge time: " +:+ Format (When s) layout)
       true) ∈ c2 ∧
    scheduled m2 !! i = Some s2 ∧ PreMergeCommentPosted s2 = true ∧
    ∀ post m3 c3,
      run m2 post = Some (m3, c3) →
      ∀ k body, (Some i, commentPRCmd k body true) ∉ c3.
Proof.
  intros Hreach Hl Hd Hp Hz Hpre Ht. split; [apply After_irrefl|].
  pose proof (reachable_Inv _ Hreach) as HI.
  assert (findScheduledIndex m (Number (PR s)) = Some i) as Hi.
  { destruct HI as [Hu _]. by eapply findActive_unique. }
  destruct (run_bystanders
              (λ s', Done s' = false ∧ PreMergeCommentPosted s' = false ∧
                     When s' = When s ∧ PR s' = PR s)
              (λ x, ∀ k body b, x ≠ commentPRCmd k body b)
              (λ u, time.After u (When s) = false)
              m pre (Number (PR s)) i s)
    as (m1 & c1 & s1 & H1 & HI1 & Hi1 & Hl1 & (Hd1 & Hp1 & Hw1 & HPR1) & _ & Hc1);
    try done.
  { intros s' u (Hd' & Hp' & Hw' & HPR') _ Hu.
    destruct (tickEntry_early u s') as [[? ?] ?]; [done|done|by rewrite Hw'|].
    split; [|done]. split_and!; [done|done| |].
    - rewrite <- Hw'. apply tickEntry_evolves.
    - rewrite <- HPR'. apply tickEntry_evolves. }
  { intros msg Hin. rewrite Forall_forall in Hpre. specialize (Hpre msg Hin).
    destruct msg; simpl in Hpre; split; try done; try by intros ? [=].
    by intros ? [= <-]. }
  destruct (tick_step m1 t i s1 Hl1) as (m2 & c2 & H2 & Hl2 & Hc2).
  destruct (tickEntry_due t s1) as [Hp2 Hin2];
    [done|done|by rewrite Hw1|by rewrite Hw1|].
  exists m1, c1, m2, c2, (tickEntry t s1).1.
  split_and!; [done| |done| |done|done|].
  - intros k body b Hin. by eapply Hc1.
  - apply Hc2. by rewrite <- HPR1, <- Hw1.
  - intros post m3 c3 H3. by eapply run_no_repeat.
Qed.

(** C4.  A successful merge-trigger result sets the entry's [CheckAt] to
    the model's current time plus 60 seconds (on the wall clock and on the
    monotonic clock alike) and issues nothing.  "After" is the code's own
    test [m.now.After(s.CheckAt)]: strict, on the monotonic clock readings
    when both times carry one, on the wall-clock instants otherwise.  For
    an entry whose merge has been triggered and whose check has not been
    issued, with a [CheckAt] that is not the zero time: as long as no tick
    is after [CheckAt] no check command is issued for the entry; the first
    tick after [CheckAt] issues the state check for it and sets
    [CheckScheduled]; and no later step issues it again. *)
Theorem merge_success_schedules_check m n idx s :
  reachable m → findScheduledIndex m n = Some idx → scheduled m !! idx = Some s →
  let checkAt := time.Add (now m) (60 * time.Second) in
  ∃ m0,
    Update m (mergeResultMsg n None) = Some (m0, []) ∧
    scheduled m0 !! idx =
      Some (set_LastMessage "Auto-merge set, will check in 1 minute" (set_CheckAt checkAt s)) ∧
    (MergeTriggered s = true → CheckScheduled s = false →
     time.IsZero checkAt = false →
     ∀ pre t,
       Forall (notAfter checkAt n) pre → time.After t checkAt = true →
       ∃ m1 c1 m2 c2 s2,
         run m0 pre = Some (m1, c1) ∧
         (∀ k, (Some idx, checkMergedCmd k) ∉ c1) ∧
         Update m1 (tickMsg t) = Some (m2, c2) ∧
         (Some idx, checkMergedCmd n) ∈ c2 ∧
         scheduled m2 !! idx = Some s2 ∧
         CheckScheduled s2 = true ∧ CheckAt s2 = checkAt ∧
         ∀ post m3 c3,
           run m2 post = Some (m3, c3) → ∀ k, (Some idx, checkMergedCmd k) ∉ c3).
Proof.
  intros Hreach Hi Hl checkAt.
  pose proof (reachable_Inv _ Hreach) as HI.
  destruct (active_entry _ _ _ Hi) as (s' & Hl' & Hn & Hd). simplify_eq.
  destruct (merge_set_step _ _ _ _ Hi Hl) as (m0 & H0 & Hi0 & Hnow & Hl0).
  fold checkAt in Hl0. exists m0. split; [done|]. split; [done|].
  intros Hm Hc Hclock pre t Hpre Ht.
  set (s0 := set_LastMessage "Auto-merge set, will check in 1 minute" (set_CheckAt checkAt s))
    in *.
  destruct (run_bystanders
              (λ s', Done s' = false ∧ MergeTriggered s' = true ∧
                     CheckScheduled s' = false ∧ CheckAt s' = checkAt ∧ PR s' = PR s)
              (λ x, ∀ k, x ≠ checkMergedCmd k)
              (λ u, time.After u checkAt = false)
              m0 pre (Number (PR s)) idx s0)
    as (m1 & c1 & s1 & H1 & HI1 & Hi1 & Hl1 & (Hd1 & Hm1 & Hc1 & Ha1 & HPR1) & _ & Hcs1);
    try done.
  { intros s' u (Hd' & Hm' & Hc' & Ha' & HPR') _ Hu.
    destruct (tickEntry_waiting u s') as [(? & ? & ? & ?) ?];
      [done|done|done|by rewrite Ha'|].
    split; [|done]. split_and!; [done|done|done|congruence|].
    rewrite <- HPR'. apply tickEntry_evolves. }
  { intros msg Hin. rewrite Forall_forall in Hpre. specialize (Hpre msg Hin).
    destruct msg; simpl in Hpre; split; try done; try by intros ? [=].
    by intros ? [= <-]. }
  { by eapply Update_Inv. }
  destruct (tick_step m1 t idx s1 Hl1) as (m2 & c2 & H2 & Hl2 & Hc2).
  destruct (tickEntry_check t s1) as (Hc2' & Ha2 & Hin2);
    [done|done|done|by rewrite Ha1|by rewrite Ha1|].
  exists m1, c1, m2, c2, (tickEntry t s1).1.
  split_and!; [done| |done| |done|done|congruence|].
  - intros k Hin. by eapply Hcs1.
  - apply Hc2. by rewrite <- HPR1.
  - intros post m3 c3 H3. by eapply run_no_repeat.
Qed.

(** C2.  Once the state check of an active entry reports "not merged",
    the entry reaches [Done] through the remediation path, whatever the
    commit fetch, the disable action and the failure comment return and in
    whichever order the last two results arrive: the commit fetch, the
    disable command and the failure comment are issued for the entry, and
    at the end the entry is [Done] with [FailureHandled] set and the
    message that the failure comment's result determines.  A disable result
    never changes the [Done] flag of any entry and issues nothing.  The
    messages in between ([o1], [o2], [o3]) are ticks and whatever is not a
    collaborator result for the entry's PR. *)
Theorem not_merged_reaches_Done m n idx sha shaErr dErr cErr o1 o2 o3 (commentFirst : bool) :
  reachable m → findScheduledIndex m n = Some idx →
  Forall (bystander n) o1 → Forall (bystander n) o2 → Forall (bystander n) o3 →
  (∃ m' c s',
     run m ([checkMergedMsg n false None] ++ o1 ++
            [commitSHAMsg n sha shaErr] ++ o2 ++
            (if commentFirst
             then [commentResultMsg n false cErr] ++ o3 ++ [disableAutoMergeResultMsg n dErr]
             else [disableAutoMergeResultMsg n dErr] ++ o3 ++ [commentResultMsg n false cErr]))
       = Some (m', c) ∧
     (Some idx, getCommitSHACmd n) ∈ c ∧
     (Some idx, disableAutoMergeCmd n) ∈ c ∧
     (Some idx,
      commentPRCmd n
        (failureComment match shaErr with Some _ => "unknown" | None => sha end) false) ∈ c ∧
     scheduled m' !! idx = Some s' ∧
     Done s' = true ∧ FailureHandled s' = true ∧
     LastMessage s' = failureCommentOutcome cErr) ∧
  (∀ m0 k e,
     ∃ m0',
       Update m0 (disableAutoMergeResultMsg k e) = Some (m0', []) ∧
       Done <$> scheduled m0' = Done <$> scheduled m0).
Proof.
  intros Hreach Hi Ho1 Ho2 Ho3. split.
  2:{ intros m0 k e. simpl. destruct (findScheduledIndex m0 k) as [j|]; [|by eauto].
      destruct e; [|by eauto]. eexists. split; [done|]. simpl.
      by apply fmap_alter_same. }
  pose proof (reachable_Inv _ Hreach) as HI.
  destruct (active_entry _ _ _ Hi) as (s & Hl & Hn & Hd).
  destruct (check_not_merged_step _ _ _ _ Hi Hl) as (m1 & H1 & Hi1 & Hl1).
  pose proof (Update_Inv _ _ _ _ H1 HI) as HI1.
  destruct (run_bystanders (λ _, True) (λ _, True) (λ _, True) m1 o1 n idx _
              ltac:(done) (bystanders_any _ _ Ho1) HI1 Hi1 Hl1 I)
    as (m2 & c2 & s2 & H2 & HI2 & Hi2 & Hl2 & _ & _ & _).
  destruct (commitSHA_step _ _ _ _ sha shaErr Hi2 Hl2) as (m3 & H3 & Hi3 & Hl3).
  pose proof (Update_Inv _ _ _ _ H3 HI2) as HI3.
  assert (∀ s0 (t : Time), FailureHandled s0 = true → Done s0 = false → True →
            FailureHandled (tickEntry t s0).1 = true ∧
            ∀ x, x ∈ (tickEntry t s0).2 → True) as Htick.
  { intros s0 t Hf _ _. split; [|done]. by apply tickEntry_evolves. }
  destruct (run_bystanders (λ s0, FailureHandled s0 = true) (λ _, True) (λ _, True)
              m3 o2 n idx _ Htick (bystanders_any _ _ Ho2) HI3 Hi3 Hl3 eq_refl)
    as (m4 & c4 & s4 & H4 & HI4 & Hi4 & Hl4 & Hf4 & _ & _).
  cbn [app].
  rewrite (run_cons _ _ _ _ _ H1), run_app, H2, (run_cons _ _ _ _ _ H3), run_app, H4.
  destruct commentFirst; cbn [app].
  - destruct (failure_comment_step _ _ _ _ cErr Hi4 Hl4) as (m5 & H5 & Hl5).
    pose proof (Update_Inv _ _ _ _ H5 HI4) as HI5.
    destruct (run_total m5 (o3 ++ [disableAutoMergeResultMsg n dErr]) HI5)
      as [[m6 c6] H6].
    destruct (run_done_silent _ _ _ _ _ _ H6 Hl5) as [Hl6 _]; [done|].
    rewrite (run_cons _ _ _ _ _ H5), H6.
    eexists _, _, _. split; [done|].
    split_and!; [find_member..|exact Hl6|done|done|done].
  - destruct (disable_step _ _ _ _ dErr Hi4 Hl4) as (m5 & H5 & Hi5 & Hl5).
    pose proof (Update_Inv _ _ _ _ H5 HI4) as HI5.
    assert (FailureHandled
              match dErr with
              | Some e => set_LastMessage ("Failed to disable auto-merge: " +:+ e) s4
              | None => s4
              end = true) as Hf5 by (by destruct dErr).
    destruct (run_bystanders (λ s0, FailureHandled s0 = true) (λ _, True) (λ _, True)
                m5 o3 n idx _ Htick (bystanders_any _ _ Ho3) HI5 Hi5 Hl5 Hf5)
      as (m6 & c6 & s6 & H6 & HI6 & Hi6 & Hl6 & Hf6 & _ & _).
    destruct (failure_comment_step _ _ _ _ cErr Hi6 Hl6) as (m7 & H7 & Hl7).
    rewrite (run_cons _ _ _ _ _ H5), run_app, H6, (run_cons _ _ _ _ _ H7). cbn [run].
    eexists _, _, _. split; [done|].
    split_and!; [find_member..|exact Hl7|done|done|done].
Qed.

(** ** Further properties *)

(** *** Searching the schedule *)

(** X1.  [findScheduledIndex] returns the index of the first entry of the PR
    that is not [Done], and [-1] exactly when every entry of the PR is
    [Done] (or there is none). *)
Theorem findScheduledIndex_first_active m n :
  match findScheduledIndex m n with
  | Some i =>
      (∃ s, scheduled m !! i = Some s ∧ Number (PR s) = n ∧ Done s = false) ∧
      ∀ j s, scheduled m !! j = Some s → Number (PR s) = n → Done s = false → (i ≤ j)%nat
  | None => ∀ j s, scheduled m !! j = Some s → Number (PR s) = n → Done s = true
  end.
Proof.
  unfold findScheduledIndex. destruct (findActive n (scheduled m)) as [i|] eqn:Hi.
  - split; [by apply findActive_Some|]. intros j s. by apply findActive_first.
  - by apply findActive_None.
Qed.

(** X2.  [hasActiveSchedules] holds exactly when [findScheduledIndex] finds an
    entry for some PR number. *)
Theorem hasActiveSchedules_iff_some_index m :
  hasActiveSchedules m = true ↔ ∃ n i, findScheduledIndex m n = Some i.
Proof.
  unfold hasActiveSchedules, findScheduledIndex. rewrite existsb_exists. split.
  - intros (s & Hin & Hd%negb_true_iff). exists (Number (PR s)).
    destruct (findActive (Number (PR s)) (scheduled m)) as [i|] eqn:Hi; [by eauto|].
    rewrite findActive_None in Hi.
    apply list_elem_of_In, list_elem_of_lookup in Hin as [j Hj].
    specialize (Hi j s Hj eq_refl). congruence.
  - intros (n & i & (s & Hl & _ & Hd)%findActive_Some).
    exists s. split; [|by rewrite Hd].
    apply list_elem_of_In. by eapply list_elem_of_lookup_2.
Qed.

(** *** The panic *)

Lemma Update_None m msg :
  Update m msg = None ↔
  mode_ m = modeTimePicker ∧ schedFor m = None ∧
  ∃ k preset,
    msg = KeyMsg k ∧ keyString k = "enter" ∧
    list_SelectedItem (timePicker m) = Some (timePresetItem preset) ∧
    IsCustom preset = true.
Proof.
  split.
  - destruct msg; simpl; try (repeat case_match; by intros).
    destruct (mode_ m) eqn:Hm.
    + unfold updateListingKey. repeat case_match; by intros.
    + unfold updateTimePickerKey. simpl.
      destruct (String.eqb (keyString k) "enter") eqn:Hk;
        [|repeat case_match; by intros].
      apply String.eqb_eq in Hk.
      destruct (list_SelectedItem (timePicker m)) as [[p|preset]|] eqn:Hsel; try done.
      destruct (IsCustom preset) eqn:Hc; destruct (schedFor m) eqn:Hs; try done.
      intros _. eauto 10.
    + unfold updateSchedulingKey. repeat case_match; by intros.
  - intros (Hm & Hs & k & preset & -> & Hk & Hsel & Hc).
    simpl. rewrite Hm. unfold updateTimePickerKey. simpl.
    by rewrite Hk, Hsel, Hc, Hs.
Qed.

(** X3.  [Update] dereferences [m.schedFor] without a nil check in one place:
    Enter on the custom preset of the time picker.  That is the only way
    [Update] can panic, and in a state the program can reach it does not
    happen: every sequence of messages is handled. *)
Theorem nil_pending_PR_is_unreachable :
  (∀ m msg,
     Update m msg = None ↔
     mode_ m = modeTimePicker ∧ schedFor m = None ∧
     ∃ k preset,
       msg = KeyMsg k ∧ keyString k = "enter" ∧
       list_SelectedItem (timePicker m) = Some (timePresetItem preset) ∧
       IsCustom preset = true) ∧
  (∀ m msgs, reachable m → ∃ m' c, run m msgs = Some (m', c) ∧ reachable m').
Proof.
  split; [apply Update_None|].
  intros m msgs Hr.
  destruct (run_total m msgs (reachable_Inv _ Hr)) as [[m' c] Hrun].
  exists m', c. split; [done|]. by eapply run_reachable.
Qed.

(** *** The fields that mirror a message *)

Lemma Update_mirrors m msg m' c :
  Update m msg = Some (m', c) →
  now m' = default (now m) (tickOf msg) ∧
  lastErr m' = default (lastErr m) (errOf msg) ∧
  me m' = default (me m) (loginOf msg) ∧
  prs m' = default (prs m) (prsOf msg) ∧
  (width m', height m') = default (width m, height m) (sizeOf msg).
Proof.
  destruct msg; simpl;
    try (repeat case_match; intros; by simplify_eq).
  destruct (mode_ m).
  - unfold updateListingKey, applyFilter. repeat case_match; intros; by simplify_eq.
  - unfold updateTimePickerKey. repeat case_match; intros; by simplify_eq.
  - unfold updateSchedulingKey. repeat case_match; intros; by simplify_eq.
Qed.

(** X4.  Five fields only mirror what the messages carried: [m.now] is the
    time of the last tick (not the wall clock), [m.lastErr] the last
    [errMsg], [m.me] the last login, [m.prs] the last PR list, and the size
    the last window size.  In particular no handler ever clears
    [m.lastErr]: once an error has been reported it stays set. *)
Theorem model_mirrors_latest_messages m msgs m' c :
  run m msgs = Some (m', c) →
  now m' = latest tickOf (now m) msgs ∧
  lastErr m' = latest errOf (lastErr m) msgs ∧
  me m' = latest loginOf (me m) msgs ∧
  prs m' = latest prsOf (prs m) msgs ∧
  (width m', height m') = latest sizeOf (width m, height m) msgs ∧
  (lastErr m ≠ None → lastErr m' ≠ None).
Proof.
  unfold latest. revert m m' c.
  induction msgs as [|msg msgs IH]; intros m m' c Hrun; simpl in Hrun.
  - by simplify_eq.
  - destruct (Update m msg) as [[m1 c1]|] eqn:HU; [|done].
    destruct (run m1 msgs) as [[m2 c2]|] eqn:Hrun1; [|done]. simplify_eq.
    destruct (Update_mirrors _ _ _ _ HU) as (Hn & He & Hme & Hp & Hsz).
    destruct (IH _ _ _ Hrun1) as (IHn & IHe & IHme & IHp & IHsz & IHset).
    simpl. rewrite <- Hn, <- He, <- Hme, <- Hp, <- Hsz.
    split_and!; try done.
    intros Hset. apply IHset. rewrite He. by destruct msg.
Qed.

(** *** The mode and the pending PR *)

Lemma Update_mode_schedFor m msg m' c :
  (mode_ m = modeListing ↔ schedFor m = None) →
  Update m msg = Some (m', c) →
  (mode_ m' = modeListing ↔ schedFor m' = None).
Proof.
  intros H. destruct msg; simpl;
    try (repeat case_match; intros; simplify_eq; simpl in *; by intuition congruence).
  destruct (mode_ m) eqn:Hm.
  - unfold updateListingKey, applyFilter.
    repeat case_match; intros; simplify_eq; simpl in *; rewrite ?Hm; intuition congruence.
  - unfold updateTimePickerKey.
    repeat case_match; intros; simplify_eq; simpl in *; rewrite ?Hm; intuition congruence.
  - unfold updateSchedulingKey.
    repeat case_match; intros; simplify_eq; simpl in *; rewrite ?Hm; intuition congruence.
Qed.

Lemma reachable_mode_schedFor m :
  reachable m → (mode_ m = modeListing ↔ schedFor m = None).
Proof.
  induction 1 as [t0|m msg m' c _ IH HU]; [done|]. by eapply Update_mode_schedFor.
Qed.

(** X5.  In every reachable state a PR is pending ([m.schedFor] is not nil)
    exactly while a time is being chosen for it (the mode is the time
    picker or the custom input), and then that PR has no active entry.
    So the two [if m.schedFor == nil] branches that report "No PR selected
    to schedule." are never taken. *)
Theorem pending_PR_iff_choosing_time m :
  reachable m →
  (mode_ m = modeListing ↔ schedFor m = None) ∧
  (∀ p, schedFor m = Some p → findScheduledIndex m (Number p) = None).
Proof.
  intros Hr. pose proof (reachable_mode_schedFor _ Hr) as Hiff.
  split; [done|]. intros p Hp.
  destruct (reachable_Inv _ Hr) as [_ Hfree].
  destruct Hfree as (p' & Hp' & Hnone); [|by simplify_eq].
  intros Hm. apply Hiff in Hm. congruence.
Qed.

(** *** Quitting *)

Lemma Update_quitWarned m msg m' c :
  (∀ k, msg ≠ KeyMsg k) → Update m msg = Some (m', c) → quitWarned m' = quitWarned m.
Proof.
  intros Hk. destruct msg; simpl; try (repeat case_match; intros; by simplify_eq).
  by destruct (Hk k).
Qed.

(** X6.  In the PR list, "q" or "ctrl+c" quits at once when no entry is active
    or the warning has been shown.  Otherwise it only shows the warning,
    and the same key pressed next quits.  Any other key pressed in the
    list withdraws the warning; a message that is not a key (a tick, a
    result) leaves it standing. *)
Theorem quit_needs_confirmation m k :
  mode_ m = modeListing →
  keyString k = "q" ∨ keyString k = "ctrl+c" →
  (if hasActiveSchedules m && negb (quitWarned m)
   then ∃ m1,
          Update m (KeyMsg k) = Some (m1, []) ∧
          quitWarned m1 = true ∧ scheduled m1 = scheduled m ∧
          status m1 = "Warning: Active scheduled merges! Press 'q' again to force quit." ∧
          Update m1 (KeyMsg k) = Some (m1, [(None, Quit)])
   else Update m (KeyMsg k) = Some (m, [(None, Quit)])) ∧
  (∀ k' m' c,
     keyString k' ≠ "q" → keyString k' ≠ "ctrl+c" →
     Update m (KeyMsg k') = Some (m', c) → quitWarned m' = false) ∧
  (∀ msg m' c,
     (∀ k', msg ≠ KeyMsg k') →
     Update m msg = Some (m', c) → quitWarned m' = quitWarned m).
Proof.
  intros Hm Hk.
  assert (String.eqb (keyString k) "q" || String.eqb (keyString k) "ctrl+c" = true) as Hq.
  { destruct Hk as [-> | ->]; done. }
  split_and!.
  - destruct (hasActiveSchedules m && negb (quitWarned m)) eqn:Hw.
    + eexists. simpl. rewrite Hm. unfold updateListingKey. rewrite Hq, Hw.
      split_and!; [done..|]. simpl. by rewrite Hm, andb_false_r.
    + simpl. rewrite Hm. unfold updateListingKey. by rewrite Hq, Hw.
  - intros k' m' c H1%String.eqb_neq H2%String.eqb_neq. simpl. rewrite Hm.
    unfold updateListingKey, applyFilter. rewrite H1, H2. simpl.
    repeat case_match; intros; by simplify_eq.
  - intros msg m' c. apply Update_quitWarned.
Qed.

(** *** Confirming a preset *)


(** *** Scheduling a PR again *)

Lemma result_keeps_widgets m msg n m' c :
  prNumberOf msg = Some n → Update m msg = Some (m', c) →
  list_ m' = list_ m ∧ mode_ m' = mode_ m ∧ quitWarned m' = quitWarned m.
Proof.
  destruct msg; simpl; try done; intros _;
    repeat case_match; intros; by simplify_eq.
Qed.

(** X8.  While a PR has an active entry, Enter on it in the list is refused.
    As soon as a result has marked that entry [Done], the PR has no active
    entry any more and Enter on it opens the time picker for it. *)
Theorem finished_PR_can_be_scheduled_again m msg n idx m1 c s1 p k :
  reachable m → mode_ m = modeListing →
  list_SelectedItem (list_ m) = Some (prItem p) → Number p = n →
  keyString k = "enter" →
  findScheduledIndex m n = Some idx →
  prNumberOf msg = Some n → Update m msg = Some (m1, c) →
  scheduled m1 !! idx = Some s1 → Done s1 = true →
  (∃ m0,
     Update m (KeyMsg k) = Some (m0, []) ∧
     mode_ m0 = modeListing ∧ schedFor m0 = None ∧
     status m0 = "PR #" +:+ Itoa n +:+ " already has a scheduled merge") ∧
  findScheduledIndex m1 n = None ∧
  ∃ m2,
    Update m1 (KeyMsg k) = Some (m2, []) ∧
    mode_ m2 = modeTimePicker ∧ schedFor m2 = Some p ∧
    scheduled m2 = scheduled m1 ∧
    status m2 = "Select merge time for PR #" +:+ Itoa n.
Proof.
  intros Hr Hm Hsel <- Hk Hi Hn HU Hl1 Hd1.
  pose proof (reachable_mode_schedFor _ Hr) as Hiff.
  destruct (reachable_Inv _ Hr) as [Hu _].
  pose proof (result_done_index _ _ _ _ _ _ _ HU Hn Hu Hi Hl1 Hd1) as Hnone.
  destruct (result_keeps_widgets _ _ _ _ _ Hn HU) as (Hlist & Hmode & _).
  split_and!; [|done|].
  - eexists. simpl. rewrite Hm. unfold updateListingKey. rewrite Hk. simpl.
    rewrite Hsel. unfold findScheduledIndex in *. simpl. rewrite Hi.
    split; [done|]. simpl. split; [done|]. split; [by apply Hiff|done].
  - eexists. simpl. rewrite Hmode, Hm. unfold updateListingKey. rewrite Hk. simpl.
    rewrite Hlist, Hsel. unfold findScheduledIndex in *. simpl. rewrite Hnone.
    done.
Qed.

(** *** The filter *)

Lemma filter_all {A} (f : A → bool) l : (∀ x, f x = true) → List.filter f l = l.
Proof.
  intros Hf. induction l as [|x l IH]; simpl; [done|]. by rewrite Hf, IH.
Qed.

Lemma filter_decide {A} (f : A → bool) (P : A → Prop) `{∀ x, Decision (P x)} l :
  (∀ x, f x = true ↔ P x) → List.filter f l = filter P l.
Proof.
  intros Hf. induction l as [|x l IH]; simpl; [done|].
  rewrite filter_cons, IH. destruct (decide (P x)) as [HP|HP].
  - apply Hf in HP. by rewrite HP.
  - destruct (f x) eqn:Hx; [|done]. by apply Hf in Hx.
Qed.

(** X9.  [applyFilter] hands the list widget exactly the PRs of [m.prs]
    that pass the filter, each as often as it occurs and in the order of
    [m.prs]: a PR passes unless "only mine" is on, the login is known
    (non-empty) and the PR's author is not the login.  So with "only mine"
    off, or on with the login still unknown, nothing is filtered out.  The
    status line reports how many are shown, and nothing else of the model
    changes. *)
Theorem applyFilter_shows m :
  let passes p :=
    negb (onlyMine m) || String.eqb (me m) "" || String.eqb (Author p) (me m) in
  let shown := List.filter passes (prs m) in
  list_ (applyFilter m) = list_SetItems (list_ m) (prItem <$> shown) ∧
  status (applyFilter m) =
    Itoa (Z.of_nat (length shown)) +:+ " PRs (onlyMine=" +:+ fmtBool (onlyMine m) +:+ ")" ∧
  shown `sublist_of` prs m ∧
  (∀ p, p ∈ shown ↔
        p ∈ prs m ∧ (onlyMine m = true → me m ≠ "" → Author p = me m)) ∧
  (onlyMine m = false ∨ me m = "" → shown = prs m) ∧
  prs (applyFilter m) = prs m ∧ onlyMine (applyFilter m) = onlyMine m ∧
  me (applyFilter m) = me m ∧ scheduled (applyFilter m) = scheduled m ∧
  mode_ (applyFilter m) = mode_ m ∧ schedFor (applyFilter m) = schedFor m.
Proof.
  intros passes shown. unfold applyFilter.
  destruct (onlyMine m && negb (String.eqb (me m) "")) eqn:Hf.
  - apply andb_true_iff in Hf as [Ho Hme%negb_true_iff].
    assert (shown = filter (λ p, Author p = me m) (prs m)) as ->.
    { apply filter_decide. intros p. unfold passes. rewrite Ho, Hme. simpl.
      apply String.eqb_eq. }
    apply String.eqb_neq in Hme.
    split_and!; [done|done|apply sublist_filter| | |done..].
    + intros p. rewrite list_elem_of_filter. split.
      * intros [Ha Hin]. split; [done|]. by intros.
      * intros [Hin Ha]. split; [by apply Ha|done].
    + intros [H|H]; congruence.
  - assert (shown = prs m) as ->.
    { apply filter_all. intros p. unfold passes.
      destruct (onlyMine m); [|done]. simpl in *.
      apply negb_false_iff in Hf. by rewrite Hf. }
    split_and!; [done|done|done| |done..].
    intros p. split; [|by intros [? _]]. intros Hin. split; [done|].
    intros Ho Hme. rewrite Ho in Hf. simpl in Hf.
    apply negb_false_iff, String.eqb_eq in Hf. done.
Qed.

(** *** The running program: the clock *)

Lemma ticks_app l1 l2 : ticks (l1 ++ l2) = ticks l1 ++ ticks l2.
Proof. apply List.filter_app. Qed.

Lemma ticks_widget (l : list string) : ticks (cmdsOf (untied (widgetCmd <$> l))) = [].
Proof. induction l as [|x l IH]; [done|]. exact IH. Qed.

Lemma ticks_tickLoop t i l : ticks (cmdsOf (tickLoop t i l).2) = [].
Proof.
  revert i. induction l as [|s l IH]; intros i; simpl; [done|].
  destruct (tickEntry t s) as [s' c] eqn:He.
  specialize (IH (S i)). destruct (tickLoop t (S i) l) as [l' cs]. simpl in *.
  rewrite cmdsOf_app, ticks_app, IH, cmdsOf_tied, app_nil_r.
  assert (c = (tickEntry t s).2) as -> by (by rewrite He). clear He.
  unfold tickEntry. repeat case_match; by simplify_eq/=.
Qed.

Lemma Update_ticks m msg m' c :
  Update m msg = Some (m', c) →
  ticks (cmdsOf c) = match msg with tickMsg _ => [tickCmd] | _ => [] end.
Proof.
  destruct msg; simpl;
    try (repeat case_match; intros; simplify_eq; first [done|apply ticks_widget]).
  - pose proof (ticks_tickLoop t 0 (scheduled m)) as H.
    destruct (tickLoop t 0 (scheduled m)) as [l cs]. intros [= <- <-].
    simpl in H. by rewrite cmdsOf_app, ticks_app, H.
  - destruct (mode_ m).
    + unfold updateListingKey. repeat case_match; intros; simplify_eq;
        first [done|apply ticks_widget].
    + unfold updateTimePickerKey. repeat case_match; intros; simplify_eq;
        first [done|apply ticks_widget].
    + unfold updateSchedulingKey. repeat case_match; intros; simplify_eq;
        first [done|apply ticks_widget].
Qed.

(** X10.  In the running program exactly one tick timer is in flight at any
    time: only the tick handler starts one, it starts exactly one, and
    nothing else does.  The clock neither stops nor doubles. *)
Theorem one_tick_in_flight σ : sys_reachable σ → ticks σ.2 = [tickCmd].
Proof.
  induction 1 as [t0|σ σ' _ IH Hstep]; [done|].
  destruct Hstep as [m l1 cmd l2 msg m' c Hprod HU|m l msg m' c Hext HU];
    cbn [fst snd] in *; apply Update_ticks in HU.
  - rewrite ticks_app in IH. rewrite !ticks_app, HU.
    destruct Hprod; simpl in *; rewrite ?app_nil_r; try done.
    (* the tick that fired is replaced by the one its handler starts *)
    destruct (ticks l1) as [|x [|? ?]], (ticks l2) as [|y ?]; by simplify_eq/=.
  - rewrite ticks_app, HU, IH. by destruct msg.
Qed.

(** *** The running program: the requests in flight *)

(** X11.  In the running program at most one request that drives the workflow
    of a PR is in flight, and each such request belongs to the active
    entry of its PR at the stage that issues it: a pre-merge comment in
    [CommentIssuing], a merge in [MergeIssuing], a check or a commit
    fetch in [CheckIssuing], a failure comment in [RemediationIssuing]. *)
Theorem requests_in_flight_match_stage σ n :
  sys_reachable σ →
  (length (pending n σ.2) ≤ 1)%nat ∧
  ∀ x, x ∈ σ.2 → drives n x = true →
    ∃ i s,
      findScheduledIndex σ.1 n = Some i ∧ scheduled σ.1 !! i = Some s ∧
      stageOf s =
        match x with
        | commentPRCmd _ _ true => CommentIssuing
        | mergePRCmd _ => MergeIssuing
        | checkMergedCmd _ | getCommitSHACmd _ => CheckIssuing
        | _ => RemediationIssuing
        end.
Proof.
  intros [_ Hall]%sys_reachable_inStepAll. specialize (Hall n).
  destruct (findScheduledIndex σ.1 n) as [i|] eqn:Hi.
  2:{ rewrite Hall. split; [simpl; lia|]. intros x Hin Hd.
      assert (x ∈ pending n σ.2) as Hp
        by (apply list_elem_of_In, List.filter_In; split; [by apply list_elem_of_In|done]).
      rewrite Hall in Hp. by apply elem_of_nil in Hp. }
  destruct Hall as (s & Hl & Hin).
  destruct (active_entry _ _ _ Hi) as (s0 & ? & Hnum & Hd). simplify_eq.
  split.
  - unfold inStep in Hin.
    destruct (PreMergeCommentPosted s), (MergeTriggered s), (CheckScheduled s),
      (FailureHandled s); try done;
      repeat match goal with
             | H : _ ∧ _ |- _ => destruct H
             | H : _ ∨ _ |- _ => destruct H
             | H : ∃ _, _ |- _ => destruct H
             | H : pending _ _ = _ |- _ => rewrite H
             end; simpl; lia.
  - intros x Hx Hdx. exists i, s. split; [done|]. split; [done|].
    assert (x ∈ pending (Number (PR s)) σ.2) as Hp
      by (apply list_elem_of_In, List.filter_In; split; [by apply list_elem_of_In|done]).
    apply list_elem_of_split in Hp as (a & b & Hp). rewrite Hp in Hin.
    apply inStep_single in Hin as (_ & _ & Hin). apply inStep_flags in Hin.
    unfold stageOf. rewrite Hd.
    destruct x as [| | | | ? ? [|]| | | | | |]; try done;
      destruct Hin as (_ & HP & HM & HC & HF & _) || destruct Hin as (_ & HP & HM & HC & HF);
      by rewrite HP, HM, HC, HF.
Qed.

(** X12.  In the running program the flags of an active entry are set in
    order: [FailureHandled] only after [CheckScheduled], that only after
    [MergeTriggered], that only after [PreMergeCommentPosted]; and
    [CheckAt] is the zero time until the merge has been triggered. *)
Theorem flags_are_set_in_order σ i s :
  sys_reachable σ → scheduled σ.1 !! i = Some s → Done s = false →
  (FailureHandled s = true → CheckScheduled s = true) ∧
  (CheckScheduled s = true → MergeTriggered s = true) ∧
  (MergeTriggered s = true → PreMergeCommentPosted s = true) ∧
  (MergeTriggered s = false → CheckAt s = time.zero).
Proof.
  intros [[Hu _] Hall]%sys_reachable_inStepAll Hl Hd.
  specialize (Hall (Number (PR s))). unfold findScheduledIndex in Hall.
  rewrite (findActive_unique _ _ _ _ Hu Hl eq_refl Hd) in Hall.
  destruct Hall as (s' & Hl' & Hin). rewrite Hl in Hl'. injection Hl' as <-.
  unfold inStep in Hin.
  destruct (PreMergeCommentPosted s), (MergeTriggered s), (CheckScheduled s),
    (FailureHandled s); try done; split_and!; try done; by destruct Hin.
Qed.

(** X13.  The state that [View] prints for an entry is a function of the stage
    of the entry, in every state of the running program: "pending" until
    the merge has been triggered (the pre-merge comment in flight
    included), "auto-merge set, waiting to check" from then until the check
    is issued (the merge in flight included), "checking..." from then on,
    through the whole remediation, and "done" at the end. *)
Theorem summary_state_follows_stage σ i s :
  sys_reachable σ → scheduled σ.1 !! i = Some s →
  state s =
    match stageOf s with
    | Scheduled | CommentIssuing => "pending"
    | MergeIssuing => "auto-merge set, waiting to check"
    | CheckIssuing | RemediationIssuing => "checking..."
    | Terminal => "done"
    end.
Proof.
  intros Hr Hl. unfold state, stageOf. destruct (Done s) eqn:Hd; [done|].
  destruct (sys_reachable_inStepAll _ Hr) as [[Hu _] Hall].
  specialize (Hall (Number (PR s))). unfold findScheduledIndex in Hall.
  rewrite (findActive_unique _ _ _ _ Hu Hl eq_refl Hd) in Hall.
  destruct Hall as (s' & Hl' & Hin). rewrite Hl in Hl'. injection Hl' as <-.
  unfold inStep in Hin.
  by destruct (PreMergeCommentPosted s), (MergeTriggered s), (CheckScheduled s),
    (FailureHandled s).
Qed.

(** *** The command bodies *)

(** X14.  Whatever its process does, a command comes back with a message that
    the running program's model of the collaborators allows ([produces]):
    a result carries the PR number of the command that asked for it, a
    comment result carries the command's [isPreMerge] flag, and a check
    reports "merged" only when the process succeeded and printed exactly
    MERGED (surrounding white space aside). *)
Theorem command_results_are_routed (Unmarshal : string → list raw.t + string) x o msg :
  exec Unmarshal x o = Some msg →
  produces x msg ∧
  (∀ n, drives n x = true ∨ x = disableAutoMergeCmd n → prNumberOf msg = Some n) ∧
  (∀ n b isPreMerge, x = commentPRCmd n b isPreMerge →
     ∃ err, msg = commentResultMsg n isPreMerge err) ∧
  (∀ n e, x = checkMergedCmd n → msg = checkMergedMsg n true e →
     e = None ∧ ∃ out, o = exited out None ∧ TrimSpace out = "MERGED").
Proof.
  intros Hx. split_and!.
  - destruct x, o as [out [e|]|t]; simplify_eq/=; try constructor.
    all: unfold body.fetchPRsCmd; destruct (Unmarshal out); constructor.
  - intros n [Hd| ->].
    + destruct x, o as [out [e|]|t]; simplify_eq/=; by apply Z.eqb_eq in Hd as ->.
    + by destruct o as [out [e|]|t]; simplify_eq/=.
  - intros n b isPreMerge ->. destruct o as [out [e|]|t]; simplify_eq/=; eauto.
  - intros n e -> ->. destruct o as [out [e'|]|t]; simplify_eq/=.
    apply String.eqb_eq in Hx. eauto.
Qed.

(** X15.  [fetchPRsCmd] answers with the PR list only when [gh] succeeded and
    its output was decoded; a failure of either is an [errMsg], never an
    empty list.  The list has one PR per decoded row, in the order of the
    rows, with the row's fields, except that an empty merge state becomes
    "unknown": no PR of the list has an empty merge state. *)
Theorem fetched_PR_list (Unmarshal : string → list raw.t + string) out err l :
  body.fetchPRsCmd Unmarshal out err = prListMsg l →
  err = None ∧
  ∃ rows,
    Unmarshal out = inl rows ∧
    length l = length rows ∧
    (∀ i r, rows !! i = Some r →
       ∃ p, l !! i = Some p ∧
            Number p = raw.Number r ∧ Title p = raw.Title r ∧
            Author p = raw.Login (raw.Author r) ∧ State p = raw.State r ∧
            URL p = raw.URL r ∧
            MergeState p =
              if String.eqb (raw.MergeStateStatus r) "" then "unknown"
              else raw.MergeStateStatus r) ∧
    (∀ p, p ∈ l → MergeState p ≠ "").
Proof.
  unfold body.fetchPRsCmd. destruct err as [e|]; [done|].
  destruct (Unmarshal out) as [rows|e]; [|done]. intros [= <-].
  split; [done|]. exists rows. split_and!; [done|by rewrite length_fmap| |].
  - intros i r Hr. eexists. rewrite list_lookup_fmap, Hr. by split.
  - intros p (r & -> & _)%list_elem_of_fmap. unfold body.row. simpl.
    destruct (String.eqb (raw.MergeStateStatus r) "") eqn:He; [done|].
    by apply String.eqb_neq.
Qed.

(** X16.  No two commands start the same process, except a pre-merge comment
    and a failure comment on the same PR with the same body: [gh] is told
    the PR number and nothing of what the comment is for. *)
Theorem argv_tells_commands_apart x y a :
  argv x = Some a → argv y = Some a →
  x = y ∨
  ∃ n b isPreMerge isPreMerge',
    x = commentPRCmd n b isPreMerge ∧ y = commentPRCmd n b isPreMerge'.
Proof.
  destruct x, y; simpl; intros [= <-] [= ]; simplify_eq;
    repeat match goal with
           | H : Itoa _ = Itoa _ |- _ => apply (inj pretty) in H; subst
           end;
    first [by left|right; eauto 10].
Qed.

(** *** Confirming a custom time that parses *)



(** *** The running program: what each stage waits for *)

(** X18.  In the running program an active entry is never left without the
    request its stage waits for: in [CommentIssuing] exactly one
    pre-merge comment for its PR is in flight, in [CheckIssuing] exactly
    one check or one commit fetch, in [RemediationIssuing] exactly one
    failure comment; in [MergeIssuing] the merge is in flight or the entry
    waits for the clock to pass [CheckAt]; in [Scheduled] nothing is in
    flight and the entry waits for the clock to pass [When]. *)
Theorem every_stage_has_its_request σ i s :
  sys_reachable σ → scheduled σ.1 !! i = Some s → Done s = false →
  let n := Number (PR s) in
  let p := pending n σ.2 in
  match stageOf s with
  | Scheduled => p = []
  | CommentIssuing => ∃ b, p = [commentPRCmd n b true]
  | MergeIssuing => p = [mergePRCmd n] ∨ p = []
  | CheckIssuing => p = [checkMergedCmd n] ∨ p = [getCommitSHACmd n]
  | RemediationIssuing => ∃ b, p = [commentPRCmd n b false]
  | Terminal => False
  end.
Proof.
  intros [[Hu _] Hall]%sys_reachable_inStepAll Hl Hd. cbv zeta.
  specialize (Hall (Number (PR s))). unfold findScheduledIndex in Hall.
  rewrite (findActive_unique _ _ _ _ Hu Hl eq_refl Hd) in Hall.
  destruct Hall as (s' & Hl' & Hin). rewrite Hl in Hl'. injection Hl' as <-.
  unfold inStep in Hin. unfold stageOf. rewrite Hd.
  destruct (PreMergeCommentPosted s), (MergeTriggered s), (CheckScheduled s),
    (FailureHandled s); try done; try (by destruct Hin).
  destruct Hin as [[? _]|?]; auto.
Qed.

(** *** The successful workflow, end to end *)

Lemma issuedFor_app i a b : issuedFor i (a ++ b) = issuedFor i a ++ issuedFor i b.
Proof. unfold issuedFor. by rewrite List.filter_app, fmap_app. Qed.

Lemma issuedFor_tied i j cs :
  issuedFor i (tied j cs) = if bool_decide (j = i) then cs else [].
Proof.
  unfold issuedFor, tied. induction cs as [|x cs IH]; csimpl; [by case_bool_decide|].
  repeat case_bool_decide; simplify_eq/=; try done; by rewrite IH.
Qed.

Lemma issuedFor_untied i cs : issuedFor i (untied cs) = [].
Proof. unfold issuedFor, untied. induction cs as [|x cs IH]; csimpl; done. Qed.

Lemma issuedFor_tickLoop t k l i s :
  l !! i = Some s → issuedFor (k + i) (tickLoop t k l).2 = (tickEntry t s).2.
Proof.
  revert k i. induction l as [|s0 l IH]; intros k i; [done|]. simpl.
  destruct (tickEntry t s0) as [s0' c0] eqn:H0.
  destruct (tickLoop t (S k) l) as [l' cs] eqn:Hl. simpl.
  rewrite issuedFor_app, issuedFor_tied.
  destruct i as [|i]; simpl.
  - intros [= ->]. rewrite H0. simpl. rewrite Nat.add_0_r, bool_decide_true by done.
    assert (issuedFor k cs = []) as ->; [|by rewrite app_nil_r].
    assert (cs = (tickLoop t (S k) l).2) as -> by (by rewrite Hl). clear.
    assert (∀ j, (k < j)%nat → issuedFor k (tickLoop t j l).2 = []) as H; [|apply H; lia].
    induction l as [|s l IH]; intros j Hj; simpl; [done|].
    destruct (tickEntry t s) as [s' c]. specialize (IH (S j) ltac:(lia)).
    destruct (tickLoop t (S j) l) as [l' cs]. simpl in *.
    rewrite issuedFor_app, issuedFor_tied, IH, bool_decide_false by lia. done.
  - intros Hi. rewrite bool_decide_false by lia. simpl.
    specialize (IH (S k) i Hi). rewrite Hl in IH. simpl in IH.
    by replace (k + S i)%nat with (S k + i)%nat by lia.
Qed.

Lemma tick_step_exact m t i s :
  scheduled m !! i = Some s →
  ∃ m' c,
    Update m (tickMsg t) = Some (m', c) ∧
    scheduled m' !! i = Some (tickEntry t s).1 ∧
    issuedFor i c = (tickEntry t s).2 ∧
    now m' = t ∧
    ∀ n, findScheduledIndex m' n = findScheduledIndex m n.
Proof.
  intros Hl. simpl.
  pose proof (tickLoop_fst t 0 (scheduled m)) as Hf.
  pose proof (issuedFor_tickLoop t 0 (scheduled m) i s Hl) as Hc.
  destruct (tickLoop t 0 (scheduled m)) as [l cs]. simpl in *.
  eexists _, _. split; [done|]. simpl. split_and!.
  - by rewrite Hf, list_lookup_fmap, Hl.
  - change [(None, tickCmd)] with (untied [tickCmd]).
    by rewrite issuedFor_app, Hc, issuedFor_untied, app_nil_r.
  - done.
  - intros n. unfold findScheduledIndex. simpl. rewrite Hf.
    apply findActive_fmap. intros s0. split; [apply tickEntry_Done|apply tickEntry_PR].
Qed.

(** X19.  The whole workflow when everything succeeds.  "After" is the
    code's own test [m.now.After(...)].  For an active entry on which
    nothing has been issued yet, scheduled at a time that is not the zero
    time: a tick [t1] after its time, the answer to the pre-merge comment,
    the answer to the merge, a tick [t2] after [t1] plus 60 seconds (a time
    that must not be the zero time, or the check would never be issued),
    and the check finding the PR merged issue exactly three requests for
    the entry, in this order: the pre-merge comment, the merge, the check.
    The entry ends [Done] with the message "PR is merged" and with
    [CheckAt] at [t1] plus 60 seconds, and its PR has no active entry any
    more. *)
Theorem successful_workflow m idx s t1 t2 :
  reachable m → scheduled m !! idx = Some s → Done s = false →
  PreMergeCommentPosted s = false → MergeTriggered s = false →
  CheckScheduled s = false →
  time.IsZero (When s) = false → time.After t1 (When s) = true →
  let checkAt := time.Add t1 (60 * time.Second) in
  time.IsZero checkAt = false → time.After t2 checkAt = true →
  let n := Number (PR s) in
  ∃ m' c s',
    run m [tickMsg t1; commentResultMsg n true None; mergeResultMsg n None;
           tickMsg t2; checkMergedMsg n true None] = Some (m', c) ∧
    issuedFor idx c =
      [commentPRCmd n
         ("Setting PR to auto-merge. Scheduled merge time: " +:+ Format (When s) layout) true;
       mergePRCmd n; checkMergedCmd n] ∧
    scheduled m' !! idx = Some s' ∧
    Done s' = true ∧ LastMessage s' = "PR is merged" ∧
    PR s' = PR s ∧ When s' = When s ∧
    CheckAt s' = checkAt ∧
    findScheduledIndex m' n = None.
Proof.
  intros Hr Hl Hd HP HM HC Hz Ht1 checkAt Hz3 Ht2 n.
  destruct (reachable_Inv _ Hr) as [Hu _].
  assert (findScheduledIndex m n = Some idx) as Hi by (by eapply findActive_unique).
  (* the first tick *)
  destruct (tick_step_exact m t1 idx s Hl) as (m1 & c1 & HU1 & Hl1 & Hc1 & Hn1 & Hi1).
  assert (tickEntry t1 s =
          (set_LastMessage ("Posting pre-merge comment for PR #" +:+ Itoa n)
             (set_PreMergeCommentPosted true s),
           [commentPRCmd n
              ("Setting PR to auto-merge. Scheduled merge time: " +:+ Format (When s) layout)
              true])) as He1.
  { unfold tickEntry. rewrite Hd, HP, Hz, Ht1. simpl. by rewrite HM. }
  rewrite He1 in Hl1, Hc1. simpl in Hl1, Hc1. rewrite <- Hi1 in Hi.
  (* the pre-merge comment is answered *)
  destruct (pre_comment_step _ _ _ _ None Hi Hl1) as (m2 & HU2 & Hi2 & Hl2).
  (* the merge is answered *)
  destruct (merge_set_step _ _ _ _ Hi2 Hl2) as (m3 & HU3 & Hi3 & Hn3 & Hl3).
  assert (now m2 = t1) as Hn2.
  { destruct (Update_mirrors _ _ _ _ HU2) as [-> _]. done. }
  rewrite Hn2 in Hl3. fold checkAt in Hl3. clearbody checkAt.
  (* the second tick *)
  destruct (tick_step_exact m3 t2 idx _ Hl3) as (m4 & c4 & HU4 & Hl4 & Hc4 & _ & Hi4).
  match type of Hl4 with _ = Some (tickEntry _ ?e).1 => set (s3 := e) in * end.
  assert (tickEntry t2 s3 =
          (set_LastMessage ("Checking merge status for PR #" +:+ Itoa n)
             (set_CheckScheduled true s3),
           [checkMergedCmd n])) as He4.
  { unfold tickEntry, s3. simpl. rewrite Hd. simpl. by rewrite HC, Hz3, Ht2. }
  rewrite He4 in Hl4, Hc4. simpl in Hl4, Hc4. rewrite <- Hi4 in Hi3.
  (* the check finds the PR merged *)
  destruct (terminal_step m4 n idx _ (checkMergedMsg n true None) "" ltac:(auto) Hi3 Hl4)
    as (m5 & y & HU5 & Hl5 & ->).
  assert (uniqueActive (scheduled m4)) as Hu4.
  { assert (reachable m4) as Hr4
      by (repeat (eapply reachable_step; [|eassumption]); exact Hr).
    by destruct (reachable_Inv _ Hr4). }
  pose proof (result_done_index _ _ _ _ _ _ _ HU5 eq_refl Hu4 Hi3 Hl5 eq_refl) as Hnone.
  eexists m5, _, _. split_and!; [|..|exact Hnone].
  - rewrite (run_cons _ _ _ _ _ HU1), (run_cons _ _ _ _ _ HU2), (run_cons _ _ _ _ _ HU3),
      (run_cons _ _ _ _ _ HU4), (run_cons _ _ _ _ _ HU5). reflexivity.
  - rewrite !issuedFor_app, Hc1, Hc4. change [(Some idx, mergePRCmd n)] with (tied idx [mergePRCmd n]).
    rewrite issuedFor_tied, bool_decide_true by done. done.
  - exact Hl5.
  - done.
  - done.
  - done.
  - done.
  - done.
Qed.

(** *** What [View] keeps showing *)

Lemma string_app_assoc (a b c : string) : (a +:+ b) +:+ c = a +:+ b +:+ c.
Proof.
  induction a as [|x a IH]; [done|].
  change (String x ((a +:+ b) +:+ c) = String x (a +:+ b +:+ c)). by rewrite IH.
Qed.

Lemma string_app_nil_r (a : string) : a +:+ "" = a.
Proof.
  induction a as [|x a IH]; [done|].
  change (String x (a +:+ "") = String x a). by rewrite IH.
Qed.

Lemma concat_cons (x : string) l : String.concat "" (x :: l) = x +:+ String.concat "" l.
Proof. destruct l; simpl; [by rewrite string_app_nil_r|done]. Qed.

Lemma concat_middle l1 (x : string) l2 :
  String.concat "" (l1 ++ x :: l2) = String.concat "" l1 +:+ x +:+ String.concat "" l2.
Proof.
  induction l1 as [|y l1 IH]; [apply concat_cons|].
  change ((y :: l1) ++ x :: l2) with (y :: (l1 ++ x :: l2)).
  by rewrite !concat_cons, IH, string_app_assoc.
Qed.

Lemma run_lastErr_set m msgs m' c :
  run m msgs = Some (m', c) → lastErr m ≠ None → lastErr m' ≠ None.
Proof.
  revert m m' c. induction msgs as [|msg msgs IH]; intros m m' c Hrun; simpl in Hrun.
  - by simplify_eq.
  - destruct (Update m msg) as [[m1 c1]|] eqn:HU; [|done].
    destruct (run m1 msgs) as [[m2 c2]|] eqn:Hrun1; [|done]. simplify_eq.
    destruct (Update_mirrors _ _ _ _ HU) as (_ & He & _).
    intros Hset. apply (IH _ _ _ Hrun1). rewrite He. by destruct msg.
Qed.

Lemma app_5 (a b c d e x : string) :
  a +:+ b +:+ c +:+ d +:+ e +:+ x = (a +:+ b +:+ c +:+ d +:+ e) +:+ x.
Proof. by rewrite !string_app_assoc. Qed.

Lemma app_6 (a b c d e f x : string) :
  a +:+ b +:+ c +:+ d +:+ e +:+ f +:+ x = (a +:+ b +:+ c +:+ d +:+ e +:+ f) +:+ x.
Proof. by rewrite !string_app_assoc. Qed.

Section Shown.
Context {styles : Styles}.

Lemma View_error m e :
  lastErr m = Some e →
  ∃ pre post, View m = pre +:+ errStyle_Render ("Error: " +:+ e) +:+ newline +:+ post.
Proof.
  intros He. unfold View. cbv zeta. rewrite He. rewrite app_6.
  match goal with
  | |- ∃ pre post, ?P +:+ (?X +:+ ?n) +:+ ?R = _ => exists P, R
  end.
  by rewrite (string_app_assoc (errStyle_Render _) newline).
Qed.

Lemma View_entry m i s :
  scheduled m !! i = Some s → ∃ pre post, View m = pre +:+ summaryLine s +:+ post.
Proof.
  intros Hl. unfold View. cbv zeta.
  assert ((0 <? length (scheduled m))%nat = true) as ->.
  { apply Nat.ltb_lt. apply lookup_lt_Some in Hl. lia. }
  replace (summaryLine <$> scheduled m)
    with (summaryLine <$> (take i (scheduled m) ++ s :: drop (S i) (scheduled m)))
    by (by rewrite take_drop_middle).
  rewrite fmap_app, fmap_cons, concat_middle.
  set (before := String.concat "" (summaryLine <$> take i (scheduled m))).
  set (rest := String.concat "" (summaryLine <$> drop (S i) (scheduled m))).
  rewrite app_5.
  match goal with
  | |- ∃ pre post, ?P +:+ (?h +:+ ?n +:+ (?b +:+ ?x +:+ ?r) +:+ ?n') +:+ ?R = _ =>
      exists (P +:+ h +:+ n +:+ b), (r +:+ n' +:+ R)
  end.
  by rewrite !string_app_assoc.
Qed.

(** X20.  Nothing that [View] shows of the schedule or of an error ever goes
    away.  Whatever messages follow, an entry of the schedule keeps its
    line in the summary, at the same position and for the same PR and
    scheduled time (entries are never removed, also not when [Done]); and
    once an error has been reported the view carries an error line, that
    of the latest error, for good. *)
Theorem view_keeps_entries_and_error m msgs m' c :
  run m msgs = Some (m', c) →
  (∀ i s, scheduled m !! i = Some s →
     ∃ s' pre post,
       scheduled m' !! i = Some s' ∧ PR s' = PR s ∧ When s' = When s ∧
       View m' = pre +:+ summaryLine s' +:+ post) ∧
  (lastErr m ≠ None →
   ∃ e pre post,
     lastErr m' = Some e ∧
     View m' = pre +:+ errStyle_Render ("Error: " +:+ e) +:+ newline +:+ post).
Proof.
  intros Hrun. split.
  - intros i s Hl.
    destruct (later_lookup _ _ _ _ (run_later _ _ _ _ Hrun) Hl) as (s' & Hl' & He).
    destruct (View_entry _ _ _ Hl') as (pre & post & HV).
    exists s', pre, post. by destruct He.
  - intros Hset. pose proof (run_lastErr_set _ _ _ _ Hrun Hset) as Hset'.
    destruct (lastErr m') as [e|] eqn:He; [|done].
    destruct (View_error _ _ He) as (pre & post & HV). eauto.
Qed.

End Shown.

(** *** The running program: results that find no entry *)

(** X21.  In the running program the only result that can arrive when its
    PR has no active entry is the answer to a disable request (it may come
    after the failure comment's answer has marked the entry [Done]).  The
    answers to a comment, a merge, a check and a commit fetch always find
    the active entry of their PR: for them the [idx >= 0] test of the
    handler never fails. *)
Theorem only_disable_results_are_dropped m l1 cmd l2 msg n :
  sys_reachable (m, l1 ++ cmd :: l2) → produces cmd msg →
  prNumberOf msg = Some n → findScheduledIndex m n = None →
  cmd = disableAutoMergeCmd n ∧ ∃ err, msg = disableAutoMergeResultMsg n err.
Proof.
  intros [_ Hall]%sys_reachable_inStepAll Hprod Hn Hnone.
  specialize (Hall n). cbn [fst snd] in Hall. rewrite Hnone in Hall.
  destruct (produces_result _ _ _ Hprod Hn) as [_ [->|Hd]].
  - split; [done|]. inversion Hprod; subst. eauto.
  - rewrite pending_take in Hall by done. by destruct (pending n l1).
Qed.

End Properties.

(** ** The claims on the sample host *)

#[local] Existing Instance sample.host.

Lemma sample_run msgs :
  run (initialModel sample.t0) msgs = Some (sample.after msgs, sample.issuedBy msgs).
Proof.
  unfold sample.after, sample.issuedBy.
  by destruct (run_total (initialModel sample.t0) msgs (initialModel_Inv _)) as [[m c] ->].
Qed.

Lemma sample_reachable msgs : reachable (sample.after msgs).
Proof. eapply run_reachable; [apply sample_run|constructor]. Qed.

Lemma sample_run_from msgs more :
  run (sample.after msgs) more =
    Some (sample.after (msgs ++ more), sample.issuedAfter msgs more).
Proof.
  pose proof (sample_run (msgs ++ more)) as H. rewrite run_app, sample_run in H.
  unfold sample.issuedAfter.
  destruct (run (sample.after msgs) more) as [[m c]|]; [|done].
  injection H as <- <-. by rewrite drop_app_length.
Qed.

Lemma sample_step msgs msg :
  Update (sample.after msgs) msg =
    Some (sample.after (msgs ++ [msg]), sample.issuedAfter msgs [msg]).
Proof.
  pose proof (sample_run_from msgs [msg]) as H. simpl in H.
  destruct (Update (sample.after msgs) msg) as [[m c]|]; [|done].
  injection H as <- <-. by rewrite app_nil_r.
Qed.

(** C9 at the start-up model: a merge result for PR 7, which nobody has
    scheduled. *)
Lemma result_without_active_entry_is_dropped_witness :
  prNumberOf (mergeResultMsg 7 None) = Some 7 ∧
  findScheduledIndex (initialModel sample.t0) 7 = None ∧
  Update (initialModel sample.t0) (mergeResultMsg 7 None) =
    Some (initialModel sample.t0, []).
Proof.
  split; [reflexivity|]. split; [reflexivity|].
  apply (result_without_active_entry_is_dropped _ _ 7); reflexivity.
Defined.

(** C7 for the entry of PR 7, whose pre-merge comment failed. *)
Lemma pre_merge_comment_result_triggers_merge_witness :
  let m := sample.after (sample.scheduleNow ++ [tickMsg (time.Add sample.t0 time.Second)]) in
  findScheduledIndex m 7 = Some 0%nat ∧
  ∃ m' s s',
    scheduled m !! 0%nat = Some s ∧
    Update m (commentResultMsg 7 true (Some "gh pr comment failed")) =
      Some (m', [(Some 0%nat, mergePRCmd 7)]) ∧
    scheduled m' !! 0%nat = Some s' ∧
    s' = set_MergeTriggered true
           (set_LastMessage
              ("Comment failed: " +:+ "gh pr comment failed" +:+ " (continuing with merge)")
              s) ∧
    LastMessage s' =
      "Comment failed: " +:+ "gh pr comment failed" +:+ " (continuing with merge)" ∧
    MergeTriggered s' = true ∧
    Done s' = false ∧ Done s = false ∧
    PR s' = PR s ∧ When s' = When s ∧ CheckAt s' = CheckAt s ∧
    PreMergeCommentPosted s' = PreMergeCommentPosted s ∧
    CheckScheduled s' = CheckScheduled s ∧ FailureHandled s' = FailureHandled s ∧
    findScheduledIndex m' 7 = Some 0%nat.
Proof.
  intros m. assert (findScheduledIndex m 7 = Some 0%nat) as H by (vm_compute; reflexivity).
  split; [exact H|].
  exact (pre_merge_comment_result_triggers_merge m 7 0 (Some "gh pr comment failed") H).
Defined.

Lemma sample_start : sample.after [] = initialModel sample.t0.
Proof. reflexivity. Qed.

Lemma sample_deliver msgs l1 cmd l2 msg l' :
  produces cmd msg →
  l1 ++ l2 ++ cmdsOf (sample.issuedAfter msgs [msg]) = l' →
  sys_reachable (sample.after msgs, l1 ++ cmd :: l2) →
  sys_step (sample.after msgs, l1 ++ cmd :: l2) (sample.after (msgs ++ [msg]), l') ∧
  sys_reachable (sample.after (msgs ++ [msg]), l').
Proof.
  intros Hp <- Hr.
  assert (sys_step (sample.after msgs, l1 ++ cmd :: l2)
            (sample.after (msgs ++ [msg]),
             l1 ++ l2 ++ cmdsOf (sample.issuedAfter msgs [msg]))) as Hstep
    by (apply sys_deliver with (msg := msg); [done|apply sample_step]).
  split; [done|]. by eapply sys_reachable_step.
Qed.

Lemma sample_external msgs l msg l' :
  external msg →
  l ++ cmdsOf (sample.issuedAfter msgs [msg]) = l' →
  sys_reachable (sample.after msgs, l) →
  sys_reachable (sample.after (msgs ++ [msg]), l').
Proof.
  intros He <- Hr. eapply sys_reachable_step; [done|].
  apply sys_external with (msg := msg); [done|apply sample_step].
Qed.

(** PR 7 is scheduled for now while the start-up fetch of the login and
    the first tick are still in flight. *)
Lemma sample_scheduled_reachable :
  sys_reachable (sample.after sample.scheduleNow, [fetchMeCmd; tickCmd]).
Proof.
  pose proof (sys_reachable_init sample.t0) as H0.
  rewrite <- sample_start in H0.
  apply (sample_external [prListMsg [sample.pr7]; sample.enter] [fetchMeCmd; tickCmd]
           sample.enter); [done|by vm_compute|].
  apply (sample_external [prListMsg [sample.pr7]] [fetchMeCmd; tickCmd]
           sample.enter); [done|by vm_compute|].
  apply (sample_deliver [] [fetchMeCmd] fetchPRsCmd [tickCmd] (prListMsg [sample.pr7]));
    [constructor|by vm_compute|exact H0].
Qed.

(** C6 for the entry of PR 7.  From the moment its check is in flight:
    the check finds it merged, and a tick and a late merge failure follow.
    In the running program: the first tick after it was scheduled moves it
    from [Scheduled] along the edge to [CommentIssuing]. *)
Lemma stage_monotone_and_done_final_witness :
  (let msgs :=
     [checkMergedMsg 7 true None; tickMsg (time.Add sample.t0 (90 * time.Second));
      mergeResultMsg 7 (Some "late")] in
   let m := sample.after sample.checkIssued in
   let m' := sample.after (sample.checkIssued ++ msgs) in
   let c := sample.issuedAfter sample.checkIssued msgs in
   let s := sample.entry sample.checkIssued in
   run m msgs = Some (m', c) ∧
   c = [(None, tickCmd)] ∧
   scheduled m !! 0%nat = Some s ∧
   ∃ s',
     scheduled m' !! 0%nat = Some s' ∧
     PR s' = PR s ∧ When s' = When s ∧
     (PreMergeCommentPosted s = true → PreMergeCommentPosted s' = true) ∧
     (MergeTriggered s = true → MergeTriggered s' = true) ∧
     (CheckScheduled s = true → CheckScheduled s' = true) ∧
     (FailureHandled s = true → FailureHandled s' = true) ∧
     (Done s = true → Done s' = true) ∧
     (stageRank s ≤ stageRank s')%nat ∧
     (Done s = true → s' = s ∧ ∀ x, (Some 0%nat, x) ∉ c)) ∧
  (let t := time.Add sample.t0 time.Second in
   let σ := (sample.after sample.scheduleNow, [fetchMeCmd; tickCmd]) in
   let σ' :=
     (sample.after (sample.scheduleNow ++ [tickMsg t]),
      [fetchMeCmd] ++ [] ++ cmdsOf (sample.issuedAfter sample.scheduleNow [tickMsg t])) in
   let s := sample.entry sample.scheduleNow in
   sys_reachable σ ∧ sys_step σ σ' ∧
   scheduled σ.1 !! 0%nat = Some s ∧
   stageOf s = Scheduled ∧
   ∃ s',
     scheduled σ'.1 !! 0%nat = Some s' ∧
     (stageOf s' = stageOf s ∨ edge (stageOf s) (stageOf s'))).
Proof.
  split.
  - intros msgs m m' c s.
    pose proof (sample_run_from sample.checkIssued msgs) as Hrun.
    assert (c = [(None, tickCmd)]) as Hc by (vm_compute; reflexivity).
    assert (scheduled m !! 0%nat = Some s) as Hl by (vm_compute; reflexivity).
    split; [exact Hrun|]. split; [exact Hc|]. split; [exact Hl|].
    exact (proj1 stage_monotone_and_done_final m msgs m' c 0%nat s Hrun Hl).
  - intros t σ σ' s.
    pose proof sample_scheduled_reachable as Hreach.
    destruct (sample_deliver sample.scheduleNow [fetchMeCmd] tickCmd [] (tickMsg t) _
                (produces_tick t) eq_refl Hreach) as [Hstep _].
    assert (scheduled σ.1 !! 0%nat = Some s) as Hl by (vm_compute; reflexivity).
    assert (stageOf s = Scheduled) as Hs by (vm_compute; reflexivity).
    split; [exact Hreach|]. split; [exact Hstep|]. split; [exact Hl|]. split; [exact Hs|].
    exact (proj2 stage_monotone_and_done_final σ σ' 0%nat s Hreach Hstep Hl).
Defined.




(** C8 for the entry of PR 7, whose check found it still open. *)
Lemma failed_commit_fetch_uses_placeholder_witness :
  let m := sample.after (sample.checkIssued ++ [checkMergedMsg 7 false None]) in
  findScheduledIndex m 7 = Some 0%nat ∧
  ∃ s m2 s2,
    scheduled m !! 0%nat = Some s ∧
    run m [commitSHAMsg 7 "" (Some "gh pr view failed"); commentResultMsg 7 false None] =
      Some (m2,
            [(Some 0%nat,
              notifySend "PR not merged"
                ("PR #" +:+ Itoa 7 +:+ " (" +:+ Title (PR s)
                 +:+ ") is still not merged after auto-merge."));
             (Some 0%nat, disableAutoMergeCmd 7);
             (Some 0%nat, commentPRCmd 7 (failureComment "unknown") false)]) ∧
    mentions "unknown" (failureComment "unknown") = true ∧
    scheduled m2 !! 0%nat = Some s2 ∧
    Done s2 = true ∧ FailureHandled s2 = true ∧
    LastMessage s2 = "PR not merged (auto-merge disabled, notification sent)" ∧
    mentions "unknown" (LastMessage s2) = false.
Proof.
  intros m. assert (findScheduledIndex m 7 = Some 0%nat) as H by (vm_compute; reflexivity).
  split; [exact H|].
  exact (failed_commit_fetch_uses_placeholder m 7 0 "" "gh pr view failed" H).
Defined.

(** C8 as stated fails: after a failed commit fetch and a successful
    failure comment the entry of PR 7 is [Done], and its message does not
    mention the "unknown" commit. *)
Lemma done_message_does_not_name_commit :
  let before := sample.checkIssued ++ [checkMergedMsg 7 false None] in
  let msgs := [commitSHAMsg 7 "" (Some "gh pr view failed"); commentResultMsg 7 false None] in
  let m' := sample.after (before ++ msgs) in
  let s' := sample.entry (before ++ msgs) in
  run (sample.after before) msgs = Some (m', sample.issuedAfter before msgs) ∧
  scheduled m' !! 0%nat = Some s' ∧
  Done s' = true ∧
  LastMessage s' = "PR not merged (auto-merge disabled, notification sent)" ∧
  mentions "unknown" (LastMessage s') = false.
Proof.
  intros before msgs m' s'.
  split_and!; [apply sample_run_from|..]; vm_compute; reflexivity.
Qed.

(** C5 for the entry of PR 7, whose merge trigger failed. *)
Lemma failed_merge_or_check_is_terminal_witness :
  let m := sample.after sample.mergeIssued in
  let msg := mergeResultMsg 7 (Some "gh pr merge failed") in
  findScheduledIndex m 7 = Some 0%nat ∧
  ∃ s m1 s1,
    scheduled m !! 0%nat = Some s ∧
    Update m msg = Some (m1, []) ∧
    s1 = set_LastMessage ("Auto-merge failed: " +:+ "gh pr merge failed") (set_Done true s) ∧
    scheduled m1 !! 0%nat = Some s1 ∧
    Done s1 = true ∧ CheckAt s1 = CheckAt s ∧
    LastMessage s1 = "Auto-merge failed: " +:+ "gh pr merge failed" ∧
    PR s1 = PR s ∧ When s1 = When s ∧
    PreMergeCommentPosted s1 = PreMergeCommentPosted s ∧
    MergeTriggered s1 = MergeTriggered s ∧
    CheckScheduled s1 = CheckScheduled s ∧ FailureHandled s1 = FailureHandled s ∧
    ∀ msgs m2 c,
      run m1 msgs = Some (m2, c) →
      scheduled m2 !! 0%nat = Some s1 ∧ ∀ x, (Some 0%nat, x) ∉ c.
Proof.
  intros m msg.
  assert (findScheduledIndex m 7 = Some 0%nat) as H by (vm_compute; reflexivity).
  split; [exact H|].
  exact (failed_merge_or_check_is_terminal m 7 0 "gh pr merge failed" msg H
           (or_introl eq_refl)).
Defined.

(** C3 for the entry of PR 7 scheduled at [t0]: a tick a second early, a
    key, a tick at [t0] itself, a tick whose wall clock has been set an
    hour ahead while the monotonic clock still reads what it read at [t0],
    and a result for another PR come first. *)
Lemma pre_merge_comment_on_first_tick_after_witness :
  let m := sample.after sample.scheduleNow in
  let s := newEntry sample.pr7 sample.t0 in
  let pre :=
    [tickMsg (time.Add sample.t0 (- time.Second)); sample.typed "j"; tickMsg sample.t0;
     tickMsg {| time.wall := time.wall sample.t0 + time.Hour;
                time.mono := time.mono sample.t0 |};
     disableAutoMergeResultMsg 8 None] in
  let t := time.Add sample.t0 time.Second in
  reachable m ∧ scheduled m !! 0%nat = Some s ∧
  time.IsZero (When s) = false ∧
  Forall (notAfter (When s) (Number (PR s))) pre ∧
  time.After t (When s) = true ∧
  notAfter (When s) (Number (PR s)) (tickMsg (When s)) ∧
  ∃ m1 c1 m2 c2 s2,
    run m pre = Some (m1, c1) ∧
    (∀ k body b, (Some 0%nat, commentPRCmd k body b) ∉ c1) ∧
    Update m1 (tickMsg t) = Some (m2, c2) ∧
    (Some 0%nat,
     commentPRCmd (Number (PR s))
       ("Setting PR to auto-merge. Scheduled merge time: " +:+ Format (When s) layout)
       true) ∈ c2 ∧
    scheduled m2 !! 0%nat = Some s2 ∧ PreMergeCommentPosted s2 = true ∧
    ∀ post m3 c3,
      run m2 post = Some (m3, c3) →
      ∀ k body, (Some 0%nat, commentPRCmd k body true) ∉ c3.
Proof.
  intros m s pre t.
  pose proof (sample_reachable sample.scheduleNow) as Hr.
  assert (scheduled m !! 0%nat = Some s) as Hl by (vm_compute; reflexivity).
  assert (time.IsZero (When s) = false) as Hz by (vm_compute; reflexivity).
  assert (Forall (notAfter (When s) (Number (PR s))) pre) as Hpre.
  { repeat constructor; vm_compute; congruence. }
  assert (time.After t (When s) = true) as Ht by (vm_compute; reflexivity).
  split; [exact Hr|]. split; [exact Hl|]. split; [exact Hz|].
  split; [exact Hpre|]. split; [exact Ht|].
  exact (pre_merge_comment_on_first_tick_after m 0 s pre t Hr Hl eq_refl eq_refl Hz Hpre Ht).
Defined.

(** C3 as stated fails for an entry scheduled at the zero time (typed as
    "0001-01-01 00:00" where local time is UTC): the entry is waiting, the
    tick is after its scheduled time by the code's own [After], and the
    tick issues nothing but the next tick. *)
Lemma zero_scheduled_time_never_fires :
  let typing :=
    sample.chooseCustom ++ [sample.typed "0001-01-01 00:00"; sample.enter] in
  let m := sample.after typing in
  let t := time.Add sample.t0 time.Second in
  let s := newEntry sample.pr7 time.zero in
  scheduled m !! 0%nat = Some s ∧
  Done s = false ∧ PreMergeCommentPosted s = false ∧
  time.IsZero (When s) = true ∧ time.After t (When s) = true ∧
  Update m (tickMsg t) =
    Some (sample.after (typing ++ [tickMsg t]), sample.issuedAfter typing [tickMsg t]) ∧
  sample.issuedAfter typing [tickMsg t] = [(None, tickCmd)].
Proof.
  intros typing m t s.
  split_and!; [..|apply sample_step|]; vm_compute; reflexivity.
Qed.

(** C4 for the entry of PR 7, whose merge has just been triggered.  Before
    the check is due come a tick a second later, a key, a tick at [CheckAt]
    itself, and a tick whose wall clock has been set an hour ahead while
    the monotonic clock reads what it reads at [CheckAt]. *)
Lemma merge_success_schedules_check_witness :
  let m := sample.after sample.mergeIssued in
  let s := sample.entry sample.mergeIssued in
  let checkAt := time.Add (now m) (60 * time.Second) in
  let pre :=
    [tickMsg (time.Add (now m) time.Second); sample.typed "j"; tickMsg checkAt;
     tickMsg {| time.wall := time.wall checkAt + time.Hour;
                time.mono := time.mono checkAt |}] in
  let t := time.Add checkAt 1 in
  reachable m ∧ findScheduledIndex m 7 = Some 0%nat ∧ scheduled m !! 0%nat = Some s ∧
  MergeTriggered s = true ∧ CheckScheduled s = false ∧
  time.IsZero checkAt = false ∧
  Forall (notAfter checkAt 7) pre ∧ time.After t checkAt = true ∧
  ∃ m0,
    Update m (mergeResultMsg 7 None) = Some (m0, []) ∧
    scheduled m0 !! 0%nat =
      Some (set_LastMessage "Auto-merge set, will check in 1 minute" (set_CheckAt checkAt s)) ∧
    ∃ m1 c1 m2 c2 s2,
      run m0 pre = Some (m1, c1) ∧
      (∀ k, (Some 0%nat, checkMergedCmd k) ∉ c1) ∧
      Update m1 (tickMsg t) = Some (m2, c2) ∧
      (Some 0%nat, checkMergedCmd 7) ∈ c2 ∧
      scheduled m2 !! 0%nat = Some s2 ∧
      CheckScheduled s2 = true ∧ CheckAt s2 = checkAt ∧
      ∀ post m3 c3,
        run m2 post = Some (m3, c3) → ∀ k, (Some 0%nat, checkMergedCmd k) ∉ c3.
Proof.
  intros m s checkAt pre t.
  pose proof (sample_reachable sample.mergeIssued) as Hr.
  assert (findScheduledIndex m 7 = Some 0%nat) as Hi by (vm_compute; reflexivity).
  assert (scheduled m !! 0%nat = Some s) as Hl by (vm_compute; reflexivity).
  assert (MergeTriggered s = true) as Hm by (vm_compute; reflexivity).
  assert (CheckScheduled s = false) as Hc by (vm_compute; reflexivity).
  assert (time.IsZero checkAt = false) as Hclock by (vm_compute; reflexivity).
  assert (Forall (notAfter checkAt 7) pre) as Hpre.
  { repeat constructor; vm_compute; congruence. }
  assert (time.After t checkAt = true) as Ht by (vm_compute; reflexivity).
  split_and!; [exact Hr|exact Hi|exact Hl|exact Hm|exact Hc|exact Hclock|exact Hpre|exact Ht|].
  destruct (merge_success_schedules_check m 7 0 s Hr Hi Hl) as (m0 & H0 & Hl0 & Hnext).
  exists m0. split; [exact H0|]. split; [exact Hl0|].
  exact (Hnext Hm Hc Hclock pre t Hpre Ht).
Defined.

(** C2 for the entry of PR 7, whose check is in flight: the commit fetch
    and the disable action fail, the failure comment succeeds and is
    answered first. *)
Lemma not_merged_reaches_Done_witness :
  let m := sample.after sample.checkIssued in
  let o1 := [tickMsg (time.Add sample.t0 (63 * time.Second))] in
  let o3 := [sample.typed "j"] in
  reachable m ∧ findScheduledIndex m 7 = Some 0%nat ∧
  Forall (bystander 7) o1 ∧ Forall (bystander 7) o3 ∧
  ∃ m' c s',
    run m ([checkMergedMsg 7 false None] ++ o1 ++
           [commitSHAMsg 7 "" (Some "gh pr view failed")] ++ [] ++
           [commentResultMsg 7 false None] ++ o3 ++
           [disableAutoMergeResultMsg 7 (Some "gh pr merge --disable-auto failed")])
      = Some (m', c) ∧
    (Some 0%nat, getCommitSHACmd 7) ∈ c ∧
    (Some 0%nat, disableAutoMergeCmd 7) ∈ c ∧
    (Some 0%nat, commentPRCmd 7 (failureComment "unknown") false) ∈ c ∧
    scheduled m' !! 0%nat = Some s' ∧
    Done s' = true ∧ FailureHandled s' = true ∧
    LastMessage s' = failureCommentOutcome None.
Proof.
  intros m o1 o3.
  pose proof (sample_reachable sample.checkIssued) as Hr.
  assert (findScheduledIndex m 7 = Some 0%nat) as Hi by (vm_compute; reflexivity).
  assert (Forall (bystander 7) o1) as H1
    by (repeat constructor; vm_compute; congruence).
  assert (Forall (bystander 7) o3) as H3
    by (repeat constructor; vm_compute; congruence).
  split_and!; [exact Hr|exact Hi|exact H1|exact H3|].
  exact (proj1 (not_merged_reaches_Done m 7 0 "" (Some "gh pr view failed")
                  (Some "gh pr merge --disable-auto failed") None o1 [] o3 true
                  Hr Hi H1 (proj2 (Forall_nil _) I) H3)).
Defined.

(** ** The further properties on the sample host *)

(** The mirrored fields after an error, a tick and a login. *)
Lemma model_mirrors_latest_messages_witness :
  let msgs := [errMsg "gh: not logged in"; tickMsg (time.Add sample.t0 time.Second); meMsg "octocat"] in
  let m := sample.after sample.scheduleNow in
  let m' := sample.after (sample.scheduleNow ++ msgs) in
  let c := sample.issuedAfter sample.scheduleNow msgs in
  run m msgs = Some (m', c) ∧
  now m' = latest tickOf (now m) msgs ∧
  lastErr m' = latest errOf (lastErr m) msgs ∧
  me m' = latest loginOf (me m) msgs ∧
  prs m' = latest prsOf (prs m) msgs ∧
  (width m', height m') = latest sizeOf (width m, height m) msgs ∧
  (lastErr m ≠ None → lastErr m' ≠ None).
Proof.
  intros msgs m m' c.
  pose proof (sample_run_from sample.scheduleNow msgs) as Hrun.
  split; [exact Hrun|].
  exact (model_mirrors_latest_messages m msgs m' c Hrun).
Defined.

(** PR 7 is pending while the time picker is open. *)
Lemma pending_PR_iff_choosing_time_witness :
  let m := sample.after [prListMsg [sample.pr7]; sample.enter] in
  reachable m ∧ mode_ m = modeTimePicker ∧ schedFor m = Some sample.pr7 ∧
  (mode_ m = modeListing ↔ schedFor m = None) ∧
  (∀ p, schedFor m = Some p → findScheduledIndex m (Number p) = None).
Proof.
  intros m.
  pose proof (sample_reachable [prListMsg [sample.pr7]; sample.enter]) as Hr.
  split; [exact Hr|]. split; [vm_compute; reflexivity|]. split; [vm_compute; reflexivity|].
  exact (pending_PR_iff_choosing_time m Hr).
Defined.

(** "q" while PR 7 is scheduled and no warning has been shown. *)
Lemma quit_needs_confirmation_witness :
  let m := sample.after sample.scheduleNow in
  let k := {| keyType := KeyOther; keyString := "q" |} in
  mode_ m = modeListing ∧
  hasActiveSchedules m && negb (quitWarned m) = true ∧
  (if hasActiveSchedules m && negb (quitWarned m)
   then ∃ m1,
          Update m (KeyMsg k) = Some (m1, []) ∧
          quitWarned m1 = true ∧ scheduled m1 = scheduled m ∧
          status m1 = "Warning: Active scheduled merges! Press 'q' again to force quit." ∧
          Update m1 (KeyMsg k) = Some (m1, [(None, Quit)])
   else Update m (KeyMsg k) = Some (m, [(None, Quit)])) ∧
  (∀ k' m' c,
     keyString k' ≠ "q" → keyString k' ≠ "ctrl+c" →
     Update m (KeyMsg k') = Some (m', c) → quitWarned m' = false) ∧
  (∀ msg m' c,
     (∀ k', msg ≠ KeyMsg k') →
     Update m msg = Some (m', c) → quitWarned m' = quitWarned m).
Proof.
  intros m k.
  assert (mode_ m = modeListing) as Hm by (vm_compute; reflexivity).
  split; [exact Hm|]. split; [vm_compute; reflexivity|].
  exact (quit_needs_confirmation m k Hm (or_introl eq_refl)).
Defined.


(** PR 7 once its check has found it merged. *)
Lemma finished_PR_can_be_scheduled_again_witness :
  let msg := checkMergedMsg 7 true None in
  let k := {| keyType := KeyEnter; keyString := "enter" |} in
  let m := sample.after sample.checkIssued in
  let m1 := sample.after (sample.checkIssued ++ [msg]) in
  let c := sample.issuedAfter sample.checkIssued [msg] in
  let s1 := sample.entry (sample.checkIssued ++ [msg]) in
  reachable m ∧ mode_ m = modeListing ∧
  list_SelectedItem (list_ m) = Some (prItem sample.pr7) ∧
  findScheduledIndex m 7 = Some 0%nat ∧
  Update m msg = Some (m1, c) ∧
  scheduled m1 !! 0%nat = Some s1 ∧ Done s1 = true ∧
  (∃ m0,
     Update m (KeyMsg k) = Some (m0, []) ∧
     mode_ m0 = modeListing ∧ schedFor m0 = None ∧
     status m0 = "PR #" +:+ Itoa 7 +:+ " already has a scheduled merge") ∧
  findScheduledIndex m1 7 = None ∧
  ∃ m2,
    Update m1 (KeyMsg k) = Some (m2, []) ∧
    mode_ m2 = modeTimePicker ∧ schedFor m2 = Some sample.pr7 ∧
    scheduled m2 = scheduled m1 ∧
    status m2 = "Select merge time for PR #" +:+ Itoa 7.
Proof.
  intros msg k m m1 c s1.
  pose proof (sample_reachable sample.checkIssued) as Hr.
  pose proof (sample_step sample.checkIssued msg) as HU.
  assert (mode_ m = modeListing) as Hm by (vm_compute; reflexivity).
  assert (list_SelectedItem (list_ m) = Some (prItem sample.pr7)) as Hsel
    by (vm_compute; reflexivity).
  assert (findScheduledIndex m 7 = Some 0%nat) as Hi by (vm_compute; reflexivity).
  assert (scheduled m1 !! 0%nat = Some s1) as Hl1 by (vm_compute; reflexivity).
  assert (Done s1 = true) as Hd1 by (vm_compute; reflexivity).
  split; [exact Hr|]. split; [exact Hm|]. split; [exact Hsel|]. split; [exact Hi|].
  split; [exact HU|]. split; [exact Hl1|]. split; [exact Hd1|].
  exact (finished_PR_can_be_scheduled_again m msg 7 0 m1 c s1 sample.pr7 k
           Hr Hm Hsel eq_refl eq_refl Hi eq_refl HU Hl1 Hd1).
Defined.

(** One tick timer is in flight once PR 7 has been scheduled. *)
Lemma one_tick_in_flight_witness :
  let σ := (sample.after sample.scheduleNow, [fetchMeCmd; tickCmd]) in
  sys_reachable σ ∧ ticks σ.2 = [tickCmd].
Proof.
  intros σ. split; [exact sample_scheduled_reachable|].
  exact (one_tick_in_flight σ sample_scheduled_reachable).
Defined.

(** The first tick after PR 7 was scheduled has fired: its pre-merge
    comment is in flight. *)
Lemma sample_commenting_reachable :
  sys_reachable
    (sample.after (sample.scheduleNow ++ [tickMsg (time.Add sample.t0 time.Second)]),
     [fetchMeCmd;
      commentPRCmd 7 "Setting PR to auto-merge. Scheduled merge time: @63884376000000000000"
        true;
      tickCmd]).
Proof.
  apply (sample_deliver sample.scheduleNow [fetchMeCmd] tickCmd []
           (tickMsg (time.Add sample.t0 time.Second)));
    [constructor|by vm_compute|exact sample_scheduled_reachable].
Qed.

Lemma requests_in_flight_match_stage_witness :
  let σ :=
    (sample.after (sample.scheduleNow ++ [tickMsg (time.Add sample.t0 time.Second)]),
     [fetchMeCmd;
      commentPRCmd 7 "Setting PR to auto-merge. Scheduled merge time: @63884376000000000000"
        true;
      tickCmd]) in
  sys_reachable σ ∧
  pending 7 σ.2 =
    [commentPRCmd 7 "Setting PR to auto-merge. Scheduled merge time: @63884376000000000000"
       true] ∧
  (length (pending 7 σ.2) ≤ 1)%nat ∧
  ∀ x, x ∈ σ.2 → drives 7 x = true →
    ∃ i s,
      findScheduledIndex σ.1 7 = Some i ∧ scheduled σ.1 !! i = Some s ∧
      stageOf s =
        match x with
        | commentPRCmd _ _ true => CommentIssuing
        | mergePRCmd _ => MergeIssuing
        | checkMergedCmd _ | getCommitSHACmd _ => CheckIssuing
        | _ => RemediationIssuing
        end.
Proof.
  intros σ. split; [exact sample_commenting_reachable|]. split; [reflexivity|].
  exact (requests_in_flight_match_stage σ 7 sample_commenting_reachable).
Defined.

Lemma flags_are_set_in_order_witness :
  let msgs := sample.scheduleNow ++ [tickMsg (time.Add sample.t0 time.Second)] in
  let σ :=
    (sample.after msgs,
     [fetchMeCmd;
      commentPRCmd 7 "Setting PR to auto-merge. Scheduled merge time: @63884376000000000000"
        true;
      tickCmd]) in
  let s := sample.entry msgs in
  sys_reachable σ ∧ scheduled σ.1 !! 0%nat = Some s ∧ Done s = false ∧
  PreMergeCommentPosted s = true ∧
  (FailureHandled s = true → CheckScheduled s = true) ∧
  (CheckScheduled s = true → MergeTriggered s = true) ∧
  (MergeTriggered s = true → PreMergeCommentPosted s = true) ∧
  (MergeTriggered s = false → CheckAt s = time.zero).
Proof.
  intros msgs σ s.
  assert (scheduled σ.1 !! 0%nat = Some s) as Hl by (vm_compute; reflexivity).
  assert (Done s = false) as Hd by (vm_compute; reflexivity).
  split; [exact sample_commenting_reachable|]. split; [exact Hl|]. split; [exact Hd|].
  split; [vm_compute; reflexivity|].
  exact (flags_are_set_in_order σ 0 s sample_commenting_reachable Hl Hd).
Defined.

Lemma summary_state_follows_stage_witness :
  let msgs := sample.scheduleNow ++ [tickMsg (time.Add sample.t0 time.Second)] in
  let σ :=
    (sample.after msgs,
     [fetchMeCmd;
      commentPRCmd 7 "Setting PR to auto-merge. Scheduled merge time: @63884376000000000000"
        true;
      tickCmd]) in
  let s := sample.entry msgs in
  sys_reachable σ ∧ scheduled σ.1 !! 0%nat = Some s ∧
  stageOf s = CommentIssuing ∧
  state s =
    match stageOf s with
    | Scheduled | CommentIssuing => "pending"
    | MergeIssuing => "auto-merge set, waiting to check"
    | CheckIssuing | RemediationIssuing => "checking..."
    | Terminal => "done"
    end.
Proof.
  intros msgs σ s.
  assert (scheduled σ.1 !! 0%nat = Some s) as Hl by (vm_compute; reflexivity).
  split; [exact sample_commenting_reachable|]. split; [exact Hl|].
  split; [vm_compute; reflexivity|].
  exact (summary_state_follows_stage σ 0 s sample_commenting_reachable Hl).
Defined.

Lemma every_stage_has_its_request_witness :
  let msgs := sample.scheduleNow ++ [tickMsg (time.Add sample.t0 time.Second)] in
  let σ :=
    (sample.after msgs,
     [fetchMeCmd;
      commentPRCmd 7 "Setting PR to auto-merge. Scheduled merge time: @63884376000000000000"
        true;
      tickCmd]) in
  let s := sample.entry msgs in
  sys_reachable σ ∧ scheduled σ.1 !! 0%nat = Some s ∧ Done s = false ∧
  stageOf s = CommentIssuing ∧
  match stageOf s with
  | Scheduled => pending (Number (PR s)) σ.2 = []
  | CommentIssuing => ∃ b, pending (Number (PR s)) σ.2 = [commentPRCmd (Number (PR s)) b true]
  | MergeIssuing =>
      pending (Number (PR s)) σ.2 = [mergePRCmd (Number (PR s))]
      ∨ pending (Number (PR s)) σ.2 = []
  | CheckIssuing =>
      pending (Number (PR s)) σ.2 = [checkMergedCmd (Number (PR s))]
      ∨ pending (Number (PR s)) σ.2 = [getCommitSHACmd (Number (PR s))]
  | RemediationIssuing =>
      ∃ b, pending (Number (PR s)) σ.2 = [commentPRCmd (Number (PR s)) b false]
  | Terminal => False
  end.
Proof.
  intros msgs σ s.
  assert (scheduled σ.1 !! 0%nat = Some s) as Hl by (vm_compute; reflexivity).
  assert (Done s = false) as Hd by (vm_compute; reflexivity).
  split; [exact sample_commenting_reachable|]. split; [exact Hl|]. split; [exact Hd|].
  split; [vm_compute; reflexivity|].
  exact (every_stage_has_its_request σ 0 s sample_commenting_reachable Hl Hd).
Defined.

(** A check whose process printed MERGED and a newline. *)
Lemma command_results_are_routed_witness :
  let Unmarshal := λ _ : string, inr "unexpected end of JSON input" in
  let x := checkMergedCmd 7 in
  let o := exited ("MERGED" +:+ newline) None in
  let msg := checkMergedMsg 7 true None in
  exec Unmarshal x o = Some msg ∧
  produces x msg ∧
  (∀ n, drives n x = true ∨ x = disableAutoMergeCmd n → prNumberOf msg = Some n) ∧
  (∀ n b isPreMerge, x = commentPRCmd n b isPreMerge →
     ∃ err, msg = commentResultMsg n isPreMerge err) ∧
  (∀ n e, x = checkMergedCmd n → msg = checkMergedMsg n true e →
     e = None ∧ ∃ out, o = exited out None ∧ TrimSpace out = "MERGED").
Proof.
  intros Unmarshal x o msg.
  assert (exec Unmarshal x o = Some msg) as Hx by (vm_compute; reflexivity).
  split; [exact Hx|].
  exact (command_results_are_routed Unmarshal x o msg Hx).
Defined.

(** Two rows, the second without a merge state. *)
Lemma fetched_PR_list_witness :
  let r1 :=
    {| raw.Number := 7; raw.Title := "Fix the parser"; raw.State := "OPEN";
       raw.URL := "https://github.com/o/r/pull/7";
       raw.Author := {| raw.Login := "octocat" |}; raw.MergeStateStatus := "CLEAN" |} in
  let r2 :=
    {| raw.Number := 9; raw.Title := "Bump the linter"; raw.State := "OPEN";
       raw.URL := "https://github.com/o/r/pull/9";
       raw.Author := {| raw.Login := "hubot" |}; raw.MergeStateStatus := "" |} in
  let Unmarshal := λ _ : string, inl [r1; r2] in
  let l :=
    [sample.pr7;
     {| Number := 9; Title := "Bump the linter"; Author := "hubot"; State := "OPEN";
        MergeState := "unknown"; URL := "https://github.com/o/r/pull/9" |}] in
  body.fetchPRsCmd Unmarshal "[...]" None = prListMsg l ∧
  (None : error) = None ∧
  ∃ rows,
    Unmarshal "[...]" = inl rows ∧
    length l = length rows ∧
    (∀ i r, rows !! i = Some r →
       ∃ p, l !! i = Some p ∧
            Number p = raw.Number r ∧ Title p = raw.Title r ∧
            Author p = raw.Login (raw.Author r) ∧ State p = raw.State r ∧
            URL p = raw.URL r ∧
            MergeState p =
              if String.eqb (raw.MergeStateStatus r) "" then "unknown"
              else raw.MergeStateStatus r) ∧
    (∀ p, p ∈ l → MergeState p ≠ "").
Proof.
  intros r1 r2 Unmarshal l.
  assert (body.fetchPRsCmd Unmarshal "[...]" None = prListMsg l) as H
    by (vm_compute; reflexivity).
  split; [exact H|].
  exact (fetched_PR_list Unmarshal "[...]" None l H).
Defined.

(** The two comments on PR 7 that [gh] cannot tell apart. *)
Lemma argv_tells_commands_apart_witness :
  let x := commentPRCmd 7 "Setting PR to auto-merge." true in
  let y := commentPRCmd 7 "Setting PR to auto-merge." false in
  let a := ["gh"; "pr"; "comment"; "7"; "--body"; "Setting PR to auto-merge."] in
  argv x = Some a ∧ argv y = Some a ∧
  (x = y ∨
   ∃ n b isPreMerge isPreMerge',
     x = commentPRCmd n b isPreMerge ∧ y = commentPRCmd n b isPreMerge').
Proof.
  intros x y a.
  assert (argv x = Some a) as Hx by (vm_compute; reflexivity).
  assert (argv y = Some a) as Hy by (vm_compute; reflexivity).
  split; [exact Hx|]. split; [exact Hy|].
  exact (argv_tells_commands_apart x y a Hx Hy).
Defined.


(** The whole workflow for PR 7, scheduled for [t0]: ticks at [t0] + 1 s
    and [t0] + 62 s. *)
Lemma successful_workflow_witness :
  let m := sample.after sample.scheduleNow in
  let s := sample.entry sample.scheduleNow in
  let t1 := time.Add sample.t0 time.Second in
  let t2 := time.Add sample.t0 (62 * time.Second) in
  let checkAt := time.Add t1 (60 * time.Second) in
  reachable m ∧ scheduled m !! 0%nat = Some s ∧ Number (PR s) = 7 ∧
  time.IsZero (When s) = false ∧ time.After t1 (When s) = true ∧
  time.IsZero checkAt = false ∧ time.After t2 checkAt = true ∧
  let n := Number (PR s) in
  ∃ m' c s',
    run m [tickMsg t1; commentResultMsg n true None; mergeResultMsg n None;
           tickMsg t2; checkMergedMsg n true None] = Some (m', c) ∧
    issuedFor 0 c =
      [commentPRCmd n
         ("Setting PR to auto-merge. Scheduled merge time: " +:+ Format (When s) layout) true;
       mergePRCmd n; checkMergedCmd n] ∧
    scheduled m' !! 0%nat = Some s' ∧
    Done s' = true ∧ LastMessage s' = "PR is merged" ∧
    PR s' = PR s ∧ When s' = When s ∧
    CheckAt s' = checkAt ∧
    findScheduledIndex m' n = None.
Proof.
  intros m s t1 t2 checkAt.
  pose proof (sample_reachable sample.scheduleNow) as Hr.
  assert (scheduled m !! 0%nat = Some s) as Hl by (vm_compute; reflexivity).
  assert (Done s = false) as Hd by (vm_compute; reflexivity).
  assert (PreMergeCommentPosted s = false) as HP by (vm_compute; reflexivity).
  assert (MergeTriggered s = false) as HM by (vm_compute; reflexivity).
  assert (CheckScheduled s = false) as HC by (vm_compute; reflexivity).
  assert (time.IsZero (When s) = false) as Hz by (vm_compute; reflexivity).
  assert (time.After t1 (When s) = true) as Ht1 by (vm_compute; reflexivity).
  assert (time.IsZero checkAt = false) as Hz3 by (vm_compute; reflexivity).
  assert (time.After t2 checkAt = true) as Ht2 by (vm_compute; reflexivity).
  split; [exact Hr|]. split; [exact Hl|]. split; [vm_compute; reflexivity|].
  split; [exact Hz|]. split; [exact Ht1|]. split; [exact Hz3|]. split; [exact Ht2|].
  exact (successful_workflow m 0 s t1 t2 Hr Hl Hd HP HM HC Hz Ht1 Hz3 Ht2).
Defined.

#[local] Existing Instance sample.styles.

(** The view after an error, while PR 7 waits for its time. *)
Lemma view_keeps_entries_and_error_witness :
  let msgs := [tickMsg (time.Add sample.t0 time.Second); meMsg "octocat"] in
  let before := sample.scheduleNow ++ [errMsg "gh: not logged in"] in
  let m := sample.after before in
  let m' := sample.after (before ++ msgs) in
  let c := sample.issuedAfter before msgs in
  run m msgs = Some (m', c) ∧
  scheduled m !! 0%nat = Some (sample.entry before) ∧
  lastErr m = Some "gh: not logged in" ∧
  (∀ i s, scheduled m !! i = Some s →
     ∃ s' pre post,
       scheduled m' !! i = Some s' ∧ PR s' = PR s ∧ When s' = When s ∧
       View m' = pre +:+ summaryLine s' +:+ post) ∧
  (lastErr m ≠ None →
   ∃ e pre post,
     lastErr m' = Some e ∧
     View m' = pre +:+ errStyle_Render ("Error: " +:+ e) +:+ newline +:+ post).
Proof.
  intros msgs before m m' c.
  pose proof (sample_run_from before msgs) as Hrun.
  split; [exact Hrun|]. split; [vm_compute; reflexivity|]. split; [vm_compute; reflexivity|].
  exact (view_keeps_entries_and_error m msgs m' c Hrun).
Defined.

(** PR 7 was not merged; its failure comment has been answered while the
    disable request is still in flight. *)
Lemma sample_disable_late_reachable :
  sys_reachable
    (sample.after
       (sample.checkIssued ++
        [checkMergedMsg 7 false None; commitSHAMsg 7 "0a1b2c3" None;
         commentResultMsg 7 false None]),
     [fetchMeCmd; tickCmd;
      notifySend "PR not merged"
        "PR #7 (Fix the parser) is still not merged after auto-merge.";
      disableAutoMergeCmd 7]).
Proof.
  set (t1 := time.Add sample.t0 time.Second).
  set (t2 := time.Add sample.t0 (62 * time.Second)).
  set (note := notifySend "PR not merged"
                 "PR #7 (Fix the parser) is still not merged after auto-merge.").
  apply (sample_deliver
           (sample.checkIssued ++ [checkMergedMsg 7 false None; commitSHAMsg 7 "0a1b2c3" None])
           [fetchMeCmd; tickCmd; note; disableAutoMergeCmd 7]
           (commentPRCmd 7 (failureComment "0a1b2c3") false) []
           (commentResultMsg 7 false None));
    [constructor|by vm_compute|].
  apply (sample_deliver (sample.checkIssued ++ [checkMergedMsg 7 false None])
           [fetchMeCmd; tickCmd] (getCommitSHACmd 7) []
           (commitSHAMsg 7 "0a1b2c3" None));
    [constructor|by vm_compute|].
  apply (sample_deliver sample.checkIssued [fetchMeCmd] (checkMergedCmd 7) [tickCmd]
           (checkMergedMsg 7 false None));
    [constructor|by vm_compute|].
  apply (sample_deliver (sample.mergeIssued ++ [mergeResultMsg 7 None])
           [fetchMeCmd] tickCmd [] (tickMsg t2));
    [constructor|by vm_compute|].
  apply (sample_deliver sample.mergeIssued [fetchMeCmd; tickCmd] (mergePRCmd 7) []
           (mergeResultMsg 7 None));
    [constructor|by vm_compute|].
  apply (sample_deliver (sample.scheduleNow ++ [tickMsg t1])
           [fetchMeCmd]
           (commentPRCmd 7
              "Setting PR to auto-merge. Scheduled merge time: @63884376000000000000" true)
           [tickCmd] (commentResultMsg 7 true None));
    [constructor|by vm_compute|].
  exact sample_commenting_reachable.
Qed.

(** The late answer to the disable request for PR 7. *)
Lemma only_disable_results_are_dropped_witness :
  let m :=
    sample.after
      (sample.checkIssued ++
       [checkMergedMsg 7 false None; commitSHAMsg 7 "0a1b2c3" None;
        commentResultMsg 7 false None]) in
  let l1 :=
    [fetchMeCmd; tickCmd;
     notifySend "PR not merged"
       "PR #7 (Fix the parser) is still not merged after auto-merge."] in
  let cmd := disableAutoMergeCmd 7 in
  let msg := disableAutoMergeResultMsg 7 None in
  sys_reachable (m, l1 ++ cmd :: []) ∧ produces cmd msg ∧
  findScheduledIndex m 7 = None ∧
  cmd = disableAutoMergeCmd 7 ∧ ∃ err, msg = disableAutoMergeResultMsg 7 err.
Proof.
  intros m l1 cmd msg.
  pose proof sample_disable_late_reachable as Hr.
  assert (produces cmd msg) as Hp by constructor.
  assert (findScheduledIndex m 7 = None) as Hnone by (vm_compute; reflexivity).
  split; [exact Hr|]. split; [exact Hp|]. split; [exact Hnone|].
  exact (only_disable_results_are_dropped m l1 cmd [] msg 7 Hr Hp eq_refl Hnone).
Defined.
